(** * Algorithm exercises of the CodeRunner corpus: embedding and specification

    Each exercise of [src/test/exercises_cpp] that the specification makes a
    statement about, and the two fibonacci templates, is embedded as a Rocq
    function that follows the C++ text statement by statement.

    - [int] values are integers of [Z]; signed arithmetic on them is reduced
      to the 32-bit width ([Int32.wrap]).
    - Vectors and strings are lists, read with [!!] and written with
      [<[i:=x]>]; the size of a container is taken to fit the [int] it is
      stored in.
    - A [while] loop, and a [for] loop whose counter is compared with an
      [int] argument, is the iteration [while] of a body on an explicit loop
      state; it is bounded by a fuel argument and [None] when the fuel runs
      out or the body reads outside a vector.
    - A [for] loop over the indices of a container is a fold over the range
      of these indices.
    - An object that lives across calls is a record passed in and out. *)

From Stdlib Require Import ZArith Lia List Sorting.Sorted Sorting.Permutation.
From Stdlib Require Import Strings.String Strings.Ascii QArith.QArith_base.
From stdpp Require Import base tactics option list numbers sorting strings.

Set Default Proof Using "Type".

(** ** Machine integers *)

Module Int32.
Local Open Scope Z_scope.

Definition INT_MIN : Z := - 2 ^ 31.
Definition INT_MAX : Z := 2 ^ 31 - 1.

(** Two's complement reduction of an exact result to the [int] width. *)
Definition wrap (z : Z) : Z := (z + 2 ^ 31) mod 2 ^ 32 - 2 ^ 31.

Definition in_range (z : Z) : Prop := INT_MIN <= z <= INT_MAX.

Definition in_rangeb (z : Z) : bool := (INT_MIN <=? z) && (z <=? INT_MAX).

Definition add (a b : Z) : Z := wrap (a + b).
Definition mul (a b : Z) : Z := wrap (a * b).
Definition neg (a : Z) : Z := wrap (- a).
End Int32.

(** ** Vectors indexed by [int] *)

Module Vec.
Local Open Scope Z_scope.

(** [v[i]] and [v[i] = x] at an [int] index; outside the vector the
    behaviour is undefined, which is [None] here. *)
Definition get {A} (v : list A) (i : Z) : option A :=
  if i <? 0 then None else v !! Z.to_nat i.

Definition set {A} (v : list A) (i : Z) (x : A) : option (list A) :=
  if (0 <=? i) && (i <? Z.of_nat (length v)) then Some (<[Z.to_nat i := x]> v) else None.
End Vec.

(** ** Loops *)

Section Loops.
Context {St : Type}.
Variable cond : St -> bool.
Variable body : St -> option St.

(** [while (cond) body], run for at most [fuel] iterations.  [None] is
    either an error raised by the body or an exhausted fuel. *)
Fixpoint while (fuel : nat) (s : St) : option St :=
  if cond s then
    match fuel with
    | O => None
    | S fuel' =>
        match body s with
        | Some s' => while fuel' s'
        | None => None
        end
    end
  else Some s.
End Loops.

(** ** M02: mergeSortedArrays *)

Module M02.
Local Open Scope Z_scope.

Section Keyed.
(** The elements are [int]s; the merge only ever compares them, so the
    embedding carries an arbitrary payload next to the compared key.
    [mergeSortedArrays] below is the instance without payload. *)
Context {A : Type}.
Variable key : A -> Z.

Record state := State { idx_i : nat; idx_j : nat; result : list A }.

Definition both_left (nums1 nums2 : list A) (s : state) : bool :=
  bool_decide (idx_i s < length nums1)%nat && bool_decide (idx_j s < length nums2)%nat.

Definition take_smaller (nums1 nums2 : list A) (s : state) : option state :=
  x ← nums1 !! idx_i s;
  y ← nums2 !! idx_j s;
  if key x <=? key y
  then Some (State (S (idx_i s)) (idx_j s) (result s ++ [x]))
  else Some (State (idx_i s) (S (idx_j s)) (result s ++ [y])).

Definition left1 (nums1 : list A) (s : state) : bool :=
  bool_decide (idx_i s < length nums1)%nat.

Definition take1 (nums1 : list A) (s : state) : option state :=
  x ← nums1 !! idx_i s;
  Some (State (S (idx_i s)) (idx_j s) (result s ++ [x])).

Definition left2 (nums2 : list A) (s : state) : bool :=
  bool_decide (idx_j s < length nums2)%nat.

Definition take2 (nums2 : list A) (s : state) : option state :=
  y ← nums2 !! idx_j s;
  Some (State (idx_i s) (S (idx_j s)) (result s ++ [y])).

Definition merge_keyed (fuel : nat) (nums1 nums2 : list A) : option (list A) :=
  s1 ← while (both_left nums1 nums2) (take_smaller nums1 nums2) fuel (State 0 0 []);
  s2 ← while (left1 nums1) (take1 nums1) fuel s1;
  s3 ← while (left2 nums2) (take2 nums2) fuel s2;
  Some (result s3).

(** The functional merge the loops compute. *)
Fixpoint merge_fun (l1 : list A) : list A -> list A :=
  fix inner (l2 : list A) : list A :=
    match l1, l2 with
    | [], _ => l2
    | _, [] => l1
    | x :: l1', y :: l2' =>
        if key x <=? key y then x :: merge_fun l1' l2 else y :: inner l2'
    end.
End Keyed.

Definition mergeSortedArrays (fuel : nat) (nums1 nums2 : list Z) : option (list Z) :=
  merge_keyed id fuel nums1 nums2.
End M02.

(** ** Fibonacci: the three variants of the corpus *)

(** State of the iterative loop [for (int i = 2; i <= n; ++i)]. *)
Record fib_state := FibState { fib_i : Z; fib_a : Z; fib_b : Z }.

Definition fib_cond (n : Z) (s : fib_state) : bool := (fib_i s <=? n)%Z.

(** [int c = a + b; a = b; b = c;] followed by [++i]. *)
Definition fib_body (s : fib_state) : option fib_state :=
  let c := Int32.add (fib_a s) (fib_b s) in
  Some (FibState (Int32.add (fib_i s) 1) (fib_b s) c).

(** [src/test/exercises_cpp/easy/cpp/exercise03_fibonacci.cpp] *)
Module E03.
Local Open Scope Z_scope.

Definition fibonacci (fuel : nat) (n : Z) : option Z :=
  if n <=? 0 then Some 0
  else if n =? 1 then Some 1
  else s ← while (fib_cond n) fib_body fuel (FibState 2 0 1); Some (fib_b s).
End E03.

(** [src/templates/template.cpp] *)
Module Template.
Local Open Scope Z_scope.

Definition fibonacci (fuel : nat) (position : Z) : option Z :=
  if position =? 0 then Some 0
  else if position =? 1 then Some 1
  else s ← while (fib_cond position) fib_body fuel (FibState 2 0 1); Some (fib_b s).
End Template.

(** What a call of a function that may throw produces. *)
Inductive outcome (A : Type) : Type :=
| Returned (a : A)
| Thrown.
Arguments Returned {A} a.
Arguments Thrown {A}.

(** [src/template/cpp-template.cpp]: recursive, rejects negative input. *)
Module CppTemplate.
Local Open Scope Z_scope.

Fixpoint fibonacci (fuel : nat) (n : Z) : option (outcome Z) :=
  if n <? 0 then Some Thrown
  else if n =? 0 then Some (Returned 0)
  else if n =? 1 then Some (Returned 1)
  else
    match fuel with
    | O => None
    | S fuel' =>
        match fibonacci fuel' (n - 1), fibonacci fuel' (n - 2) with
        | Some (Returned x), Some (Returned y) => Some (Returned (Int32.add x y))
        | Some Thrown, _ => Some Thrown
        | Some (Returned _), Some Thrown => Some Thrown
        | _, _ => None
        end
    end.
End CppTemplate.

(** The fibonacci numbers reduced to the [int] width at every addition. *)
Fixpoint fib32 (k : nat) : Z :=
  match k with
  | O => 0%Z
  | S k' =>
      match k' with
      | O => 1%Z
      | S k'' => Int32.add (fib32 k'') (fib32 k')
      end
  end.

(** ** Exercise 06: reverseInt *)

Module E06.
Local Open Scope Z_scope.

(** The loop state; [exact] records that no signed operation so far left
    the [int] range (the machine result is the mathematical one). *)
Record state := State { st_n : Z; st_rev : Z; exact : bool }.

Definition cond (s : state) : bool := st_n s >? 0.

(** [rev = rev * 10 + (n % 10); n /= 10;] *)
Definition body (s : state) : option state :=
  let m := Int32.mul (st_rev s) 10 in
  let d := Z.rem (st_n s) 10 in
  Some (State (Z.quot (st_n s) 10) (Int32.add m d)
              (exact s && Int32.in_rangeb (st_rev s * 10) && Int32.in_rangeb (m + d))).

(** The run of [reverseInt]: the returned value and whether every signed
    operation stayed in range. *)
Definition reverseInt_run (fuel : nat) (n : Z) : option (Z * bool) :=
  let sign := if n <? 0 then -1 else 1 in
  let n' := if n <? 0 then Int32.neg n else n in
  let ok := if n <? 0 then Int32.in_rangeb (- n) else true in
  s ← while cond body fuel (State n' 0 ok);
  Some (Int32.mul sign (st_rev s), exact s && Int32.in_rangeb (sign * st_rev s)).

Definition reverseInt (fuel : nat) (n : Z) : option Z :=
  fst <$> reverseInt_run fuel n.

(** [no_overflow fuel n]: the call returns and no operation overflowed. *)
Definition no_overflow (fuel : nat) (n : Z) : Prop :=
  snd <$> reverseInt_run fuel n = Some true.

(** Decimal digits, least significant first, and their value. *)
Fixpoint digits (fuel : nat) (n : Z) : list Z :=
  match fuel with
  | O => []
  | S fuel' => if n >? 0 then Z.rem n 10 :: digits fuel' (Z.quot n 10) else []
  end.

Fixpoint value (ds : list Z) : Z :=
  match ds with
  | [] => 0
  | d :: ds' => d + 10 * value ds'
  end.
End E06.

(** ** H06: minDistance (edit distance) *)

Module H06.
Local Open Scope Z_scope.

(** [dp[i][j]] and [dp[i][j] = v] on the table of [m + 1] rows of
    [n + 1] cells, which the loops index with [0..m] and [0..n].  A read
    outside the table would yield [0] here and a write outside would
    change nothing. *)
Definition rd (dp : list (list Z)) (i j : nat) : Z :=
  default 0 (row ← dp !! i; row !! j).

Definition wr (dp : list (list Z)) (i j : nat) (v : Z) : list (list Z) :=
  match dp !! i with
  | Some row => <[i := <[j := v]> row]> dp
  | None => dp
  end.

(** [word[k]] as a character code. *)
Definition char_at (w : list ascii) (k : nat) : option ascii := w !! k.

(** [for (int i = 0; i <= m; ++i) dp[i][0] = i;] *)
Definition init_column (m : nat) (dp : list (list Z)) : list (list Z) :=
  foldl (fun dp i => wr dp i 0 (Z.of_nat i)) dp (seq 0 (S m)).

(** [for (int j = 0; j <= n; ++j) dp[0][j] = j;] *)
Definition init_row (n : nat) (dp : list (list Z)) : list (list Z) :=
  foldl (fun dp j => wr dp 0 j (Z.of_nat j)) dp (seq 0 (S n)).

(** The body of the inner loop, at [1 <= i <= m] and [1 <= j <= n]. *)
Definition cell (word1 word2 : list ascii) (i : nat) (dp : list (list Z)) (j : nat)
  : list (list Z) :=
  if bool_decide (char_at word1 (i - 1) = char_at word2 (j - 1)) then
    wr dp i j (rd dp (i - 1) (j - 1))
  else
    wr dp i j (Z.min (Int32.add (rd dp (i - 1) j) 1)
                 (Z.min (Int32.add (rd dp i (j - 1)) 1)
                        (Int32.add (rd dp (i - 1) (j - 1)) 1))).

Definition fill_row (word1 word2 : list ascii) (n : nat) (dp : list (list Z)) (i : nat)
  : list (list Z) :=
  foldl (cell word1 word2 i) dp (seq 1 n).

Definition fill (word1 word2 : list ascii) (m n : nat) (dp : list (list Z))
  : list (list Z) :=
  foldl (fill_row word1 word2 n) dp (seq 1 m).

(** [int m = word1.size(); int n = word2.size();] reduce the sizes to the
    [int] width.  The call yields no value, [None], when [m + 1] or
    [n + 1] overflows ([INT_MAX]), when one of them is negative (the
    constructor of the vector refuses the size), and when [m + 1] is [0]
    ([dp[0][j]] is outside a table without rows). *)
Definition minDistance (word1 word2 : string) : option Z :=
  let w1 := list_ascii_of_string word1 in
  let w2 := list_ascii_of_string word2 in
  let m := Int32.wrap (Z.of_nat (length w1)) in
  let n := Int32.wrap (Z.of_nat (length w2)) in
  if (0 <=? m) && (m <? Int32.INT_MAX) && (0 <=? n) && (n <? Int32.INT_MAX) then
    let m := Z.to_nat m in
    let n := Z.to_nat n in
    let dp := replicate (S m) (replicate (S n) 0) in
    let dp := init_column m dp in
    let dp := init_row n dp in
    let dp := fill w1 w2 m n dp in
    Some (rd dp m n)
  else None.
End H06.

(** ** H01: dijkstra *)

Module H01.
Import Vec.
Local Open Scope Z_scope.

(** [greater<pair<int,int>>]: the queue yields the lexicographically
    least pair first.  The queue is kept as a sorted list. *)
Definition pair_le (p q : Z * Z) : bool :=
  (fst p <? fst q) || ((fst p =? fst q) && (snd p <=? snd q)).

Fixpoint pq_push (p : Z * Z) (pq : list (Z * Z)) : list (Z * Z) :=
  match pq with
  | [] => [p]
  | q :: pq' => if pair_le p q then p :: pq else q :: pq_push p pq'
  end.

Record state := State { dist : list Z; pq : list (Z * Z) }.

Definition cond (s : state) : bool :=
  match pq s with [] => false | _ :: _ => true end.

(** One edge [(v, w)] of [graph[u]]. *)
Definition relax (u : Z) (s : state) (e : Z * Z) : option state :=
  let '(v, w) := e in
  du ← get (dist s) u;
  dv ← get (dist s) v;
  if Int32.add du w <? dv then
    dist' ← set (dist s) v (Int32.add du w);
    Some (State dist' (pq_push (Int32.add du w, v) (pq s)))
  else Some s.

Fixpoint relax_all (u : Z) (s : state) (edges : list (Z * Z)) : option state :=
  match edges with
  | [] => Some s
  | e :: edges' => s' ← relax u s e; relax_all u s' edges'
  end.

Definition body (graph : list (list (Z * Z))) (s : state) : option state :=
  match pq s with
  | [] => None
  | (cost, u) :: rest =>
      du ← get (dist s) u;
      if cost >? du then Some (State (dist s) rest)
      else
        edges ← get graph u;
        relax_all u (State (dist s) rest) edges
  end.

Definition dijkstra (fuel : nat) (graph : list (list (Z * Z))) (start : Z)
  : option (list Z) :=
  let n := length graph in
  let dist := replicate n Int32.INT_MAX in
  dist ← set dist start 0;
  s ← while cond (body graph) fuel (State dist (pq_push (0, start) []));
  Some (H01.dist s).

(** [v] can be reached from [start] along edges of [graph]. *)
Inductive reachable (graph : list (list (Z * Z))) (start : Z) : Z -> Prop :=
| reach_start : reachable graph start start
| reach_edge u v w edges :
    reachable graph start u ->
    get graph u = Some edges ->
    (v, w) ∈ edges ->
    reachable graph start v.

(** Every edge leads to a node of the graph and has a weight of the
    [int] type that is not negative. *)
Definition well_formed (graph : list (list (Z * Z))) : Prop :=
  Forall (Forall (fun e : Z * Z =>
    0 <= fst e < Z.of_nat (length graph) /\ 0 <= snd e <= Int32.INT_MAX)) graph.
End H01.

(** ** M06: removeDuplicates *)

Module M06.
Local Open Scope Z_scope.

(** The vector, passed by reference, and [write_index]. *)
Record state := State { nums : list Z; write_index : nat }.

(** The body of the loop at [read_index].  The two reads are inside the
    vector for [1 <= read_index < nums.size()]. *)
Definition step (s : state) (read_index : nat) : state :=
  match nums s !! read_index, nums s !! (read_index - 1)%nat with
  | Some x, Some y =>
      if bool_decide (x ≠ y)
      then State (<[write_index s := x]> (nums s)) (S (write_index s))
      else s
  | _, _ => s
  end.

(** Returns the [int] and the vector as the call leaves it. *)
Definition removeDuplicates (nums : list Z) : Z * list Z :=
  match nums with
  | [] => (0, nums)
  | _ :: _ =>
      let s := foldl step (State nums 1) (seq 1 (length nums - 1)) in
      (Z.of_nat (write_index s), M06.nums s)
  end.

(** One element of every run of equal neighbours. *)
Fixpoint uniq (l : list Z) : list Z :=
  match l with
  | [] => []
  | x :: l' =>
      match l' with
      | [] => [x]
      | y :: _ => if bool_decide (x = y) then uniq l' else x :: uniq l'
      end
  end.
End M06.

(** ** H05: solveNQueens *)

Module H05.
Local Open Scope Z_scope.

(** The object: the members [result], [board] and [n] live across calls. *)
Record Solution := Object {
  result : list (list (list ascii));
  board : list (list ascii);
  n : Z
}.

Definition is_queen (board : list (list ascii)) (i j : nat) : bool :=
  bool_decide ((row ← board !! i; row !! j) = Some "Q"%char).

(** [board[row][col] = c] *)
Definition put (board : list (list ascii)) (row col : nat) (c : ascii)
  : list (list ascii) :=
  match board !! row with
  | Some r => <[row := <[col := c]> r]> board
  | None => board
  end.

(** [for (int i = 0; i < row; ++i)] *)
Definition column_free (board : list (list ascii)) (row col : nat) : bool :=
  forallb (fun i => negb (is_queen board i col)) (seq 0 row).

(** [for (i = row - 1, j = col - 1; i >= 0 && j >= 0; --i, --j)], the
    arguments being [i + 1] and [j + 1]. *)
Fixpoint upper_left_free (board : list (list ascii)) (i1 j1 : nat) : bool :=
  match i1, j1 with
  | S i, S j => if is_queen board i j then false else upper_left_free board i j
  | _, _ => true
  end.

(** [for (i = row - 1, j = col + 1; i >= 0 && j < n; --i, ++j)], the
    arguments being [i + 1] and [j]. *)
Fixpoint upper_right_free (board : list (list ascii)) (n : Z) (i1 j : nat) : bool :=
  match i1 with
  | O => true
  | S i =>
      if Z.of_nat j <? n then
        if is_queen board i j then false else upper_right_free board n i (S j)
      else true
  end.

Definition isSafe (s : Solution) (row col : nat) : bool :=
  column_free (board s) row col
  && upper_left_free (board s) row col
  && upper_right_free (board s) (n s) row (S col).

(** The private [solveNQueens(int row)]; [fuel] bounds the depth. *)
Fixpoint solveNQueens_row (fuel : nat) (row : nat) (s : Solution) : option Solution :=
  if Z.of_nat row =? n s then
    Some (Object (result s ++ [board s]) (board s) (n s))
  else
    match fuel with
    | O => None
    | S fuel' =>
        foldl (fun acc col =>
                 s ← acc;
                 if isSafe s row col then
                   s' ← solveNQueens_row fuel' (S row)
                          (Object (result s) (put (board s) row col "Q"%char) (n s));
                   Some (Object (result s') (put (board s') row col "."%char) (n s'))
                 else Some s)
              (Some s) (seq 0 (Z.to_nat (n s)))
    end.

(** The public [solveNQueens(int n)].  A negative [n] makes the
    construction of the board throw, after [this->n] was assigned. *)
Definition solveNQueens (fuel : nat) (n : Z) (s : Solution)
  : option (outcome (list (list (list ascii))) * Solution) :=
  let s := Object (result s) (board s) n in
  if n <? 0 then Some (Thrown, s)
  else
    let s := Object (result s)
               (replicate (Z.to_nat n) (replicate (Z.to_nat n) "."%char)) n in
    let s := Object [] (board s) n in
    s' ← solveNQueens_row fuel 0 s;
    Some (Returned (result s'), s').
End H05.

(** ** M04: isValidParentheses *)

Module M04.
Definition opener (c : ascii) : bool :=
  Ascii.eqb c "(" || Ascii.eqb c "{" || Ascii.eqb c "[".

(** The test made on a character that is not an opener, [top] being the
    popped element. *)
Definition mismatch (c top : ascii) : bool :=
  (Ascii.eqb c ")" && negb (Ascii.eqb top "("))
  || (Ascii.eqb c "}" && negb (Ascii.eqb top "{"))
  || (Ascii.eqb c "]" && negb (Ascii.eqb top "[")).

(** [for (char c : s)] on the rest of the string, [stk] having its top
    at the head. *)
Fixpoint scan (s : string) (stk : list ascii) : bool :=
  match s with
  | EmptyString => match stk with [] => true | _ :: _ => false end
  | String c s' =>
      if opener c then scan s' (c :: stk)
      else
        match stk with
        | [] => false
        | top :: stk' => if mismatch c top then false else scan s' stk'
        end
  end.

Definition isValidParentheses (s : string) : bool := scan s [].
End M04.

(** ** H03: findMedianSortedArrays *)

Module H03.
Import Vec.
Local Open Scope Z_scope.

(** The bounds of the search and the value of a [return] met in the loop.
    The [double] results are an [int] or half an [int]; both are exact
    and are rationals here. *)
Record state := State { left : Z; right : Z; ret : option Q }.

Definition cond (s : state) : bool :=
  match ret s with
  | Some _ => false
  | None => left s <=? right s
  end.

Definition body (nums1 nums2 : list Z) (s : state) : option state :=
  let m := Z.of_nat (length nums1) in
  let n := Z.of_nat (length nums2) in
  let total := m + n in
  let half := Z.quot (total + 1) 2 in
  let i := left s + Z.quot (right s - left s) 2 in
  let j := half - i in
  nums1_left ← (if i >? 0 then get nums1 (i - 1) else Some Int32.INT_MIN);
  nums1_right ← (if i <? m then get nums1 i else Some Int32.INT_MAX);
  nums2_left ← (if j >? 0 then get nums2 (j - 1) else Some Int32.INT_MIN);
  nums2_right ← (if j <? n then get nums2 j else Some Int32.INT_MAX);
  if (nums1_left <=? nums2_right) && (nums2_left <=? nums1_right) then
    if Z.rem total 2 =? 1 then
      Some (State (left s) (right s) (Some (inject_Z (Z.max nums1_left nums2_left))))
    else
      Some (State (left s) (right s)
              (Some (Qmake (Int32.add (Z.max nums1_left nums2_left)
                                      (Z.min nums1_right nums2_right)) 2)))
  else if nums1_left >? nums2_right then
    Some (State (left s) (i - 1) None)
  else
    Some (State (i + 1) (right s) None).

Fixpoint findMedianSortedArrays (fuel : nat) (nums1 nums2 : list Z) : option Q :=
  if (length nums2 <? length nums1)%nat then
    match fuel with
    | O => None
    | S fuel' => findMedianSortedArrays fuel' nums2 nums1
    end
  else
    s ← while cond (body nums1 nums2) fuel (State 0 (Z.of_nat (length nums1)) None);
    match ret s with
    | Some r => Some r
    | None => Some (inject_Z 0)
    end.
End H03.

(** * Properties *)

(** ** Machine integers *)

Lemma wrap_in_range (z : Z) : Int32.in_range (Int32.wrap z).
Proof.
  unfold Int32.in_range, Int32.wrap, Int32.INT_MIN, Int32.INT_MAX.
  pose proof (Z.mod_pos_bound (z + 2 ^ 31) (2 ^ 32)). lia.
Qed.

Lemma wrap_exact (z : Z) : Int32.in_range z -> Int32.wrap z = z.
Proof.
  unfold Int32.in_range, Int32.wrap, Int32.INT_MIN, Int32.INT_MAX. intros H.
  rewrite Z.mod_small; lia.
Qed.

Lemma in_rangeb_spec (z : Z) : Int32.in_rangeb z = true <-> Int32.in_range z.
Proof.
  unfold Int32.in_rangeb, Int32.in_range.
  rewrite andb_true_iff, !Z.leb_le. tauto.
Qed.

(** ** Loop rules *)

Section LoopRules.
Context {St : Type}.
Variable cond : St -> bool.
Variable body : St -> option St.

Lemma while_exit fuel s s' :
  while cond body fuel s = Some s' -> cond s' = false.
Proof.
  revert s. induction fuel as [|fuel IH]; intros s; simpl;
    destruct (cond s) eqn:Hc; try congruence.
  destruct (body s) as [s1|]; [apply IH | congruence].
Qed.

Lemma while_fuel_mono fuel fuel' s s' :
  while cond body fuel s = Some s' -> (fuel <= fuel')%nat ->
  while cond body fuel' s = Some s'.
Proof.
  revert fuel' s. induction fuel as [|fuel IH]; intros fuel' s; simpl.
  - destruct (cond s) eqn:Hc; [congruence|].
    intros H _. destruct fuel'; simpl; rewrite Hc; exact H.
  - destruct (cond s) eqn:Hc.
    + destruct (body s) as [s1|] eqn:Hb; [|congruence].
      intros H Hle. destruct fuel' as [|fuel']; [lia|].
      simpl. rewrite Hc, Hb. apply IH; [exact H | lia].
    + intros H _. destruct fuel'; simpl; rewrite Hc; exact H.
Qed.

(** Total correctness: an invariant and a variant. *)
Lemma while_rule (Inv : St -> Prop) (mu : St -> nat) :
  (forall s, Inv s -> cond s = true ->
             exists s', body s = Some s' /\ Inv s' /\ (mu s' < mu s)%nat) ->
  forall fuel s, Inv s -> (mu s <= fuel)%nat ->
  exists s', while cond body fuel s = Some s' /\ Inv s' /\ cond s' = false.
Proof.
  intros Hstep. induction fuel as [|fuel IH]; intros s HI Hmu; simpl.
  - destruct (cond s) eqn:Hc.
    + destruct (Hstep s HI Hc) as (s' & _ & _ & Hlt). lia.
    + eauto.
  - destruct (cond s) eqn:Hc; [|eauto].
    destruct (Hstep s HI Hc) as (s' & Hb & HI' & Hlt). rewrite Hb.
    apply IH; [exact HI' | lia].
Qed.

(** A loop whose condition holds on an invariant never exits. *)
Lemma while_stuck (Inv : St -> Prop) :
  (forall s, Inv s -> cond s = true /\ forall s', body s = Some s' -> Inv s') ->
  forall fuel s, Inv s -> while cond body fuel s = None.
Proof.
  intros Hstep. induction fuel as [|fuel IH]; intros s HI; simpl;
    destruct (Hstep s HI) as [Hc Hb]; rewrite Hc; [reflexivity|].
  destruct (body s) as [s'|] eqn:E; [|reflexivity]. apply IH, Hb, eq_refl.
Qed.
End LoopRules.

(** ** M02: mergeSortedArrays *)

Lemma filter_none {A} (P : A -> Prop) `{!forall a, Decision (P a)} (l : list A) :
  Forall (fun a => ~ P a) l -> filter P l = [].
Proof.
  induction 1 as [|a l Ha _ IH]; [reflexivity|].
  rewrite filter_cons, IH. destruct (decide (P a)); [contradiction | reflexivity].
Qed.

Section MergeKeyed.
Context {A : Type}.
Variable key : A -> Z.
Local Open Scope Z_scope.

Local Abbreviation le_key := (fun a b : A => key a <= key b).

Lemma merge_fun_nil_l (l : list A) : M02.merge_fun key [] l = l.
Proof. destruct l; reflexivity. Qed.

Lemma merge_fun_nil_r (l : list A) : M02.merge_fun key l [] = l.
Proof. destruct l; reflexivity. Qed.

Lemma merge_fun_cons (x y : A) (l1 l2 : list A) :
  M02.merge_fun key (x :: l1) (y :: l2) =
  if key x <=? key y then x :: M02.merge_fun key l1 (y :: l2)
  else y :: M02.merge_fun key (x :: l1) l2.
Proof. reflexivity. Qed.

Lemma merge_fun_perm (l1 l2 : list A) : M02.merge_fun key l1 l2 ≡ₚ l1 ++ l2.
Proof.
  revert l2. induction l1 as [|x l1 IH1]; intros l2;
    [rewrite merge_fun_nil_l; reflexivity|].
  induction l2 as [|y l2 IH2].
  - rewrite merge_fun_nil_r, app_nil_r. reflexivity.
  - rewrite merge_fun_cons. destruct (key x <=? key y).
    + simpl. rewrite IH1. reflexivity.
    + rewrite IH2. apply Permutation_middle.
Qed.

Lemma merge_fun_sorted (l1 l2 : list A) :
  StronglySorted le_key l1 -> StronglySorted le_key l2 ->
  StronglySorted le_key (M02.merge_fun key l1 l2).
Proof.
  revert l2. induction l1 as [|x l1 IH1]; intros l2 H1 H2;
    [rewrite merge_fun_nil_l; exact H2|].
  induction l2 as [|y l2 IH2]; [rewrite merge_fun_nil_r; exact H1|].
  rewrite merge_fun_cons.
  apply StronglySorted_inv in H1 as [H1 Hx].
  apply StronglySorted_inv in H2 as [H2 Hy].
  destruct (key x <=? key y) eqn:E.
  - apply Z.leb_le in E. constructor.
    + apply IH1; [exact H1 | constructor; assumption].
    + rewrite merge_fun_perm. apply Forall_app. split; [exact Hx|].
      constructor; [exact E|].
      eapply Forall_impl; [exact Hy | simpl; intros; lia].
  - apply Z.leb_gt in E. constructor.
    + apply IH2. exact H2.
    + rewrite merge_fun_perm. apply Forall_app. split; [|exact Hy].
      constructor; [lia|].
      eapply Forall_impl; [exact Hx | simpl; intros; lia].
Qed.

(** Stability: among the elements of one key, those of the first list
    come first, each list keeping its order. *)
Lemma merge_fun_stable (k : Z) (l1 l2 : list A) :
  StronglySorted le_key l1 ->
  filter (fun a => key a = k) (M02.merge_fun key l1 l2) =
  filter (fun a => key a = k) l1 ++ filter (fun a => key a = k) l2.
Proof.
  revert l2. induction l1 as [|x l1 IH1]; intros l2 H1;
    [rewrite merge_fun_nil_l; reflexivity|].
  induction l2 as [|y l2 IH2]; [rewrite merge_fun_nil_r, app_nil_r; reflexivity|].
  rewrite merge_fun_cons. pose proof H1 as H1'.
  apply StronglySorted_inv in H1 as [H1 Hx].
  destruct (key x <=? key y) eqn:E.
  - rewrite !(filter_cons _ x). rewrite IH1 by exact H1.
    destruct (decide (key x = k)); reflexivity.
  - apply Z.leb_gt in E. rewrite (filter_cons _ y), IH2.
    rewrite (filter_cons _ y l2).
    destruct (decide (key y = k)) as [Hk|Hk]; [|reflexivity].
    assert (Hnil : filter (fun a => key a = k) (x :: l1) = []).
    { apply filter_none. constructor; [lia|].
      eapply Forall_impl; [exact Hx | simpl; intros; lia]. }
    rewrite Hnil. reflexivity.
Qed.
End MergeKeyed.

Section MergeLoops.
Context {A : Type}.
Variable key : A -> Z.
Variables nums1 nums2 : list A.
Local Open Scope nat_scope.

Local Abbreviation merged := (M02.merge_fun key nums1 nums2).

Definition merge_inv1 (s : M02.state) : Prop :=
  M02.idx_i s <= length nums1 /\ M02.idx_j s <= length nums2 /\
  M02.result s ++ M02.merge_fun key (drop (M02.idx_i s) nums1) (drop (M02.idx_j s) nums2)
  = merged.

Definition merge_inv2 (s : M02.state) : Prop :=
  M02.idx_i s <= length nums1 /\ M02.idx_j s <= length nums2 /\
  M02.result s ++ drop (M02.idx_i s) nums1 ++ drop (M02.idx_j s) nums2 = merged.

Definition merge_inv3 (s : M02.state) : Prop :=
  length nums1 <= M02.idx_i s /\ M02.idx_j s <= length nums2 /\
  M02.result s ++ drop (M02.idx_j s) nums2 = merged.

Lemma merge_step1 s :
  merge_inv1 s -> M02.both_left nums1 nums2 s = true ->
  exists s', M02.take_smaller key nums1 nums2 s = Some s' /\ merge_inv1 s' /\
    (length nums1 - M02.idx_i s') + (length nums2 - M02.idx_j s')
    < (length nums1 - M02.idx_i s) + (length nums2 - M02.idx_j s).
Proof.
  destruct s as [i j r]. unfold merge_inv1, M02.both_left, M02.take_smaller. simpl.
  intros (Hi & Hj & Heq) Hc.
  apply andb_true_iff in Hc as [Hi'%bool_decide_eq_true Hj'%bool_decide_eq_true].
  destruct (lookup_lt_is_Some_2 nums1 i Hi') as [x Hx].
  destruct (lookup_lt_is_Some_2 nums2 j Hj') as [y Hy].
  rewrite Hx, Hy. simpl.
  rewrite (drop_S _ _ _ Hx), (drop_S _ _ _ Hy), merge_fun_cons in Heq.
  destruct (key x <=? key y)%Z; eexists; (split; [reflexivity|]); simpl.
  - repeat split; try lia. rewrite <- Heq, <- app_assoc.
    rewrite (drop_S _ _ _ Hy). reflexivity.
  - repeat split; try lia. rewrite <- Heq, <- app_assoc.
    rewrite (drop_S _ _ _ Hx). reflexivity.
Qed.

Lemma merge_step2 s :
  merge_inv2 s -> M02.left1 nums1 s = true ->
  exists s', M02.take1 nums1 s = Some s' /\ merge_inv2 s' /\
    length nums1 - M02.idx_i s' < length nums1 - M02.idx_i s.
Proof.
  destruct s as [i j r]. unfold merge_inv2, M02.left1, M02.take1. simpl.
  intros (Hi & Hj & Heq) Hi'%bool_decide_eq_true.
  destruct (lookup_lt_is_Some_2 nums1 i Hi') as [x Hx]. rewrite Hx. simpl.
  eexists; split; [reflexivity|]. simpl. repeat split; try lia.
  rewrite <- Heq, (drop_S _ _ _ Hx), <- app_assoc. reflexivity.
Qed.

Lemma merge_step3 s :
  merge_inv3 s -> M02.left2 nums2 s = true ->
  exists s', M02.take2 nums2 s = Some s' /\ merge_inv3 s' /\
    length nums2 - M02.idx_j s' < length nums2 - M02.idx_j s.
Proof.
  destruct s as [i j r]. unfold merge_inv3, M02.left2, M02.take2. simpl.
  intros (Hi & Hj & Heq) Hj'%bool_decide_eq_true.
  destruct (lookup_lt_is_Some_2 nums2 j Hj') as [y Hy]. rewrite Hy. simpl.
  eexists; split; [reflexivity|]. simpl. repeat split; try lia.
  rewrite <- Heq, (drop_S _ _ _ Hy), <- app_assoc. reflexivity.
Qed.

(** The three loops return, and return the functional merge. *)
Lemma merge_keyed_fun fuel :
  length nums1 + length nums2 <= fuel ->
  M02.merge_keyed key fuel nums1 nums2 = Some merged.
Proof.
  intros Hfuel. unfold M02.merge_keyed.
  destruct (while_rule _ _ merge_inv1
              (fun s => (length nums1 - M02.idx_i s) + (length nums2 - M02.idx_j s))
              merge_step1 fuel (M02.State 0 0 []))
    as (s1 & -> & (Hi1 & Hj1 & E1) & Hc1).
  { unfold merge_inv1. simpl. repeat split; lia. }
  { simpl. lia. }
  simpl.
  assert (H2 : merge_inv2 s1).
  { unfold merge_inv2. repeat split; try assumption. rewrite <- E1. f_equal.
    unfold M02.both_left in Hc1. apply andb_false_iff in Hc1 as [Hc|Hc];
      apply bool_decide_eq_false in Hc.
    - rewrite (drop_ge nums1) by lia. rewrite merge_fun_nil_l. reflexivity.
    - rewrite (drop_ge nums2) by lia. rewrite merge_fun_nil_r, app_nil_r. reflexivity. }
  destruct (while_rule _ _ merge_inv2 (fun s => length nums1 - M02.idx_i s)
              merge_step2 fuel s1 H2) as (s2 & -> & (Hi2 & Hj2 & E2) & Hc2).
  { lia. }
  simpl. apply bool_decide_eq_false in Hc2.
  assert (H3 : merge_inv3 s2).
  { unfold merge_inv3. repeat split; try lia. rewrite <- E2.
    rewrite (drop_ge nums1) by lia. reflexivity. }
  destruct (while_rule _ _ merge_inv3 (fun s => length nums2 - M02.idx_j s)
              merge_step3 fuel s2 H3) as (s3 & -> & (Hi3 & Hj3 & E3) & Hc3).
  { lia. }
  simpl. apply bool_decide_eq_false in Hc3.
  rewrite (drop_ge nums2), app_nil_r in E3 by lia. congruence.
Qed.
End MergeLoops.

(** Erasing the payload of a keyed merge gives the merge of the keys. *)
Lemma merge_fun_keys {A} (key : A -> Z) (l1 l2 : list A) :
  map key (M02.merge_fun key l1 l2) = M02.merge_fun id (map key l1) (map key l2).
Proof.
  revert l2. induction l1 as [|x l1 IH1]; intros l2;
    [cbn [map]; rewrite !merge_fun_nil_l; reflexivity|].
  induction l2 as [|y l2 IH2]; [cbn [map]; rewrite !merge_fun_nil_r; reflexivity|].
  cbn [map]. rewrite !merge_fun_cons. unfold id at 1 2.
  destruct (key x <=? key y)%Z; cbn [map]; f_equal.
  - apply IH1.
  - apply IH2.
Qed.

Lemma sorted_keys {A} (key : A -> Z) (l : list A) :
  Sorted Z.le (map key l) -> StronglySorted (fun a b => (key a <= key b)%Z) l.
Proof.
  intros H. apply Sorted_StronglySorted in H; [|intros x y z; lia].
  induction l as [|a l IH]; [constructor|].
  cbn [map] in H. apply StronglySorted_inv in H as [H Ha].
  constructor; [apply IH, H|].
  rewrite Forall_map in Ha. exact Ha.
Qed.

(** C1: on sorted inputs [mergeSortedArrays] returns a sorted permutation
    of the concatenation of its inputs, and the merge is stable: whatever
    the elements carry besides the compared integer, the elements of one
    value come out with those of [nums1] first, then those of [nums2]. *)
Theorem mergeSortedArrays_sorted_perm_stable (nums1 nums2 : list Z) (fuel : nat) :
  Sorted Z.le nums1 -> Sorted Z.le nums2 ->
  (length nums1 + length nums2 <= fuel)%nat ->
  exists r,
    M02.mergeSortedArrays fuel nums1 nums2 = Some r /\
    StronglySorted Z.le r /\
    r ≡ₚ nums1 ++ nums2 /\
    forall (B : Type) (t1 t2 : list (Z * B)),
      map fst t1 = nums1 -> map fst t2 = nums2 ->
      exists rt,
        M02.merge_keyed fst fuel t1 t2 = Some rt /\
        map fst rt = r /\
        forall k : Z,
          filter (fun p => fst p = k) rt =
          filter (fun p => fst p = k) t1 ++ filter (fun p => fst p = k) t2.
Proof.
  intros S1 S2 Hfuel. exists (M02.merge_fun id nums1 nums2).
  split; [apply merge_keyed_fun; exact Hfuel|].
  split.
  { apply (merge_fun_sorted id); apply (sorted_keys id); rewrite map_id; assumption. }
  split; [apply merge_fun_perm|].
  intros B t1 t2 E1 E2. exists (M02.merge_fun fst t1 t2).
  split.
  { apply merge_keyed_fun. rewrite <- E1, <- E2, !length_map in Hfuel. exact Hfuel. }
  split; [rewrite merge_fun_keys, E1, E2; reflexivity|].
  intros k. apply merge_fun_stable. apply sorted_keys. rewrite E1. exact S1.
Qed.

Lemma mergeSortedArrays_sorted_perm_stable_witness :
  exists r, M02.mergeSortedArrays 5 [1; 3; 3]%Z [2; 3]%Z = Some r /\
            StronglySorted Z.le r /\ r ≡ₚ [1; 3; 3]%Z ++ [2; 3]%Z.
Proof.
  destruct (mergeSortedArrays_sorted_perm_stable [1; 3; 3]%Z [2; 3]%Z 5)
    as (r & Hr & Hs & Hp & _).
  - repeat constructor; lia.
  - repeat constructor; lia.
  - simpl. lia.
  - exists r. repeat split; assumption.
Defined.

(** ** Fibonacci *)

Section FibLoop.
Local Open Scope Z_scope.
Variable n : Z.
Hypothesis n_lo : 2 <= n.
Hypothesis n_hi : n < Int32.INT_MAX.

Definition fib_inv (s : fib_state) : Prop :=
  2 <= fib_i s <= n + 1 /\
  fib_a s = fib32 (Z.to_nat (fib_i s) - 2) /\
  fib_b s = fib32 (Z.to_nat (fib_i s) - 1).

Lemma fib_step s :
  fib_inv s -> fib_cond n s = true ->
  exists s', fib_body s = Some s' /\ fib_inv s' /\
    (Z.to_nat (n + 1 - fib_i s') < Z.to_nat (n + 1 - fib_i s))%nat.
Proof using n_hi.
  destruct s as [i a b]. unfold fib_inv, fib_cond, fib_body. simpl.
  intros (Hi & Ha & Hb) Hc%Z.leb_le.
  eexists; split; [reflexivity|]. simpl.
  assert (Ei : Int32.add i 1 = i + 1).
  { apply wrap_exact. unfold Int32.in_range, Int32.INT_MIN, Int32.INT_MAX in *. lia. }
  rewrite Ei. split; [|lia]. split; [lia|].
  replace (Z.to_nat (i + 1) - 2)%nat with (Z.to_nat i - 1)%nat by lia.
  split; [exact Hb|].
  replace (Z.to_nat (i + 1) - 1)%nat with (S (S (Z.to_nat i - 2))) by lia.
  rewrite Ha, Hb.
  replace (Z.to_nat i - 1)%nat with (S (Z.to_nat i - 2)) by lia.
  reflexivity.
Qed.

Lemma fib_loop_returns fuel :
  (Z.to_nat n <= fuel)%nat ->
  exists s, while (fib_cond n) fib_body fuel (FibState 2 0 1) = Some s /\
            fib_b s = fib32 (Z.to_nat n).
Proof using n_lo n_hi.
  intros Hfuel.
  destruct (while_rule _ _ fib_inv (fun s => Z.to_nat (n + 1 - fib_i s))
              fib_step fuel (FibState 2 0 1))
    as (s & Hs & (Hi & _ & Hb) & Hc).
  { unfold fib_inv. simpl. repeat split; lia. }
  { simpl. lia. }
  exists s. split; [exact Hs|].
  unfold fib_cond in Hc. apply Z.leb_gt in Hc.
  rewrite Hb. f_equal. lia.
Qed.
End FibLoop.

Lemma fib32_rec (k : nat) : fib32 (S (S k)) = Int32.add (fib32 k) (fib32 (S k)).
Proof. reflexivity. Qed.

Lemma E03_fibonacci_fib32 (fuel : nat) (n : Z) :
  (0 <= n < Int32.INT_MAX)%Z -> (Z.to_nat n <= fuel)%nat ->
  E03.fibonacci fuel n = Some (fib32 (Z.to_nat n)).
Proof.
  intros Hn Hfuel. unfold E03.fibonacci.
  destruct (Z.leb_spec n 0); [replace n with 0%Z by lia; reflexivity|].
  destruct (Z.eqb_spec n 1) as [->|]; [reflexivity|].
  destruct (fib_loop_returns n ltac:(lia) ltac:(lia) fuel Hfuel) as (s & -> & Hb).
  simpl. congruence.
Qed.

Lemma Template_fibonacci_fib32 (fuel : nat) (n : Z) :
  (0 <= n < Int32.INT_MAX)%Z -> (Z.to_nat n <= fuel)%nat ->
  Template.fibonacci fuel n = Some (fib32 (Z.to_nat n)).
Proof.
  intros Hn Hfuel. unfold Template.fibonacci.
  destruct (Z.eqb_spec n 0) as [->|]; [reflexivity|].
  destruct (Z.eqb_spec n 1) as [->|]; [reflexivity|].
  destruct (fib_loop_returns n ltac:(lia) ltac:(lia) fuel Hfuel) as (s & -> & Hb).
  simpl. congruence.
Qed.

(** The recursive variant returns the same numbers, on every [n >= 0]. *)
Lemma CppTemplate_fibonacci_fib32 (fuel : nat) (n : Z) :
  (0 <= n)%Z -> (Z.to_nat n <= S fuel)%nat ->
  CppTemplate.fibonacci fuel n = Some (Returned (fib32 (Z.to_nat n))).
Proof.
  revert n. induction fuel as [|fuel IH]; intros n Hn Hfuel.
  - assert (n = 0 \/ n = 1)%Z as [-> | ->] by lia; reflexivity.
  - cbn [CppTemplate.fibonacci].
    destruct (Z.ltb_spec n 0); [lia|].
    destruct (Z.eqb_spec n 0) as [->|]; [reflexivity|].
    destruct (Z.eqb_spec n 1) as [->|]; [reflexivity|].
    rewrite (IH (n - 1)%Z), (IH (n - 2)%Z) by lia.
    replace (Z.to_nat n) with (S (S (Z.to_nat (n - 2)))) by lia.
    replace (Z.to_nat (n - 1)) with (S (Z.to_nat (n - 2))) by lia.
    rewrite fib32_rec. unfold Int32.add. do 3 f_equal. lia.
Qed.

(** C2, as far as the code goes: for [0 <= n < INT_MAX] both iterative
    variants return, with [fibonacci(0) = 0], [fibonacci(1) = 1] and
    [fibonacci(n) = fibonacci(n-1) + fibonacci(n-2)] in [int] arithmetic
    from [n = 2] on. *)
Theorem fibonacci_recurrence (fuel : nat) (n : Z) :
  (0 <= n < Int32.INT_MAX)%Z -> (Z.to_nat n <= fuel)%nat ->
  (E03.fibonacci fuel 0 = Some 0%Z /\ E03.fibonacci fuel 1 = Some 1%Z /\
   ((2 <= n)%Z -> exists x y,
      E03.fibonacci fuel (n - 1) = Some x /\ E03.fibonacci fuel (n - 2) = Some y /\
      E03.fibonacci fuel n = Some (Int32.add x y))) /\
  (Template.fibonacci fuel 0 = Some 0%Z /\ Template.fibonacci fuel 1 = Some 1%Z /\
   ((2 <= n)%Z -> exists x y,
      Template.fibonacci fuel (n - 1) = Some x /\ Template.fibonacci fuel (n - 2) = Some y /\
      Template.fibonacci fuel n = Some (Int32.add x y))).
Proof.
  intros Hn Hfuel.
  assert (Hrec : (2 <= n)%Z ->
    fib32 (Z.to_nat n) = Int32.add (fib32 (Z.to_nat (n - 1))) (fib32 (Z.to_nat (n - 2)))).
  { intros H2.
    replace (Z.to_nat n) with (S (S (Z.to_nat (n - 2)))) by lia.
    replace (Z.to_nat (n - 1)) with (S (Z.to_nat (n - 2))) by lia.
    rewrite fib32_rec. unfold Int32.add. f_equal. lia. }
  split; (split; [reflexivity|]); (split; [reflexivity|]); intros H2;
    exists (fib32 (Z.to_nat (n - 1))), (fib32 (Z.to_nat (n - 2))).
  - rewrite !E03_fibonacci_fib32 by lia. rewrite Hrec by lia. auto.
  - rewrite !Template_fibonacci_fib32 by lia. rewrite Hrec by lia. auto.
Qed.

Lemma fibonacci_recurrence_witness :
  exists x y,
    E03.fibonacci 10 (10 - 1) = Some x /\ E03.fibonacci 10 (10 - 2) = Some y /\
    E03.fibonacci 10 10 = Some (Int32.add x y).
Proof.
  apply (fibonacci_recurrence 10 10).
  - unfold Int32.INT_MAX. lia.
  - vm_compute. lia.
  - lia.
Defined.

(** At [n = INT_MAX] the test [i <= n] of the iterative loop holds for
    every [int] value of [i]: no amount of fuel makes the call return. *)
Lemma fibonacci_int_max_no_return :
  ~ exists fuel v, E03.fibonacci fuel Int32.INT_MAX = Some v.
Proof.
  intros (fuel & v & H). unfold E03.fibonacci in H.
  change (Int32.INT_MAX <=? 0)%Z with false in H.
  change (Int32.INT_MAX =? 1)%Z with false in H.
  rewrite (while_stuck _ _ (fun s => Int32.in_range (fib_i s))) in H; [discriminate| |].
  - intros [i a b] Hi. simpl in Hi. split.
    + unfold fib_cond. simpl. apply Z.leb_le. apply Hi.
    + unfold fib_body. simpl. intros s' [= <-]. simpl. apply wrap_in_range.
  - simpl. unfold Int32.in_range, Int32.INT_MIN, Int32.INT_MAX. lia.
Qed.

(** C3: what the three variants do on a negative input.  The variant of
    [templates/template.cpp] returns [1]: neither [0] nor an error. *)
Theorem fibonacci_negative (fuel : nat) (n : Z) :
  (n < 0)%Z ->
  E03.fibonacci fuel n = Some 0%Z /\
  CppTemplate.fibonacci fuel n = Some Thrown /\
  Template.fibonacci fuel n = Some 1%Z.
Proof.
  intros Hn. split; [|split].
  - unfold E03.fibonacci. destruct (Z.leb_spec n 0); [reflexivity | lia].
  - destruct fuel; simpl; destruct (Z.ltb_spec n 0); (reflexivity || lia).
  - unfold Template.fibonacci.
    destruct (Z.eqb_spec n 0); [lia|]. destruct (Z.eqb_spec n 1); [lia|].
    assert (Hc : fib_cond n (FibState 2 0 1) = false).
    { unfold fib_cond. simpl. apply Z.leb_gt. lia. }
    destruct fuel; simpl; rewrite Hc; reflexivity.
Qed.

Lemma fibonacci_negative_witness :
  E03.fibonacci 0 (-1) = Some 0%Z /\
  CppTemplate.fibonacci 0 (-1) = Some Thrown /\
  Template.fibonacci 0 (-1) = Some 1%Z.
Proof. apply (fibonacci_negative 0 (-1)). lia. Defined.

(** ** Exercise 06: reverseInt *)

Section Digits.
Local Open Scope Z_scope.

(** The value of digits given most significant first, from [acc]. *)
Definition horner (ds : list Z) (acc : Z) : Z :=
  fold_left (fun a d => a * 10 + d) ds acc.

(** Digits in range, the most significant one (the last) not [0]. *)
Definition canonical (ds : list Z) : Prop :=
  Forall (fun d => 0 <= d <= 9) ds /\ last ds <> Some 0.

Lemma value_app (l1 l2 : list Z) :
  E06.value (l1 ++ l2) = E06.value l1 + 10 ^ Z.of_nat (length l1) * E06.value l2.
Proof.
  induction l1 as [|d l1 IH]; [simpl; lia|].
  cbn [app E06.value length]. rewrite IH, Nat2Z.inj_succ, Z.pow_succ_r by lia. lia.
Qed.

Lemma horner_value (ds : list Z) (acc : Z) :
  horner ds acc = E06.value (rev ds) + acc * 10 ^ Z.of_nat (length ds).
Proof.
  revert acc. induction ds as [|d ds IH]; intros acc; [simpl; lia|].
  unfold horner in *. cbn [fold_left rev length]. rewrite IH, value_app.
  rewrite length_rev, Nat2Z.inj_succ, Z.pow_succ_r by lia. simpl. lia.
Qed.

Lemma value_nonneg (ds : list Z) :
  Forall (fun d => 0 <= d <= 9) ds -> 0 <= E06.value ds.
Proof. induction 1; simpl; lia. Qed.

Lemma value_pos (ds : list Z) : canonical ds -> ds <> [] -> 0 < E06.value ds.
Proof.
  intros [Hd Hl]. induction Hd as [|d ds Hd Hds IH]; [congruence|]. intros _.
  destruct ds as [|d' ds'].
  - simpl in *. assert (d <> 0) by congruence. lia.
  - assert (0 < E06.value (d' :: ds')) by (apply IH; [exact Hl | discriminate]).
    cbn [E06.value] in *. lia.
Qed.

Lemma digits_length (fuel : nat) (n : Z) : (length (E06.digits fuel n) <= fuel)%nat.
Proof.
  revert n. induction fuel as [|fuel IH]; intros n; simpl; [lia|].
  destruct (n >? 0); simpl; [|lia]. specialize (IH (n ÷ 10)). lia.
Qed.

Lemma digits_nonpos (fuel : nat) (n : Z) : n <= 0 -> E06.digits fuel n = [].
Proof.
  intros Hn. destruct fuel; simpl; [reflexivity|].
  destruct (Z.gtb_spec n 0); [lia | reflexivity].
Qed.

Lemma quot10_bound (n p : Z) : 0 < n < 10 * p -> 0 <= n ÷ 10 < p /\ 0 <= Z.rem n 10 <= 9.
Proof.
  intros Hn. pose proof (Z.quot_rem' n 10) as E.
  pose proof (Z.rem_bound_pos n 10 ltac:(lia) ltac:(lia)).
  pose proof (Z.quot_pos n 10 ltac:(lia) ltac:(lia)). lia.
Qed.

Lemma value_digits (fuel : nat) (n : Z) :
  0 <= n < 10 ^ Z.of_nat fuel -> E06.value (E06.digits fuel n) = n.
Proof.
  revert n. induction fuel as [|fuel IH]; intros n Hn.
  - simpl in *. lia.
  - rewrite Nat2Z.inj_succ, Z.pow_succ_r in Hn by lia. simpl.
    destruct (Z.gtb_spec n 0); [|simpl; lia].
    destruct (quot10_bound n (10 ^ Z.of_nat fuel)) as [Hq Hr]; [lia|].
    cbn [E06.value]. rewrite IH by lia.
    pose proof (Z.quot_rem' n 10). lia.
Qed.

Lemma digits_canonical (fuel : nat) (n : Z) :
  0 <= n < 10 ^ Z.of_nat fuel -> canonical (E06.digits fuel n).
Proof.
  revert n. induction fuel as [|fuel IH]; intros n Hn.
  - split; [constructor | discriminate].
  - rewrite Nat2Z.inj_succ, Z.pow_succ_r in Hn by lia. simpl.
    destruct (Z.gtb_spec n 0); [|split; [constructor | discriminate]].
    destruct (quot10_bound n (10 ^ Z.of_nat fuel)) as [Hq Hr]; [lia|].
    destruct (IH (n ÷ 10) Hq) as [Hd Hl].
    split; [constructor; assumption|].
    destruct (E06.digits fuel (n ÷ 10)) as [|d' ds'] eqn:E.
    + simpl. intros [= E0].
      assert (Hv : E06.value (E06.digits fuel (n ÷ 10)) = n ÷ 10)
        by (apply value_digits; exact Hq).
      rewrite E in Hv. simpl in Hv.
      pose proof (Z.quot_rem' n 10). lia.
    + rewrite last_cons_cons. exact Hl.
Qed.

Lemma digits_value (fuel : nat) (ds : list Z) :
  canonical ds -> (length ds <= fuel)%nat -> E06.digits fuel (E06.value ds) = ds.
Proof.
  revert ds. induction fuel as [|fuel IH]; intros ds Hc Hlen.
  - destruct ds; [reflexivity | simpl in Hlen; lia].
  - destruct ds as [|d ds]; [reflexivity|].
    pose proof (value_pos _ Hc ltac:(discriminate)) as Hpos.
    destruct Hc as [Hd Hl]. apply Forall_cons in Hd as [Hd Hds].
    pose proof (value_nonneg ds Hds) as Hnn.
    cbn [E06.value] in *. simpl.
    destruct (Z.gtb_spec (d + 10 * E06.value ds) 0); [|lia].
    assert (Er : Z.rem (d + 10 * E06.value ds) 10 = d).
    { rewrite Z.rem_mod_nonneg by lia.
      replace (d + 10 * E06.value ds) with (d + E06.value ds * 10) by lia.
      rewrite Z.mod_add by lia. apply Z.mod_small. lia. }
    assert (Eq : (d + 10 * E06.value ds) ÷ 10 = E06.value ds).
    { pose proof (Z.quot_rem' (d + 10 * E06.value ds) 10). lia. }
    rewrite Er, Eq. f_equal. apply IH; [|simpl in Hlen; lia].
    split; [exact Hds|].
    destruct ds as [|d' ds']; [discriminate|]. rewrite last_cons_cons in Hl. exact Hl.
Qed.
End Digits.

Section ReverseInt.
Local Open Scope Z_scope.

(** The number read backwards. *)
Definition revnum (fuel : nat) (n : Z) : Z := E06.value (rev (E06.digits fuel n)).

Lemma reverse_loop (fuel : nat) (n r : Z) (ok : bool) :
  n < 10 ^ Z.of_nat fuel ->
  exists s, while E06.cond E06.body fuel (E06.State n r ok) = Some s /\
            (E06.exact s = true ->
             ok = true /\ E06.st_rev s = horner (E06.digits fuel n) r).
Proof.
  revert n r ok. induction fuel as [|fuel IH]; intros n r ok Hn.
  - simpl in Hn. simpl. unfold E06.cond. simpl.
    destruct (Z.gtb_spec n 0); [lia|]. eexists; split; [reflexivity|]. simpl. auto.
  - rewrite Nat2Z.inj_succ, Z.pow_succ_r in Hn by lia.
    cbn [while E06.digits]. unfold E06.cond at 1. cbn [E06.st_n].
    destruct (Z.gtb_spec n 0) as [Hpos|Hneg].
    + destruct (quot10_bound n (10 ^ Z.of_nat fuel)) as [Hq Hr]; [lia|].
      unfold E06.body. cbn [E06.st_n E06.st_rev E06.exact].
      edestruct IH as (s & Hs & Hex); [apply Hq|]. rewrite Hs.
      exists s. split; [reflexivity|]. intros He.
      destruct (Hex He) as [Hok Hrev].
      apply andb_true_iff in Hok as [Hok H2]. apply andb_true_iff in Hok as [Hok H1].
      apply in_rangeb_spec in H1, H2.
      split; [exact Hok|]. rewrite Hrev. unfold horner. cbn [fold_left].
      f_equal. unfold Int32.add. rewrite wrap_exact by exact H2.
      unfold Int32.mul. rewrite wrap_exact by exact H1. reflexivity.
    + eexists; split; [reflexivity|]. simpl. auto.
Qed.

Lemma int_below_pow10 (fuel : nat) (z : Z) :
  (10 <= fuel)%nat -> Int32.in_range z -> z < 10 ^ Z.of_nat fuel.
Proof.
  intros Hf Hz. assert (10 ^ 10 <= 10 ^ Z.of_nat fuel) by (apply Z.pow_le_mono_r; lia).
  unfold Int32.in_range, Int32.INT_MAX in Hz. lia.
Qed.

(** The call returns; when no operation overflowed the result is the
    argument read backwards, with its sign. *)
Lemma reverseInt_run_spec (fuel : nat) (x : Z) :
  (10 <= fuel)%nat -> Int32.in_range x ->
  exists v ok,
    E06.reverseInt_run fuel x = Some (v, ok) /\ Int32.in_range v /\
    (ok = true ->
     if x <? 0 then Int32.in_range (- x) /\ v = - revnum fuel (- x)
     else v = revnum fuel x).
Proof.
  intros Hf Hx. unfold E06.reverseInt_run.
  set (n' := if x <? 0 then Int32.neg x else x).
  assert (Hn' : Int32.in_range n').
  { subst n'. destruct (x <? 0); [apply wrap_in_range | exact Hx]. }
  edestruct (reverse_loop fuel n' 0) as (s & -> & Hs);
    [apply int_below_pow10; [exact Hf | exact Hn'] |].
  simpl. eexists _, _. split; [reflexivity|]. split; [apply wrap_in_range|].
  intros Hok. apply andb_true_iff in Hok as [He Hr]. apply in_rangeb_spec in Hr.
  destruct (Hs He) as [Hok Hrev]. rewrite horner_value in Hrev.
  unfold Int32.mul. rewrite wrap_exact by exact Hr. subst n'.
  destruct (x <? 0).
  - apply in_rangeb_spec in Hok. unfold Int32.neg in Hrev.
    rewrite wrap_exact in Hrev by exact Hok. split; [exact Hok|].
    unfold revnum. lia.
  - unfold revnum. lia.
Qed.

Lemma revnum_involutive (fuel : nat) (n : Z) :
  0 < n < 10 ^ Z.of_nat fuel -> Z.rem n 10 <> 0 ->
  0 < revnum fuel n /\ revnum fuel (revnum fuel n) = n.
Proof.
  intros Hn Hr. unfold revnum.
  pose proof (digits_canonical fuel n ltac:(lia)) as [Hd Hl].
  pose proof (value_digits fuel n ltac:(lia)) as Hv.
  pose proof (digits_length fuel n) as Hlen.
  assert (Hc : canonical (rev (E06.digits fuel n)) /\ rev (E06.digits fuel n) <> []).
  { destruct fuel as [|fuel]; [simpl in Hn; lia|]. simpl in *.
    destruct (Z.gtb_spec n 0); [|lia]. cbn [rev]. split.
    - split.
      + apply Forall_app. split; [|repeat constructor; apply Forall_cons in Hd; tauto].
        apply Forall_rev. apply Forall_cons in Hd. tauto.
      + rewrite last_snoc. congruence.
    - intros E. apply app_eq_nil in E as [_ E]. discriminate. }
  destruct Hc as [Hc Hne]. split; [apply value_pos; assumption|].
  rewrite digits_value; [|exact Hc | rewrite length_rev; exact Hlen].
  rewrite rev_involutive. exact Hv.
Qed.
End ReverseInt.

(** C4: reversing twice gives the number back when it does not end in [0]
    and neither call overflows; [120] loses its trailing zero. *)
Theorem reverseInt_round_trip (fuel : nat) (x : Z) :
  (10 <= fuel)%nat -> Int32.in_range x ->
  (x = 0 \/ Z.rem x 10 <> 0)%Z ->
  E06.no_overflow fuel x ->
  (exists y, E06.reverseInt fuel x = Some y /\
             (E06.no_overflow fuel y -> E06.reverseInt fuel y = Some x)) /\
  E06.reverseInt fuel 120 = Some 21%Z /\
  E06.reverseInt fuel 21 = Some 12%Z.
Proof.
  intros Hf Hx Hz Hno. split.
  - unfold E06.no_overflow, E06.reverseInt in *.
    destruct (reverseInt_run_spec fuel x Hf Hx) as (y & ok & Hrun & Hy & Hval).
    rewrite Hrun in *. simpl in Hno. injection Hno as ->. specialize (Hval eq_refl).
    exists y. split; [reflexivity|].
    destruct (reverseInt_run_spec fuel y Hf Hy) as (z & ok' & Hrun' & _ & Hval').
    rewrite Hrun'. simpl. intros [= ->]. specialize (Hval' eq_refl). f_equal.
    destruct (Z.ltb_spec x 0) as [Hneg|Hpos].
    + destruct Hval as [Hr ->]. destruct Hz as [->|Hz]; [lia|].
      destruct (revnum_involutive fuel (- x)) as [Hp Hinv].
      { split; [lia|]. apply int_below_pow10; assumption. }
      { rewrite Z.rem_opp_l by lia. lia. }
      destruct (Z.ltb_spec (- revnum fuel (- x)) 0); [|lia].
      destruct Hval' as [_ ->]. rewrite Z.opp_involutive, Hinv. lia.
    + subst y. destruct (Z.eq_dec x 0%Z) as [->|Hx0].
      * assert (E : revnum fuel 0 = 0%Z) by (unfold revnum; rewrite digits_nonpos by lia; reflexivity).
        rewrite E in *. simpl in Hval'. rewrite Hval'. exact E.
      * destruct Hz as [->|Hz]; [lia|].
        destruct (revnum_involutive fuel x) as [Hp Hinv]; [|exact Hz|].
        { split; [lia|]. apply int_below_pow10; assumption. }
        destruct (Z.ltb_spec (revnum fuel x) 0); [lia|].
        rewrite Hval'. exact Hinv.
  - unfold E06.reverseInt, E06.reverseInt_run. simpl.
    split.
    + rewrite (while_fuel_mono _ _ 10 fuel _ (E06.State 0 21 true)); [reflexivity | reflexivity | exact Hf].
    + rewrite (while_fuel_mono _ _ 10 fuel _ (E06.State 0 12 true)); [reflexivity | reflexivity | exact Hf].
Qed.

Lemma reverseInt_round_trip_witness :
  exists y, E06.reverseInt 10 (-123) = Some y /\
            (E06.no_overflow 10 y -> E06.reverseInt 10 y = Some (-123)%Z).
Proof.
  apply (reverseInt_round_trip 10 (-123)).
  - lia.
  - unfold Int32.in_range, Int32.INT_MIN, Int32.INT_MAX. lia.
  - right. vm_compute. discriminate.
  - reflexivity.
Defined.

(** ** For loops over a range *)

Lemma foldl_seq_inv {St : Type} (f : St -> nat -> St) (P : nat -> St -> Prop)
    (a n : nat) (s : St) :
  P a s ->
  (forall k s, a <= k < a + n -> P k s -> P (S k) (f s k)) ->
  P (a + n) (foldl f s (seq a n)).
Proof.
  revert a s. induction n as [|n IH]; intros a s H0 Hstep; simpl.
  - rewrite Nat.add_0_r. exact H0.
  - replace (a + S n) with (S a + n) by lia. apply IH.
    + apply Hstep; [lia | exact H0].
    + intros k s' Hk. apply Hstep. lia.
Qed.

(** ** H06: minDistance *)

Section EditDistance.
Local Open Scope Z_scope.

(** A table of [m + 1] rows of [n + 1] cells. *)
Definition table_shape (m n : nat) (dp : list (list Z)) : Prop :=
  length dp = S m /\ Forall (fun row => length row = S n) dp.

Lemma table_shape_replicate (m n : nat) :
  table_shape m n (replicate (S m) (replicate (S n) 0)).
Proof.
  split; [apply length_replicate|].
  apply Forall_replicate. apply length_replicate.
Qed.

Lemma table_shape_wr (m n : nat) dp i j v :
  table_shape m n dp -> table_shape m n (H06.wr dp i j v).
Proof.
  intros [Hl Hr]. unfold H06.wr. destruct (dp !! i) as [row|] eqn:E; [|split; assumption].
  split; [rewrite length_insert; exact Hl|].
  apply Forall_insert; [exact Hr|]. rewrite length_insert.
  eapply (proj1 (Forall_lookup _ _) Hr). exact E.
Qed.

Lemma rd_wr_eq (m n : nat) dp i j v :
  table_shape m n dp -> (i <= m)%nat -> (j <= n)%nat ->
  H06.rd (H06.wr dp i j v) i j = v.
Proof.
  intros [Hl Hr] Hi Hj. unfold H06.wr, H06.rd.
  destruct (lookup_lt_is_Some_2 dp i ltac:(lia)) as [row E]. rewrite E.
  rewrite list_lookup_insert_eq by lia. simpl.
  assert (length row = S n) by (eapply (proj1 (Forall_lookup _ _) Hr); exact E).
  rewrite list_lookup_insert_eq by lia. reflexivity.
Qed.

Lemma rd_wr_ne dp i j v i' j' :
  (i, j) <> (i', j') -> H06.rd (H06.wr dp i j v) i' j' = H06.rd dp i' j'.
Proof.
  intros Hne. unfold H06.wr, H06.rd.
  destruct (dp !! i) as [row|] eqn:E; [|reflexivity].
  destruct (decide (i = i')) as [<-|Hi].
  - rewrite E. destruct (decide (i < length dp)%nat).
    + rewrite list_lookup_insert_eq by assumption. simpl.
      rewrite list_lookup_insert_ne by congruence. reflexivity.
    + apply lookup_lt_Some in E. lia.
  - rewrite list_lookup_insert_ne by assumption. reflexivity.
Qed.

Lemma init_column_spec (m n : nat) dp :
  table_shape m n dp ->
  table_shape m n (H06.init_column m dp) /\ H06.rd (H06.init_column m dp) 0 0 = 0.
Proof.
  intros Hs. unfold H06.init_column.
  pose proof (foldl_seq_inv (fun dp i => H06.wr dp i 0 (Z.of_nat i))
    (fun k dp => table_shape m n dp /\ ((0 < k)%nat -> H06.rd dp 0 0 = 0))
    0 (S m) dp) as H.
  destruct H as [Hs' H0].
  - split; [exact Hs | lia].
  - intros k dp' Hk [Hs' H0]. split; [apply table_shape_wr; exact Hs'|]. intros _.
    destruct k as [|k].
    + rewrite (rd_wr_eq m n); [reflexivity | exact Hs' | lia | lia].
    + rewrite rd_wr_ne by congruence. apply H0. lia.
  - split; [exact Hs'|]. apply H0. simpl. lia.
Qed.

Lemma init_row_spec (m n : nat) dp :
  table_shape m n dp ->
  table_shape m n (H06.init_row n dp) /\
  forall j, (j <= n)%nat -> H06.rd (H06.init_row n dp) 0 j = Z.of_nat j.
Proof.
  intros Hs. unfold H06.init_row.
  pose proof (foldl_seq_inv (fun dp j => H06.wr dp 0 j (Z.of_nat j))
    (fun k dp => table_shape m n dp /\
                 forall j, (j < k)%nat -> H06.rd dp 0 j = Z.of_nat j) 0 (S n) dp) as H.
  destruct H as [Hs' Hrow].
  - split; [exact Hs | lia].
  - intros k dp' Hk [Hs' Hrow]. split; [apply table_shape_wr; exact Hs'|].
    intros j Hj. destruct (decide (j = k)) as [->|Hne].
    + rewrite (rd_wr_eq m n); [reflexivity | exact Hs' | lia | lia].
    + rewrite rd_wr_ne by congruence. apply Hrow. lia.
  - split; [exact Hs'|]. intros j Hj. apply Hrow. simpl. lia.
Qed.

(** On equal words the diagonal of the table is filled with zeros. *)
Lemma fill_diagonal (w : list ascii) (m : nat) dp :
  table_shape m m dp -> H06.rd dp 0 0 = 0 ->
  H06.rd (H06.fill w w m m dp) m m = 0.
Proof.
  intros Hs H0. unfold H06.fill.
  pose proof (foldl_seq_inv (H06.fill_row w w m)
    (fun i dp => table_shape m m dp /\
                 forall k, (k < i)%nat -> H06.rd dp k k = 0) 1 m dp) as H.
  destruct H as [_ Hdiag].
  - split; [exact Hs|]. intros k Hk. replace k with 0%nat by lia. exact H0.
  - intros i dp' Hi [Hs' Hd]. unfold H06.fill_row.
    pose proof (foldl_seq_inv (H06.cell w w i)
      (fun j dp => table_shape m m dp /\
                   (forall k, (k < i)%nat -> H06.rd dp k k = 0) /\
                   ((i < j)%nat -> H06.rd dp i i = 0)) 1 m dp') as H.
    destruct H as (Hs'' & Hd' & Hii).
    + split; [exact Hs'|]. split; [exact Hd | lia].
    + intros j dp'' Hj (Hs'' & Hd' & Hii). unfold H06.cell.
      destruct (decide (j = i)) as [->|Hne].
      * rewrite bool_decide_eq_true_2 by reflexivity.
        split; [apply table_shape_wr; exact Hs''|]. split.
        -- intros k Hk. rewrite rd_wr_ne by (intros [=]; lia). apply Hd'. exact Hk.
        -- intros _. rewrite (rd_wr_eq m m); [apply Hd'; lia | exact Hs'' | lia | lia].
      * assert (Hother : forall v k, (k <= i)%nat ->
                  H06.rd (H06.wr dp'' i j v) k k = H06.rd dp'' k k).
        { intros v k Hk. apply rd_wr_ne. intros [=]. lia. }
        case_bool_decide; (split; [apply table_shape_wr; exact Hs''|]);
          (split; [intros k Hk; rewrite Hother by lia; apply Hd'; exact Hk|]);
          intros Hlt; rewrite Hother by lia; apply Hii; lia.
    + split; [exact Hs''|]. intros k Hk.
      destruct (decide (k = i)) as [->|Hne]; [apply Hii; lia | apply Hd'; lia].
  - apply Hdiag. lia.
Qed.

Lemma length_list_ascii_of_string (s : string) :
  length (list_ascii_of_string s) = String.length s.
Proof. induction s as [|c s IH]; simpl; [reflexivity | rewrite IH; reflexivity]. Qed.
End EditDistance.

(** ** Vectors *)

Section VecFacts.
Context {A : Type}.
Local Open Scope Z_scope.

Lemma get_in_bounds (v : list A) (i : Z) :
  0 <= i < Z.of_nat (length v) -> exists x, Vec.get v i = Some x.
Proof.
  intros Hi. unfold Vec.get. destruct (Z.ltb_spec i 0); [lia|].
  apply lookup_lt_is_Some_2. lia.
Qed.

Lemma get_Some_bounds (v : list A) (i : Z) (x : A) :
  Vec.get v i = Some x -> 0 <= i < Z.of_nat (length v).
Proof.
  unfold Vec.get. destruct (Z.ltb_spec i 0); [discriminate|].
  intros Hlk%lookup_lt_Some. lia.
Qed.

Lemma set_in_bounds (v : list A) (i : Z) (x : A) :
  0 <= i < Z.of_nat (length v) -> Vec.set v i x = Some (<[Z.to_nat i := x]> v).
Proof.
  intros Hi. unfold Vec.set.
  destruct (Z.leb_spec 0 i); [|lia]. destruct (Z.ltb_spec i (Z.of_nat (length v))); [|lia].
  reflexivity.
Qed.

Lemma get_insert_eq (v : list A) (i : Z) (x : A) :
  0 <= i < Z.of_nat (length v) -> Vec.get (<[Z.to_nat i := x]> v) i = Some x.
Proof.
  intros Hi. unfold Vec.get. destruct (Z.ltb_spec i 0); [lia|].
  apply list_lookup_insert_eq. lia.
Qed.

Lemma get_insert_ne (v : list A) (i j : Z) (x : A) :
  0 <= i -> i <> j -> Vec.get (<[Z.to_nat i := x]> v) j = Vec.get v j.
Proof.
  intros Hi Hne. unfold Vec.get. destruct (Z.ltb_spec j 0); [reflexivity|].
  apply list_lookup_insert_ne. lia.
Qed.
End VecFacts.

(** ** H01: dijkstra *)

Section Dijkstra.
Local Open Scope Z_scope.
Variable graph : list (list (Z * Z)).
Variable start : Z.
Hypothesis graph_wf : H01.well_formed graph.

Local Abbreviation n := (Z.of_nat (length graph)).
Local Abbreviation reach := (H01.reachable graph start).

(** The distance of every node above [INT_MIN], summed up. *)
Fixpoint weight (dist : list Z) : nat :=
  match dist with
  | [] => 0
  | d :: dist' => Z.to_nat (d - Int32.INT_MIN) + weight dist'
  end.

Definition dij_inv (s : H01.state) : Prop :=
  length (H01.dist s) = length graph /\
  Forall Int32.in_range (H01.dist s) /\
  (forall c u, (c, u) ∈ H01.pq s -> 0 <= u < n /\ reach u) /\
  (forall v d, Vec.get (H01.dist s) v = Some d -> d <> Int32.INT_MAX -> reach v).

(** Every push comes with a distance that went down. *)
Definition dij_mu (s : H01.state) : nat :=
  (2 * weight (H01.dist s) + length (H01.pq s))%nat.

Lemma weight_insert_lt (dist : list Z) (i : nat) (x old : Z) :
  dist !! i = Some old -> x < old -> Int32.in_range x ->
  (weight (<[i := x]> dist) < weight dist)%nat.
Proof.
  revert i. induction dist as [|d dist IH]; intros i Hi Hlt Hx; [discriminate|].
  destruct i as [|i]; simpl in *.
  - injection Hi as ->. unfold Int32.in_range in Hx. lia.
  - specialize (IH i Hi Hlt Hx). lia.
Qed.

Lemma elem_of_pq_push (p q : Z * Z) (pq : list (Z * Z)) :
  q ∈ H01.pq_push p pq <-> q = p \/ q ∈ pq.
Proof.
  induction pq as [|r pq IH]; simpl.
  - rewrite list_elem_of_singleton, elem_of_nil. tauto.
  - destruct (H01.pair_le p r); rewrite !elem_of_cons; [tauto|].
    rewrite IH. tauto.
Qed.

Lemma length_pq_push (p : Z * Z) (pq : list (Z * Z)) :
  length (H01.pq_push p pq) = S (length pq).
Proof.
  induction pq as [|r pq IH]; simpl; [reflexivity|].
  destruct (H01.pair_le p r); simpl; [reflexivity | rewrite IH; reflexivity].
Qed.

Lemma relax_spec (u v w : Z) (s : H01.state) :
  dij_inv s -> 0 <= u < n -> 0 <= v < n -> reach v ->
  exists s', H01.relax u s (v, w) = Some s' /\ dij_inv s' /\ (dij_mu s' <= dij_mu s)%nat.
Proof using Type.
  intros (Hlen & Hrange & Hpq & Hdist) Hu Hv Hreach. unfold H01.relax.
  destruct (get_in_bounds (H01.dist s) u) as [du Edu]; [lia|]. rewrite Edu.
  destruct (get_in_bounds (H01.dist s) v) as [dv Edv]; [lia|]. rewrite Edv.
  simpl. destruct (Z.ltb_spec (Int32.add du w) dv) as [Hlt|Hge].
  - rewrite set_in_bounds by lia. simpl. eexists; split; [reflexivity|].
    split; [split; [|split; [|split]]|]; simpl.
    + rewrite length_insert. exact Hlen.
    + apply Forall_insert; [exact Hrange | apply wrap_in_range].
    + intros c u' Hin.
      apply elem_of_pq_push in Hin as [[= -> ->] | Hin]; [tauto | apply (Hpq c u' Hin)].
    + intros v' d Hget Hd. destruct (Z.eq_dec v v') as [<-|Hne]; [exact Hreach|].
      rewrite get_insert_ne in Hget by lia. eapply Hdist; eassumption.
    + unfold dij_mu. simpl. rewrite length_pq_push.
      assert (weight (<[Z.to_nat v := Int32.add du w]> (H01.dist s))
              < weight (H01.dist s))%nat; [|lia].
      apply (weight_insert_lt _ _ _ dv); [|exact Hlt | apply wrap_in_range].
      unfold Vec.get in Edv. destruct (Z.ltb_spec v 0); [lia | exact Edv].
  - eexists; split; [reflexivity|]. split; [|lia].
    split; [|split; [|split]]; assumption.
Qed.

Lemma relax_all_spec (u : Z) (edges : list (Z * Z)) (s : H01.state) :
  dij_inv s -> 0 <= u < n ->
  (forall v w, (v, w) ∈ edges -> 0 <= v < n /\ reach v) ->
  exists s', H01.relax_all u s edges = Some s' /\ dij_inv s' /\
             (dij_mu s' <= dij_mu s)%nat.
Proof using Type.
  revert s. induction edges as [|[v w] edges IH]; intros s Hinv Hu Hedges;
    cbn [H01.relax_all].
  - eexists; split; [reflexivity|]. split; [exact Hinv | lia].
  - destruct (Hedges v w ltac:(left)) as [Hv Hreach].
    destruct (relax_spec u v w s Hinv Hu Hv Hreach) as (s1 & -> & Hinv1 & Hmu1).
    simpl. destruct (IH s1 Hinv1 Hu) as (s2 & E2 & Hinv2 & Hmu2).
    { intros v' w' Hin. apply (Hedges v' w'). right. exact Hin. }
    exists s2. split; [exact E2|]. split; [exact Hinv2 | lia].
Qed.

Lemma body_spec (s : H01.state) :
  dij_inv s -> H01.cond s = true ->
  exists s', H01.body graph s = Some s' /\ dij_inv s' /\ (dij_mu s' < dij_mu s)%nat.
Proof using graph_wf.
  intros Hinv Hc. pose proof Hinv as (Hlen & Hrange & Hpq & Hdist).
  unfold H01.cond in Hc. unfold H01.body.
  destruct s as [dist pq]. simpl in *.
  destruct pq as [|[cost u] rest]; [discriminate|].
  destruct (Hpq cost u ltac:(left)) as [Hu Hreach].
  destruct (get_in_bounds dist u) as [du Edu]; [lia|]. rewrite Edu. simpl.
  assert (Hrest : dij_inv (H01.State dist rest)).
  { split; [|split; [|split]]; simpl; try assumption.
    intros c u' Hin. apply (Hpq c u'). right. exact Hin. }
  destruct (cost >? du).
  - eexists; split; [reflexivity|]. split; [exact Hrest|].
    unfold dij_mu. simpl. lia.
  - destruct (get_in_bounds graph u) as [edges Eedges]; [lia|]. rewrite Eedges. simpl.
    destruct (relax_all_spec u edges (H01.State dist rest) Hrest Hu)
      as (s' & E & Hinv' & Hmu).
    { intros v w Hin. split.
      - unfold Vec.get in Eedges. destruct (Z.ltb_spec u 0); [lia|].
        unfold H01.well_formed in graph_wf.
        rewrite Forall_lookup in graph_wf. specialize (graph_wf _ _ Eedges).
        rewrite Forall_forall in graph_wf. apply (graph_wf (v, w) Hin).
      - eapply H01.reach_edge; eassumption. }
    exists s'. split; [exact E|]. split; [exact Hinv'|].
    unfold dij_mu in *. simpl in *. lia.
Qed.

(** The call returns and reports [INT_MAX] for every node that cannot be
    reached. *)
Lemma dijkstra_returns :
  0 <= start < n ->
  exists fuel0, forall fuel, (fuel0 <= fuel)%nat ->
  exists dist,
    H01.dijkstra fuel graph start = Some dist /\
    length dist = length graph /\
    forall v, 0 <= v < n -> ~ reach v -> Vec.get dist v = Some Int32.INT_MAX.
Proof using graph_wf.
  intros Hstart. unfold H01.dijkstra.
  rewrite set_in_bounds by (rewrite length_replicate; lia). simpl.
  set (s0 := H01.State _ _).
  assert (H0 : dij_inv s0).
  { subst s0. split; [|split; [|split]]; simpl.
    - rewrite length_insert, length_replicate. reflexivity.
    - apply Forall_insert.
      + apply Forall_replicate. unfold Int32.in_range, Int32.INT_MIN, Int32.INT_MAX. lia.
      + unfold Int32.in_range, Int32.INT_MIN, Int32.INT_MAX. lia.
    - intros c u Hin. apply list_elem_of_singleton in Hin as [= -> ->].
      split; [lia | constructor].
    - intros v d Hget Hd. destruct (Z.eq_dec start v) as [<-|Hne]; [constructor|].
      rewrite get_insert_ne in Hget by lia.
      unfold Vec.get in Hget. destruct (v <? 0); [discriminate|].
      apply lookup_replicate in Hget as [-> _]. congruence. }
  exists (dij_mu s0). intros fuel Hfuel.
  destruct (while_rule _ _ dij_inv dij_mu body_spec fuel s0 H0 Hfuel)
    as (s & -> & (Hlen & _ & _ & Hdist) & _).
  simpl. exists (H01.dist s). split; [reflexivity|]. split; [exact Hlen|].
  intros v Hv Hnr. destruct (get_in_bounds (H01.dist s) v) as [d Ed]; [lia|].
  rewrite Ed. f_equal. destruct (Z.eq_dec d Int32.INT_MAX) as [->|Hne]; [reflexivity|].
  exfalso. apply Hnr. eapply Hdist; eassumption.
Qed.
End Dijkstra.



(** ** M06: removeDuplicates *)

Section RemoveDuplicates.
Local Open Scope nat_scope.

Lemma uniq_snoc (l : list Z) (x y : Z) :
  last l = Some y ->
  M06.uniq (l ++ [x]) = if bool_decide (x ≠ y) then M06.uniq l ++ [x] else M06.uniq l.
Proof.
  induction l as [|a l IH]; [discriminate|]. intros Hl.
  destruct l as [|b l].
  - simpl in Hl. injection Hl as ->. simpl.
    repeat case_bool_decide; congruence.
  - rewrite last_cons_cons in Hl. specialize (IH Hl).
    change ((a :: b :: l) ++ [x]) with (a :: (b :: l) ++ [x]).
    change (M06.uniq (a :: (b :: l) ++ [x]))
      with (if bool_decide (a = b) then M06.uniq ((b :: l) ++ [x])
            else a :: M06.uniq ((b :: l) ++ [x])).
    change (M06.uniq (a :: b :: l))
      with (if bool_decide (a = b) then M06.uniq (b :: l) else a :: M06.uniq (b :: l)).
    rewrite IH. repeat case_bool_decide; reflexivity.
Qed.

Lemma elem_of_uniq (l : list Z) (x : Z) : x ∈ M06.uniq l <-> x ∈ l.
Proof.
  induction l as [|a l IH]; [reflexivity|].
  destruct l as [|b l]; [reflexivity|].
  change (M06.uniq (a :: b :: l))
    with (if bool_decide (a = b) then M06.uniq (b :: l) else a :: M06.uniq (b :: l)).
  case_bool_decide as E.
  - subst b. rewrite IH, !elem_of_cons. tauto.
  - rewrite (elem_of_cons (M06.uniq _)), IH, !elem_of_cons. tauto.
Qed.

Lemma uniq_increasing (l : list Z) :
  Sorted Z.le l -> StronglySorted Z.lt (M06.uniq l).
Proof.
  intros H. apply Sorted_StronglySorted in H; [|intros x y z; lia].
  induction l as [|a l IH]; [constructor|].
  apply StronglySorted_inv in H as [H Ha]. specialize (IH H).
  destruct l as [|b l]; [repeat constructor|].
  change (M06.uniq (a :: b :: l))
    with (if bool_decide (a = b) then M06.uniq (b :: l) else a :: M06.uniq (b :: l)).
  case_bool_decide as E; [exact IH|].
  constructor; [exact IH|].
  apply Forall_forall. intros x Hx. apply (proj1 (elem_of_uniq _ _)) in Hx.
  apply StronglySorted_inv in H as [_ Hb].
  apply Forall_cons in Ha as [Hab Ha].
  apply elem_of_cons in Hx as [->|Hx]; [lia|].
  rewrite Forall_forall in Hb. specialize (Hb x Hx). lia.
Qed.

Lemma increasing_NoDup (l : list Z) : StronglySorted Z.lt l -> NoDup l.
Proof.
  induction 1 as [|a l _ IH Ha]; constructor; [|exact IH].
  intros Hin. rewrite Forall_forall in Ha. specialize (Ha a Hin). lia.
Qed.

Variable nums0 : list Z.

(** The state before the iteration at [read_index = r]. *)
Definition dedup_inv (r : nat) (s : M06.state) : Prop :=
  length (M06.nums s) = length nums0 /\
  1 <= M06.write_index s <= r /\
  take (M06.write_index s) (M06.nums s) = M06.uniq (take r nums0) /\
  (forall i, M06.write_index s <= i -> M06.nums s !! i = nums0 !! i) /\
  M06.nums s !! (r - 1) = nums0 !! (r - 1).

Lemma dedup_step (r : nat) (s : M06.state) :
  1 <= r < length nums0 -> dedup_inv r s -> dedup_inv (S r) (M06.step s r).
Proof.
  intros Hr (Hlen & Hw & Htake & Hrest & Hprev). destruct s as [nums w]. simpl in *.
  destruct (lookup_lt_is_Some_2 nums0 r ltac:(lia)) as [x Ex].
  destruct (lookup_lt_is_Some_2 nums0 (r - 1) ltac:(lia)) as [y Ey].
  unfold M06.step. simpl. rewrite (Hrest r) by lia. rewrite Hprev, Ex, Ey.
  assert (Hlast : last (take r nums0) = Some y).
  { rewrite last_lookup, length_take, Nat.min_l by lia.
    rewrite lookup_take_lt by lia. replace (pred r) with (r - 1) by lia. exact Ey. }
  assert (Huniq := uniq_snoc (take r nums0) x y Hlast).
  rewrite <- (take_S_r _ _ _ Ex) in Huniq.
  unfold dedup_inv. replace (S r - 1) with r by lia.
  case_bool_decide as E; cbn [M06.nums M06.write_index].
  - split; [rewrite length_insert; exact Hlen|]. split; [lia|]. split; [|split].
    + rewrite Huniq, <- Htake.
      rewrite (take_S_r _ _ x) by (apply list_lookup_insert_eq; lia).
      rewrite take_insert_ge by lia. reflexivity.
    + intros i Hi. rewrite list_lookup_insert_ne by lia. apply Hrest. lia.
    + destruct (decide (w = r)) as [->|Hne].
      * rewrite list_lookup_insert_eq by lia. congruence.
      * rewrite list_lookup_insert_ne by lia. rewrite Hrest by lia. reflexivity.
  - split; [exact Hlen|]. split; [lia|]. split; [|split].
    + rewrite Huniq. exact Htake.
    + exact Hrest.
    + apply Hrest. lia.
Qed.

Lemma removeDuplicates_uniq :
  let k := Z.to_nat (fst (M06.removeDuplicates nums0)) in
  let out := snd (M06.removeDuplicates nums0) in
  fst (M06.removeDuplicates nums0) = Z.of_nat (length (M06.uniq nums0)) /\
  take k out = M06.uniq nums0 /\
  length out = length nums0 /\
  forall i, k <= i -> out !! i = nums0 !! i.
Proof.
  unfold M06.removeDuplicates. destruct nums0 as [|a l] eqn:E; [simpl; auto|].
  rewrite <- E. cbn zeta.
  assert (Hlen : 1 <= length nums0) by (rewrite E; simpl; lia).
  pose proof (foldl_seq_inv M06.step dedup_inv 1 (length nums0 - 1)
                (M06.State nums0 1)) as H.
  replace (1 + (length nums0 - 1)) with (length nums0) in H by lia.
  destruct H as (Hl & Hw & Htake & Hrest & _).
  - unfold dedup_inv. simpl. repeat split; try lia. rewrite E. reflexivity.
  - intros r s Hr. apply dedup_step. lia.
  - rewrite firstn_all in Htake.
    cbn [fst snd]. rewrite Nat2Z.id. split; [|auto].
    rewrite <- Htake, length_take. f_equal. lia.
Qed.
End RemoveDuplicates.



(** ** H05: solveNQueens *)

Section NQueens.
Local Open Scope Z_scope.

(** The recursion on the rows returns when the fuel covers the rows
    that are left, and leaves the member [n] as it is. *)
Lemma solveNQueens_row_returns (fuel row : nat) (s : H05.Solution) :
  (row <= Z.to_nat (H05.n s))%nat -> 0 <= H05.n s ->
  (Z.to_nat (H05.n s) - row <= fuel)%nat ->
  exists s', H05.solveNQueens_row fuel row s = Some s' /\ H05.n s' = H05.n s.
Proof.
  revert row s. induction fuel as [|fuel IH]; intros row s Hrow Hn Hfuel.
  - simpl. destruct (Z.eqb_spec (Z.of_nat row) (H05.n s)); [|lia].
    eexists; split; reflexivity.
  - cbn [H05.solveNQueens_row].
    destruct (Z.eqb_spec (Z.of_nat row) (H05.n s)) as [|Hne];
      [eexists; split; reflexivity|].
    match goal with
    | |- context [foldl ?f (Some s) (seq 0 ?cols)] =>
        pose proof (foldl_seq_inv f
          (fun _ acc => exists s', acc = Some s' /\ H05.n s' = H05.n s)
          0 cols (Some s)) as H
    end.
    apply H; clear H.
    + exists s. split; reflexivity.
    + intros col acc _ (s1 & -> & Hn1). simpl.
      destruct (H05.isSafe s1 row col); [|exists s1; split; [reflexivity | exact Hn1]].
      edestruct (IH (S row)
        (H05.Object (H05.result s1) (H05.put (H05.board s1) row col "Q"%char) (H05.n s1)))
        as (s2 & -> & Hn2); simpl; try lia.
      eexists; split; [reflexivity|]. simpl in *. congruence.
Qed.
End NQueens.

(** C8: a call of [solveNQueens] on an object returns, and what it returns
    does not depend on the state the object is in: a second call on the
    same object returns the same list (or throws again), and so does a
    call on any other object.  The other exercises are functions of their
    arguments alone. *)
Theorem solveNQueens_no_retained_state (fuel : nat) (n : Z) (s : H05.Solution) :
  (Z.to_nat n <= fuel)%nat ->
  exists r s1,
    H05.solveNQueens fuel n s = Some (r, s1) /\
    (exists s2, H05.solveNQueens fuel n s1 = Some (r, s2)) /\
    (forall s', exists s1', H05.solveNQueens fuel n s' = Some (r, s1')).
Proof.
  intros Hfuel.
  assert (Hany : exists r, forall s', exists s1', H05.solveNQueens fuel n s' = Some (r, s1')).
  { unfold H05.solveNQueens. destruct (Z.ltb_spec n 0) as [Hneg|Hpos].
    - exists Thrown. intros s'. eexists. reflexivity.
    - cbn [H05.board].
      edestruct (solveNQueens_row_returns fuel 0
        (H05.Object [] (replicate (Z.to_nat n) (replicate (Z.to_nat n) "."%char)) n))
        as (s1 & E & _); simpl; try lia.
      exists (Returned (H05.result s1)). intros s'. exists s1.
      rewrite E. reflexivity. }
  destruct Hany as [r Hr]. destruct (Hr s) as [s1 E1].
  exists r, s1. split; [exact E1|]. split; [apply Hr | exact Hr].
Qed.

Lemma solveNQueens_no_retained_state_witness :
  exists r s1,
    H05.solveNQueens 4 4 (H05.Object [] [] 0) = Some (r, s1) /\
    (exists s2, H05.solveNQueens 4 4 s1 = Some (r, s2)) /\
    (forall s', exists s1', H05.solveNQueens 4 4 s' = Some (r, s1')).
Proof. apply (solveNQueens_no_retained_state 4 4). vm_compute. lia. Defined.

(** ** M04: isValidParentheses *)

(** C9: a character that is not an opening bracket is handled as a closing
    one: on the empty stack the answer is [false]; otherwise the top is
    popped and the scan fails only on [')'], ['}'] or [']'] over the wrong
    opener.  So ["(a"] is accepted. *)
Theorem isValidParentheses_non_opener (c : ascii) (rest : string) :
  M04.opener c = false ->
  M04.scan (String c rest) [] = false /\
  (forall top stk,
     M04.scan (String c rest) (top :: stk) =
     if (Ascii.eqb c ")" && negb (Ascii.eqb top "("))
        || (Ascii.eqb c "}" && negb (Ascii.eqb top "{"))
        || (Ascii.eqb c "]" && negb (Ascii.eqb top "["))
     then false else M04.scan rest stk) /\
  M04.isValidParentheses "(a" = true.
Proof.
  intros Hc. cbn [M04.scan]. rewrite Hc. repeat split.
Qed.

Lemma isValidParentheses_non_opener_witness :
  M04.scan (String "a" "") [] = false /\
  (forall top stk,
     M04.scan (String "a" "") (top :: stk) =
     if (Ascii.eqb "a" ")" && negb (Ascii.eqb top "("))
        || (Ascii.eqb "a" "}" && negb (Ascii.eqb top "{"))
        || (Ascii.eqb "a" "]" && negb (Ascii.eqb top "["))
     then false else M04.scan "" stk) /\
  M04.isValidParentheses "(a" = true.
Proof. apply (isValidParentheses_non_opener "a" ""). reflexivity. Defined.

(** ** H03: findMedianSortedArrays *)

(** C10: on two empty sequences the first partition test succeeds on the
    sentinels and the call returns [(INT_MIN + INT_MAX) / 2.0], that is
    [-0.5]: not [0.0], not an error. *)
Theorem findMedianSortedArrays_empty (fuel : nat) :
  (1 <= fuel)%nat ->
  H03.findMedianSortedArrays fuel [] [] =
    Some (Qmake (Int32.add Int32.INT_MIN Int32.INT_MAX) 2) /\
  Qeq (Qmake (Int32.add Int32.INT_MIN Int32.INT_MAX) 2) (Qmake (-1) 2) /\
  ~ Qeq (Qmake (Int32.add Int32.INT_MIN Int32.INT_MAX) 2) (inject_Z 0).
Proof.
  intros Hfuel. split; [|split].
  - destruct fuel as [|fuel]; [lia|].
    cbn [H03.findMedianSortedArrays length Nat.ltb Nat.leb].
    rewrite (while_fuel_mono _ _ 1 (S fuel) _
               (H03.State 0 0 (Some (Qmake (Int32.add Int32.INT_MIN Int32.INT_MAX) 2))));
      [reflexivity | reflexivity | lia].
  - reflexivity.
  - intros H. vm_compute in H. discriminate.
Qed.

Lemma findMedianSortedArrays_empty_witness :
  H03.findMedianSortedArrays 1 [] [] = Some (Qmake (-1) 2).
Proof. apply (findMedianSortedArrays_empty 1). lia. Defined.

(** ** The test cases recorded in the sources and in the specification *)

Example fibonacci_tests :
  E03.fibonacci 20 0 = Some 0%Z /\ E03.fibonacci 20 5 = Some 5%Z /\
  E03.fibonacci 20 10 = Some 55%Z /\
  Template.fibonacci 20 15 = Some 610%Z /\ Template.fibonacci 20 20 = Some 6765%Z /\
  CppTemplate.fibonacci 20 10 = Some (Returned 55%Z).
Proof. repeat split; vm_compute; reflexivity. Qed.

Example reverseInt_tests :
  E06.reverseInt 10 123 = Some 321%Z /\ E06.reverseInt 10 (-120) = Some (-21)%Z /\
  E06.reverseInt 10 0 = Some 0%Z.
Proof. repeat split. Qed.

Example reverseInt_overflow :
  E06.reverseInt_run 10 1999999999 = Some (1410065399%Z, false) /\
  E06.reverseInt_run 10 Int32.INT_MIN = Some (0%Z, false).
Proof. split; vm_compute; reflexivity. Qed.

Example mergeSortedArrays_test :
  M02.mergeSortedArrays 7 [1; 3; 5]%Z [2; 3; 4; 9]%Z = Some [1; 2; 3; 3; 4; 5; 9]%Z.
Proof. reflexivity. Qed.

Example merge_keyed_stable_test :
  M02.merge_keyed fst 4 [(1, "a"); (3, "b")]%Z [(1, "c"); (3, "d")]%Z
  = Some [(1, "a"); (1, "c"); (3, "b"); (3, "d")]%Z.
Proof. reflexivity. Qed.

Example minDistance_test : H06.minDistance "horse" "ros" = Some 3%Z.
Proof. vm_compute. reflexivity. Qed.

Example dijkstra_test :
  H01.dijkstra 20 [[(1, 4); (2, 1)]; [(3, 1)]; [(1, 2); (3, 5)]; []; [(0, 1)]]%Z 0
  = Some [0; 3; 1; 4; Int32.INT_MAX]%Z.
Proof. vm_compute. reflexivity. Qed.

Example removeDuplicates_test :
  M06.removeDuplicates [0; 0; 1; 1; 1; 2; 2; 3; 3; 4]%Z
  = (5%Z, [0; 1; 2; 3; 4; 2; 2; 3; 3; 4]%Z).
Proof. reflexivity. Qed.

Example solveNQueens_test :
  (fst <$> H05.solveNQueens 4 4 (H05.Object [] [] 0)) =
  Some (Returned [
    [list_ascii_of_string ".Q.."; list_ascii_of_string "...Q";
     list_ascii_of_string "Q..."; list_ascii_of_string "..Q."];
    [list_ascii_of_string "..Q."; list_ascii_of_string "Q...";
     list_ascii_of_string "...Q"; list_ascii_of_string ".Q.."]]).
Proof. vm_compute. reflexivity. Qed.

Example solveNQueens_negative :
  (fst <$> H05.solveNQueens 4 (-1) (H05.Object [] [] 0)) = Some Thrown.
Proof. reflexivity. Qed.

Example isValidParentheses_tests :
  M04.isValidParentheses "" = true /\ M04.isValidParentheses "(()" = false /\
  M04.isValidParentheses "()[]{}" = true /\ M04.isValidParentheses "(]" = false.
Proof. repeat split. Qed.

Example findMedianSortedArrays_tests :
  H03.findMedianSortedArrays 5 [1; 3]%Z [2]%Z = Some (inject_Z 2) /\
  H03.findMedianSortedArrays 5 [1; 2]%Z [3; 4]%Z = Some (Qmake 5 2).
Proof. split; vm_compute; reflexivity. Qed.

(** * The other exercises of the corpus *)

(** ** Exercise 02: factorial *)

Module E02.
Local Open Scope Z_scope.

(** [for (int i = 2; i <= n; i++) res *= i;] *)
Record state := State { st_i : Z; st_res : Z }.

Definition cond (n : Z) (s : state) : bool := st_i s <=? n.

Definition body (s : state) : option state :=
  Some (State (Int32.add (st_i s) 1) (Int32.mul (st_res s) (st_i s))).

Definition factorial (fuel : nat) (n : Z) : option Z :=
  if n <=? 1 then Some 1
  else s ← while (cond n) body fuel (State 2 1); Some (st_res s).
End E02.

(** ** Exercise 09: pow2 *)

Module E09.
Local Open Scope Z_scope.

(** [while (n-- > 0) res *= 2;]: the test reads [n] and decrements it; the
    decrement made by the failing test changes a dead variable only. *)
Record state := State { st_n : Z; st_res : Z }.

Definition cond (s : state) : bool := st_n s >? 0.

Definition body (s : state) : option state :=
  Some (State (Int32.add (st_n s) (-1)) (Int32.mul (st_res s) 2)).

Definition pow2 (fuel : nat) (n : Z) : option Z :=
  s ← while cond body fuel (State n 1); Some (st_res s).
End E09.

(** Reduction to the [int] width is compatible with the ring operations. *)
Lemma wrap_congr (a b : Z) :
  (a mod 2 ^ 32 = b mod 2 ^ 32)%Z -> Int32.wrap a = Int32.wrap b.
Proof.
  intros H. unfold Int32.wrap.
  rewrite (Z.add_mod a), (Z.add_mod b), H by lia. reflexivity.
Qed.

Lemma wrap_mod (a : Z) : (Int32.wrap a mod 2 ^ 32 = a mod 2 ^ 32)%Z.
Proof.
  unfold Int32.wrap.
  rewrite Zminus_mod_idemp_l. f_equal. lia.
Qed.

Lemma wrap_mul_l (a b : Z) : Int32.wrap (Int32.wrap a * b) = Int32.wrap (a * b).
Proof.
  apply wrap_congr. rewrite (Z.mul_mod (Int32.wrap a)), wrap_mod by lia.
  rewrite <- Z.mul_mod by lia. reflexivity.
Qed.

Section Factorial.
Local Open Scope Z_scope.
Variable n : Z.
Hypothesis n_lo : 2 <= n.
Hypothesis n_hi : n < Int32.INT_MAX.

Definition fact_inv (s : E02.state) : Prop :=
  2 <= E02.st_i s <= n + 1 /\
  E02.st_res s = Int32.wrap (Z.of_nat (fact (Z.to_nat (E02.st_i s) - 1))).

Lemma fact_step s :
  fact_inv s -> E02.cond n s = true ->
  exists s', E02.body s = Some s' /\ fact_inv s' /\
    (Z.to_nat (n + 1 - E02.st_i s') < Z.to_nat (n + 1 - E02.st_i s))%nat.
Proof using n_hi.
  destruct s as [i r]. unfold fact_inv, E02.cond, E02.body. simpl.
  intros (Hi & Hr) Hc%Z.leb_le.
  eexists; split; [reflexivity|]. simpl.
  assert (Ei : Int32.add i 1 = i + 1).
  { apply wrap_exact. unfold Int32.in_range, Int32.INT_MIN, Int32.INT_MAX in *. lia. }
  rewrite Ei. split; [|lia]. split; [lia|].
  replace (Z.to_nat (i + 1) - 1)%nat with (S (Z.to_nat i - 1)) by lia.
  rewrite Hr. unfold Int32.mul. rewrite wrap_mul_l. f_equal.
  cbn [fact]. rewrite Nat2Z.inj_mul. lia.
Qed.

Lemma fact_loop_returns fuel :
  (Z.to_nat n <= fuel)%nat ->
  exists s, while (E02.cond n) E02.body fuel (E02.State 2 1) = Some s /\
            E02.st_res s = Int32.wrap (Z.of_nat (fact (Z.to_nat n))).
Proof using n_lo n_hi.
  intros Hfuel.
  destruct (while_rule _ _ fact_inv (fun s => Z.to_nat (n + 1 - E02.st_i s))
              fact_step fuel (E02.State 2 1))
    as (s & Hs & (Hi & Hr) & Hc).
  { unfold fact_inv. simpl. split; [lia | reflexivity]. }
  { simpl. lia. }
  exists s. split; [exact Hs|].
  unfold E02.cond in Hc. apply Z.leb_gt in Hc.
  rewrite Hr. do 3 f_equal. lia.
Qed.
End Factorial.

Lemma fact_le_12 (k : nat) : (k <= 12)%nat -> (Z.of_nat (fact k) <= 479001600)%Z.
Proof.
  intros Hk. assert (Hle : (fact k <= fact 12)%nat) by (apply fact_le; exact Hk).
  apply Nat2Z.inj_le in Hle.
  assert (E : Z.of_nat (fact 12) = 479001600%Z) by (cbn [fact]; lia).
  lia.
Qed.

(** X1: [factorial(n)] is [n!] reduced to the [int] width for every
    [n < INT_MAX], a negative [n] counting as [0]; it is [n!] itself up to
    [n = 12], and [factorial(n) = n * factorial(n - 1)] in [int]
    arithmetic from [n = 1] on. *)
Theorem factorial_spec (fuel : nat) (n : Z) :
  (n < Int32.INT_MAX)%Z -> (Z.to_nat n <= fuel)%nat ->
  E02.factorial fuel n = Some (Int32.wrap (Z.of_nat (fact (Z.to_nat n)))) /\
  ((n <= 12)%Z -> E02.factorial fuel n = Some (Z.of_nat (fact (Z.to_nat n)))) /\
  ((1 <= n)%Z -> exists r, E02.factorial fuel (n - 1) = Some r /\
                           E02.factorial fuel n = Some (Int32.mul n r)).
Proof.
  intros Hn Hfuel.
  assert (Hgen : forall m, (m <= n)%Z ->
    E02.factorial fuel m = Some (Int32.wrap (Z.of_nat (fact (Z.to_nat m))))).
  { intros m Hm. unfold E02.factorial. destruct (Z.leb_spec m 1) as [H1|H1].
    - destruct (Z.eq_dec m 1%Z) as [->|Hne]; [reflexivity|].
      replace (Z.to_nat m) with 0%nat by lia. reflexivity.
    - destruct (fact_loop_returns m ltac:(lia) ltac:(lia) fuel ltac:(lia)) as (s & -> & Hr).
      simpl. congruence. }
  split; [apply Hgen; lia|]. split.
  - intros H12. rewrite Hgen by lia. f_equal. apply wrap_exact.
    pose proof (fact_le_12 (Z.to_nat n) ltac:(lia)).
    unfold Int32.in_range, Int32.INT_MIN, Int32.INT_MAX. lia.
  - intros H1. eexists. split; [apply Hgen; lia|]. rewrite Hgen by lia. f_equal.
    unfold Int32.mul. rewrite Z.mul_comm, wrap_mul_l. f_equal.
    replace (Z.to_nat n) with (S (Z.to_nat (n - 1))) by lia.
    cbn [fact]. rewrite Nat2Z.inj_mul.
    replace (Z.of_nat (S (Z.to_nat (n - 1)))) with n by lia. apply Z.mul_comm.
Qed.

Lemma factorial_spec_witness :
  E02.factorial 7 7 = Some (Int32.wrap (Z.of_nat (fact (Z.to_nat 7)))) /\
  ((7 <= 12)%Z -> E02.factorial 7 7 = Some (Z.of_nat (fact (Z.to_nat 7)))) /\
  ((1 <= 7)%Z -> exists r, E02.factorial 7 (7 - 1) = Some r /\
                           E02.factorial 7 7 = Some (Int32.mul 7 r)).
Proof.
  apply (factorial_spec 7 7).
  - unfold Int32.INT_MAX. lia.
  - vm_compute. lia.
Defined.

(** ** Exercise 09: pow2 *)

Section Pow2.
Local Open Scope Z_scope.

Definition pow2_inv (n : Z) (s : E09.state) : Prop :=
  0 <= E09.st_n s <= n /\ Int32.in_range n /\
  E09.st_res s = Int32.wrap (2 ^ (n - E09.st_n s)).

Lemma pow2_step n s :
  pow2_inv n s -> E09.cond s = true ->
  exists s', E09.body s = Some s' /\ pow2_inv n s' /\
    (Z.to_nat (E09.st_n s') < Z.to_nat (E09.st_n s))%nat.
Proof.
  destruct s as [k r]. unfold pow2_inv, E09.cond, E09.body. simpl.
  intros (Hk & Hn & Hr) Hc. destruct (Z.gtb_spec k 0) as [Hpos|]; [|discriminate].
  eexists; split; [reflexivity|]. simpl.
  assert (Ek : Int32.add k (-1) = k - 1).
  { apply wrap_exact. unfold Int32.in_range, Int32.INT_MIN, Int32.INT_MAX in *. lia. }
  rewrite Ek. split; [|lia]. split; [lia|]. split; [exact Hn|].
  rewrite Hr. unfold Int32.mul. rewrite wrap_mul_l. f_equal.
  replace (n - (k - 1)) with (Z.succ (n - k)) by lia.
  rewrite Z.pow_succ_r by lia. lia.
Qed.

(** X2: [pow2(n)] is [2^n] reduced to the [int] width, a negative [n]
    counting as [0]: it is [2^n] up to [n = 30], [INT_MIN] at [n = 31] and
    [0] from [n = 32] on. *)
Theorem pow2_spec (fuel : nat) (n : Z) :
  Int32.in_range n -> (Z.to_nat n <= fuel)%nat ->
  E09.pow2 fuel n = Some (Int32.wrap (2 ^ Z.max n 0)) /\
  (n <= 30 -> E09.pow2 fuel n = Some (2 ^ Z.max n 0)) /\
  (n = 31 -> E09.pow2 fuel n = Some Int32.INT_MIN) /\
  (32 <= n -> E09.pow2 fuel n = Some 0).
Proof.
  intros Hn Hfuel.
  assert (Hgen : E09.pow2 fuel n = Some (Int32.wrap (2 ^ Z.max n 0))).
  { unfold E09.pow2. destruct (Z.le_gt_cases n 0) as [Hneg|Hpos].
    - assert (Hc : E09.cond (E09.State n 1) = false).
      { unfold E09.cond. simpl. destruct (Z.gtb_spec n 0); [lia | reflexivity]. }
      rewrite Z.max_r by lia.
      destruct fuel; simpl; rewrite Hc; reflexivity.
    - destruct (while_rule _ _ (pow2_inv n) (fun s => Z.to_nat (E09.st_n s))
                  (pow2_step n) fuel (E09.State n 1))
        as (s & -> & (Hk & _ & Hr) & Hc).
      { unfold pow2_inv. simpl. rewrite Z.sub_diag. repeat split; try lia; apply Hn. }
      { simpl. lia. }
      simpl. unfold E09.cond in Hc. destruct (Z.gtb_spec (E09.st_n s) 0); [discriminate|].
      rewrite Hr, Z.max_l by lia. do 3 f_equal. lia. }
  split; [exact Hgen|]. rewrite Hgen. repeat split.
  - intros H30. f_equal. apply wrap_exact.
    assert (0 < 2 ^ Z.max n 0) by (apply Z.pow_pos_nonneg; lia).
    assert (2 ^ Z.max n 0 <= 2 ^ 30) by (apply Z.pow_le_mono_r; lia).
    unfold Int32.in_range, Int32.INT_MIN, Int32.INT_MAX. lia.
  - intros ->. reflexivity.
  - intros H32. f_equal. unfold Int32.wrap.
    replace (Z.max n 0) with (32 + (n - 32)) by lia.
    rewrite Z.pow_add_r by lia.
    rewrite Z.add_comm, Z.mul_comm, Z.mod_add by lia. reflexivity.
Qed.

Lemma pow2_spec_witness :
  E09.pow2 10 10 = Some (Int32.wrap (2 ^ Z.max 10 0)) /\
  (10 <= 30 -> E09.pow2 10 10 = Some (2 ^ Z.max 10 0)) /\
  (10 = 31 -> E09.pow2 10 10 = Some Int32.INT_MIN) /\
  (32 <= 10 -> E09.pow2 10 10 = Some 0).
Proof.
  apply (pow2_spec 10 10).
  - unfold Int32.in_range, Int32.INT_MIN, Int32.INT_MAX. lia.
  - vm_compute. lia.
Defined.
End Pow2.

(** ** Exercises 04 and 10: isPrime and smallestDivisor *)

From Stdlib Require Import Zdivisibility.

(** Both exercises run the loop
    [for (int i = 3; (long long)i * i <= n; i += 2) if (n % i == 0) return ...;]
    The product is taken at the 64-bit width, which the square of an [int]
    fits: it is exact.  [found i] is the value of the [return]. *)
Record trial_state := Trial { trial_i : Z; trial_ret : option Z }.

Definition trial_cond (n : Z) (s : trial_state) : bool :=
  match trial_ret s with
  | Some _ => false
  | None => (trial_i s * trial_i s <=? n)%Z
  end.

Definition trial_body (found : Z -> Z) (n : Z) (s : trial_state) : option trial_state :=
  if (Z.rem n (trial_i s) =? 0)%Z
  then Some (Trial (trial_i s) (Some (found (trial_i s))))
  else Some (Trial (Int32.add (trial_i s) 2) None).

Module E04.
Local Open Scope Z_scope.

Definition isPrime (fuel : nat) (n : Z) : option Z :=
  if n <=? 1 then Some 0
  else if n <=? 3 then Some 1
  else if Z.rem n 2 =? 0 then Some 0
  else
    s ← while (trial_cond n) (trial_body (fun _ => 0) n) fuel (Trial 3 None);
    Some (match trial_ret s with Some r => r | None => 1 end).
End E04.

Module E10.
Local Open Scope Z_scope.

Definition smallestDivisor (fuel : nat) (n : Z) : option Z :=
  if Z.rem n 2 =? 0 then Some 2
  else
    s ← while (trial_cond n) (trial_body (fun i => i) n) fuel (Trial 3 None);
    Some (match trial_ret s with Some r => r | None => n end).
End E10.

Section TrialDivision.
Local Open Scope Z_scope.
Variable found : Z -> Z.
Variable n : Z.
Hypothesis n_range : Int32.in_range n.
Hypothesis n_odd : ~ (2 | n).

Definition trial_inv (s : trial_state) : Prop :=
  3 <= trial_i s <= Z.sqrt n + 2 /\ Z.odd (trial_i s) = true /\
  (forall d, 2 <= d < trial_i s -> ~ (d | n)) /\
  (forall r, trial_ret s = Some r ->
             r = found (trial_i s) /\ (trial_i s | n) /\ trial_i s * trial_i s <= n).

Definition trial_mu (s : trial_state) : nat :=
  match trial_ret s with
  | Some _ => 0
  | None => Z.to_nat (Z.sqrt n + 3 - trial_i s)
  end.

Lemma sqrt_int_bound : Z.sqrt n <= 46340.
Proof using n_range.
  destruct (Z.le_gt_cases n 0) as [Hn|Hn].
  - destruct (Z.eq_dec n 0) as [E|Hne]; [rewrite E; simpl; lia|].
    rewrite Z.sqrt_neg by lia. lia.
  - change 46340 with (Z.sqrt Int32.INT_MAX). apply Z.sqrt_le_mono. apply n_range.
Qed.

Lemma trial_step s :
  trial_inv s -> trial_cond n s = true ->
  exists s', trial_body found n s = Some s' /\ trial_inv s' /\
             (trial_mu s' < trial_mu s)%nat.
Proof using n_range n_odd.
  destruct s as [i r]. unfold trial_inv, trial_cond, trial_body, trial_mu. simpl.
  intros (Hi & Hodd & Hnd & _) Hc. destruct r as [r|]; [discriminate|].
  apply Z.leb_le in Hc.
  assert (Hsq : i <= Z.sqrt n) by (apply Z.sqrt_le_square; nia).
  pose proof sqrt_int_bound as Hb.
  destruct (Z.eqb_spec (Z.rem n i) 0) as [E|E]; (eexists; split; [reflexivity|]); simpl.
  - split; [|lia]. repeat split; try assumption; try lia.
    + injection H as <-. reflexivity.
    + apply Z.rem_divide; [lia | exact E].
  - assert (Ei : Int32.add i 2 = i + 2).
    { apply wrap_exact. unfold Int32.in_range, Int32.INT_MIN, Int32.INT_MAX. lia. }
    rewrite Ei. split; [|lia]. split; [lia|]. split.
    { rewrite Z.odd_add, Hodd. reflexivity. }
    split; [|discriminate].
    intros d Hd Hdiv. destruct (Z.lt_ge_cases d i) as [Hlt|Hge]; [apply (Hnd d); [lia | exact Hdiv]|].
    destruct (Z.eq_dec d i) as [->|Hne].
    + apply E. apply Z.rem_divide; [lia | exact Hdiv].
    + assert (d = i + 1) as -> by lia. apply n_odd.
      apply Z.divide_trans with (i + 1); [|exact Hdiv].
      apply Zodd_bool_iff in Hodd. apply Zodd_ex in Hodd as [k ->].
      exists (k + 1). lia.
Qed.

(** The loop returns: with the first divisor it meets, or without any
    when [n] has no divisor from [2] up to its square root. *)
Lemma trial_loop_returns fuel :
  (Z.to_nat (Z.sqrt n) <= fuel)%nat ->
  exists s, while (trial_cond n) (trial_body found n) fuel (Trial 3 None) = Some s /\
    ((exists i, trial_ret s = Some (found i) /\ 3 <= i /\ i * i <= n /\ (i | n) /\
                forall d, 2 <= d < i -> ~ (d | n)) \/
     (trial_ret s = None /\ forall d, 2 <= d < n -> ~ (d | n))).
Proof using n_range n_odd.
  intros Hfuel.
  destruct (Z.lt_ge_cases n 9) as [Hsmall|Hbig].
  - assert (Hc : trial_cond n (Trial 3 None) = false).
    { unfold trial_cond. simpl. apply Z.leb_gt. lia. }
    exists (Trial 3 None). split; [destruct fuel; simpl; rewrite Hc; reflexivity|].
    right. split; [reflexivity|]. intros d Hd Hdiv.
    destruct Hdiv as [q Hq].
    assert (Hd' : d = 2 \/ d = 3 \/ d = 4 \/ d = 5 \/ d = 6 \/ d = 7) by lia.
    destruct Hd' as [-> | [-> | [-> | [-> | [-> | ->]]]]]; try lia;
      apply n_odd; [exists q; lia | exists 3; lia | exists (2 * q); lia].
  - assert (H3 : 3 <= Z.sqrt n) by (apply Z.sqrt_le_square; lia).
    destruct (while_rule _ _ trial_inv trial_mu trial_step fuel (Trial 3 None))
      as (s & Hs & (Hi & Hodd & Hnd & Hret) & Hc).
    { unfold trial_inv. simpl. repeat split; try lia; try discriminate.
      intros d Hd Hdiv. assert (d = 2) as -> by lia. exact (n_odd Hdiv). }
    { unfold trial_mu. simpl. lia. }
    exists s. split; [exact Hs|]. unfold trial_cond in Hc.
    destruct (trial_ret s) as [r|] eqn:Er.
    + left. destruct (Hret r eq_refl) as (-> & Hdiv & Hsq).
      exists (trial_i s). repeat split; try assumption; lia.
    + right. split; [reflexivity|]. apply Z.leb_gt in Hc.
      intros d Hd [q Hq].
      destruct (Z.lt_ge_cases d (trial_i s)) as [Hlt|Hge];
        [apply (Hnd d); [lia | exists q; exact Hq]|].
      assert (Hqpos : 2 <= q) by nia.
      destruct (Z.lt_ge_cases q (trial_i s)) as [Hlt'|Hge'].
      * apply (Hnd q); [lia | exists d; lia].
      * nia.
Qed.
End TrialDivision.

Section PrimeExercises.
Local Open Scope Z_scope.

Lemma rem2_divide (n : Z) : Z.rem n 2 = 0 <-> (2 | n).
Proof. apply Z.rem_divide. lia. Qed.

Lemma no_divisor_prime (n : Z) :
  1 < n -> (forall d, 2 <= d < n -> ~ (d | n)) -> Z.prime n.
Proof.
  intros Hn Hnd. split; [exact Hn|].
  intros d Hd. apply Hnd. lia.
Qed.

Lemma divisor_not_prime (n d : Z) : 1 < d < n -> (d | n) -> ~ Z.prime n.
Proof.
  intros Hd Hdiv [_ Hp]. exact (Hp d Hd Hdiv).
Qed.

(** X3: [isPrime] returns [0] or [1] on every [int], and [1] exactly on
    the Z.prime numbers. *)
Theorem isPrime_spec (fuel : nat) (n : Z) :
  Int32.in_range n -> (Z.to_nat (Z.sqrt n) <= fuel)%nat ->
  exists r, E04.isPrime fuel n = Some r /\ (r = 0 \/ r = 1) /\ (r = 1 <-> Z.prime n).
Proof.
  intros Hn Hfuel.
  assert (Hno : forall m, ~ Z.prime m ->
            exists r, Some 0 = Some r /\ (r = 0 \/ r = 1) /\ (r = 1 <-> Z.prime m)).
  { intros m Hm. exists 0. split; [reflexivity|]. split; [left; reflexivity|].
    split; [discriminate | intros Hp; contradiction]. }
  assert (Hyes : forall m, Z.prime m ->
            exists r, Some 1 = Some r /\ (r = 0 \/ r = 1) /\ (r = 1 <-> Z.prime m)).
  { intros m Hm. exists 1. split; [reflexivity|]. split; [right; reflexivity|].
    split; [intros _; exact Hm | reflexivity]. }
  unfold E04.isPrime.
  destruct (Z.leb_spec n 1) as [H1|H1].
  { apply Hno. intros Hp. apply Z.prime_ge_2 in Hp. lia. }
  destruct (Z.leb_spec n 3) as [H3|H3].
  { apply Hyes. assert (n = 2 \/ n = 3) as [-> | ->] by lia; [apply Z.prime_2 | apply Z.prime_3]. }
  destruct (Z.eqb_spec (Z.rem n 2) 0) as [E|E].
  { apply Hno. apply (divisor_not_prime n 2); [lia | apply rem2_divide, E]. }
  assert (Hodd : ~ (2 | n)) by (rewrite <- rem2_divide; exact E).
  destruct (trial_loop_returns (fun _ => 0) n Hn Hodd fuel Hfuel)
    as (s & -> & [(i & Hr & Hi & Hsq & Hdiv & _) | (Hr & Hnd)]); simpl; rewrite Hr.
  - apply Hno. apply (divisor_not_prime n i); [nia | exact Hdiv].
  - apply Hyes. apply no_divisor_prime; [lia | exact Hnd].
Qed.

Lemma isPrime_spec_witness :
  exists r, E04.isPrime 10 97 = Some r /\ (r = 0 \/ r = 1) /\ (r = 1 <-> Z.prime 97).
Proof.
  apply (isPrime_spec 10 97).
  - unfold Int32.in_range, Int32.INT_MIN, Int32.INT_MAX. lia.
  - vm_compute. lia.
Defined.

(** X4: for [n >= 2], [smallestDivisor(n)] is the least divisor of [n]
    above [1]; it is a Z.prime number, and it is [n] exactly when [n] is
    prime. *)
Theorem smallestDivisor_spec (fuel : nat) (n : Z) :
  Int32.in_range n -> 2 <= n -> (Z.to_nat (Z.sqrt n) <= fuel)%nat ->
  exists d, E10.smallestDivisor fuel n = Some d /\
    2 <= d <= n /\ (d | n) /\ (forall d', 2 <= d' < d -> ~ (d' | n)) /\
    Z.prime d /\ (d = n <-> Z.prime n).
Proof.
  intros Hn H2 Hfuel.
  assert (Hmin : exists d, E10.smallestDivisor fuel n = Some d /\
    2 <= d <= n /\ (d | n) /\ (forall d', 2 <= d' < d -> ~ (d' | n))).
  { unfold E10.smallestDivisor.
    destruct (Z.eqb_spec (Z.rem n 2) 0) as [E|E].
    { exists 2. split; [reflexivity|]. split; [lia|]. split; [apply rem2_divide, E|].
      intros d' Hd'. lia. }
    assert (Hodd : ~ (2 | n)) by (rewrite <- rem2_divide; exact E).
    destruct (trial_loop_returns (fun i => i) n Hn Hodd fuel Hfuel)
      as (s & -> & [(i & Hr & Hi & Hsq & Hdiv & Hnd) | (Hr & Hnd)]); simpl; rewrite Hr.
    - exists i. split; [reflexivity|]. split; [nia|]. split; assumption.
    - exists n. split; [reflexivity|]. split; [lia|].
      split; [apply Z.divide_refl | exact Hnd]. }
  destruct Hmin as (d & Hd & Hr & Hdiv & Hnd).
  exists d. split; [exact Hd|]. split; [exact Hr|]. split; [exact Hdiv|].
  split; [exact Hnd|]. split; [|split].
  - apply no_divisor_prime; [lia|]. intros d' Hd' Hdiv'.
    apply (Hnd d'); [lia|]. eapply Z.divide_trans; eassumption.
  - intros ->. apply no_divisor_prime; [lia | exact Hnd].
  - intros Hp. destruct (Z.eq_dec d n) as [|Hne]; [assumption|].
    exfalso. apply (divisor_not_prime n d); [lia | exact Hdiv | exact Hp].
Qed.

Lemma smallestDivisor_spec_witness :
  exists d, E10.smallestDivisor 10 91 = Some d /\
    2 <= d <= 91 /\ (d | 91) /\ (forall d', 2 <= d' < d -> ~ (d' | 91)) /\
    Z.prime d /\ (d = 91 <-> Z.prime 91).
Proof.
  apply (smallestDivisor_spec 10 91).
  - unfold Int32.in_range, Int32.INT_MIN, Int32.INT_MAX. lia.
  - lia.
  - vm_compute. lia.
Defined.

(** X5: below [2] the precondition of [smallestDivisor] fails and the
    result is not a divisor above [1] in general: an even [n] (zero and
    the negative ones included) gives [2], an odd [n] gives [n] itself,
    so [smallestDivisor(1) = 1] and [smallestDivisor(-9) = -9]. *)
Theorem smallestDivisor_below_two (fuel : nat) (n : Z) :
  n < 2 ->
  E10.smallestDivisor fuel n = Some (if Z.even n then 2 else n).
Proof.
  intros Hn. unfold E10.smallestDivisor.
  destruct (Z.eqb_spec (Z.rem n 2) 0) as [E|E].
  - apply rem2_divide in E. destruct E as [q ->].
    rewrite Z.mul_comm, Z.even_mul. reflexivity.
  - assert (Hodd : Z.even n = false).
    { destruct (Z.even n) eqn:Ev; [|reflexivity]. exfalso. apply E, rem2_divide.
      apply Zeven_bool_iff in Ev. apply Zeven_ex in Ev as [k ->]. exists k. lia. }
    rewrite Hodd.
    assert (Hc : trial_cond n (Trial 3 None) = false).
    { unfold trial_cond. simpl. apply Z.leb_gt. lia. }
    destruct fuel; simpl; rewrite Hc; reflexivity.
Qed.

Lemma smallestDivisor_below_two_witness :
  E10.smallestDivisor 0 (-9) = Some (if Z.even (-9) then 2 else -9).
Proof. apply (smallestDivisor_below_two 0 (-9)). lia. Defined.
End PrimeExercises.

(** ** Exercises 05, 07 and 08: sumDigits, countSetBits, isPalindromeNumber *)

Module E05.
Local Open Scope Z_scope.

(** [while (n > 0) { s += n % 10; n /= 10; }] *)
Record state := State { st_n : Z; st_s : Z }.

Definition cond (s : state) : bool := st_n s >? 0.

Definition body (s : state) : option state :=
  Some (State (Z.quot (st_n s) 10) (Int32.add (st_s s) (Z.rem (st_n s) 10))).

(** [if (n < 0) n = -n;] overflows at [INT_MIN]: the behaviour is
    undefined there and the call has no value, [None]. *)
Definition sumDigits (fuel : nat) (n : Z) : option Z :=
  n' ← (if n <? 0 then
          if Int32.in_rangeb (- n) then Some (- n) else None
        else Some n);
  s ← while cond body fuel (State n' 0); Some (st_s s).
End E05.

Module E07.
Local Open Scope Z_scope.

(** [while (n) { cnt += n & 1; n >>= 1; }]; the shift of a negative [int]
    keeps the sign. *)
Record state := State { st_n : Z; st_cnt : Z }.

Definition cond (s : state) : bool := negb (st_n s =? 0).

Definition body (s : state) : option state :=
  Some (State (Z.shiftr (st_n s) 1) (Int32.add (st_cnt s) (Z.land (st_n s) 1))).

Definition countSetBits (fuel : nat) (n : Z) : option Z :=
  let n' := if n <? 0 then Int32.neg n else n in
  s ← while cond body fuel (State n' 0); Some (st_cnt s).
End E07.

Module E08.
Local Open Scope Z_scope.

(** [while (n > 0) { rev = rev * 10 + (n % 10); n /= 10; }] *)
Record state := State { st_n : Z; st_rev : Z }.

Definition cond (s : state) : bool := st_n s >? 0.

Definition body (s : state) : option state :=
  Some (State (Z.quot (st_n s) 10)
              (Int32.add (Int32.mul (st_rev s) 10) (Z.rem (st_n s) 10))).

(** The variable [sign] of the source is never read. *)
Definition isPalindromeNumber (fuel : nat) (n : Z) : option Z :=
  let n' := if n <? 0 then Int32.neg n else n in
  let original := n' in
  s ← while cond body fuel (State n' 0);
  Some (if st_rev s =? original then 1 else 0).
End E08.

(** The sum of a list of digits. *)
Fixpoint digit_sum (ds : list Z) : Z :=
  match ds with
  | [] => 0%Z
  | d :: ds' => (d + digit_sum ds')%Z
  end.

(** The number of bits set among the [k] lowest bits of [n]. *)
Fixpoint bit_count (k : nat) (n : Z) : Z :=
  match k with
  | O => 0%Z
  | S k' => (Z.b2z (Z.testbit n (Z.of_nat k')) + bit_count k' n)%Z
  end.

Section DigitExercises.
Local Open Scope Z_scope.

Lemma wrap_add_l (a b : Z) : Int32.wrap (Int32.wrap a + b) = Int32.wrap (a + b).
Proof.
  apply wrap_congr. rewrite (Z.add_mod (Int32.wrap a)), wrap_mod by lia.
  rewrite <- Z.add_mod by lia. reflexivity.
Qed.

Lemma neg_int_min : Int32.neg Int32.INT_MIN = Int32.INT_MIN.
Proof. reflexivity. Qed.

Lemma neg_exact (n : Z) :
  Int32.in_range n -> n <> Int32.INT_MIN -> n < 0 -> Int32.neg n = Z.abs n.
Proof.
  intros Hn Hmin Hneg. unfold Int32.neg. rewrite wrap_exact; [lia|].
  unfold Int32.in_range, Int32.INT_MIN, Int32.INT_MAX in *. lia.
Qed.

Lemma digits_length_pow (fuel : nat) (k : nat) (n : Z) :
  n < 10 ^ Z.of_nat k -> (length (E06.digits fuel n) <= k)%nat.
Proof.
  revert k n. induction fuel as [|fuel IH]; intros k n Hn; simpl; [lia|].
  destruct (Z.gtb_spec n 0) as [Hpos|]; simpl; [|lia].
  destruct k as [|k]; [simpl in Hn; lia|].
  rewrite Nat2Z.inj_succ, Z.pow_succ_r in Hn by lia.
  destruct (quot10_bound n (10 ^ Z.of_nat k)) as [Hq _]; [lia|].
  specialize (IH k (n ÷ 10) ltac:(lia)). lia.
Qed.

Lemma digit_sum_bound (ds : list Z) :
  Forall (fun d => 0 <= d <= 9) ds -> 0 <= digit_sum ds <= 9 * Z.of_nat (length ds).
Proof. induction 1 as [|d ds Hd _ IH]; simpl length; simpl digit_sum; lia. Qed.

Lemma digit_sum_mod9 (ds : list Z) : digit_sum ds mod 9 = E06.value ds mod 9.
Proof.
  induction ds as [|d ds IH]; [reflexivity|]. simpl.
  rewrite (Z.add_mod d (digit_sum ds)), IH, <- Z.add_mod by lia.
  replace (d + 10 * E06.value ds) with (d + E06.value ds + E06.value ds * 9) by lia.
  rewrite Z.mod_add by lia. reflexivity.
Qed.

Lemma sum_loop (fuel : nat) (n acc : Z) :
  n < 10 ^ Z.of_nat fuel -> Int32.in_range acc ->
  exists s, while E05.cond E05.body fuel (E05.State n acc) = Some s /\
            E05.st_s s = Int32.wrap (acc + digit_sum (E06.digits fuel n)).
Proof.
  revert n acc. induction fuel as [|fuel IH]; intros n acc Hn Hacc.
  - simpl in Hn. simpl. unfold E05.cond. simpl.
    destruct (Z.gtb_spec n 0); [lia|]. eexists; split; [reflexivity|]. simpl.
    rewrite Z.add_0_r. symmetry. apply wrap_exact, Hacc.
  - rewrite Nat2Z.inj_succ, Z.pow_succ_r in Hn by lia.
    cbn [while E06.digits]. unfold E05.cond at 1. cbn [E05.st_n].
    destruct (Z.gtb_spec n 0) as [Hpos|Hneg].
    + destruct (quot10_bound n (10 ^ Z.of_nat fuel)) as [Hq Hr]; [lia|].
      unfold E05.body at 1. cbn [E05.st_n E05.st_s].
      destruct (IH (n ÷ 10) (Int32.add acc (Z.rem n 10))) as (s & Hs & Hsum);
        [apply Hq | apply wrap_in_range |]. rewrite Hs.
      exists s. split; [reflexivity|]. rewrite Hsum. cbn [digit_sum].
      unfold Int32.add. rewrite wrap_add_l. f_equal. lia.
    + eexists; split; [reflexivity|]. simpl.
      rewrite Z.add_0_r. symmetry. apply wrap_exact, Hacc.
Qed.

(** X6: for every [int] [n] other than [INT_MIN], [sumDigits(n)] is the
    sum of the decimal digits of [|n|]: it lies between [0] and [90] and is
    congruent to [|n|] modulo [9]. *)
Theorem sumDigits_spec (fuel : nat) (n : Z) :
  (10 <= fuel)%nat -> Int32.in_range n -> n <> Int32.INT_MIN ->
  exists r, E05.sumDigits fuel n = Some r /\
    r = digit_sum (E06.digits fuel (Z.abs n)) /\ 0 <= r <= 90 /\
    r mod 9 = Z.abs n mod 9.
Proof.
  intros Hf Hn Hmin. unfold E05.sumDigits.
  assert (Hneg : Int32.in_range (- n))
    by (unfold Int32.in_range, Int32.INT_MIN, Int32.INT_MAX in *; lia).
  assert (En : (if n <? 0 then if Int32.in_rangeb (- n) then Some (- n) else None
                else Some n) = Some (Z.abs n)).
  { destruct (Z.ltb_spec n 0).
    - rewrite (proj2 (in_rangeb_spec _) Hneg). f_equal. lia.
    - f_equal. lia. }
  rewrite En. cbn [mbind option_bind].
  assert (Hn' : Int32.in_range (Z.abs n))
    by (unfold Int32.in_range, Int32.INT_MIN, Int32.INT_MAX in *; lia).
  destruct (sum_loop fuel (Z.abs n) 0) as (s & -> & Hs);
    [apply int_below_pow10; assumption
    | unfold Int32.in_range, Int32.INT_MIN, Int32.INT_MAX; lia |].
  cbn [mbind option_bind]. exists (E05.st_s s). split; [reflexivity|].
  rewrite Z.add_0_l in Hs.
  assert (Habs : 0 <= Z.abs n < 10 ^ Z.of_nat fuel).
  { split; [lia|]. apply int_below_pow10; [exact Hf | exact Hn']. }
  destruct (digits_canonical fuel (Z.abs n) Habs) as [Hd _].
  pose proof (digit_sum_bound _ Hd) as Hb.
  assert (Hlen : (length (E06.digits fuel (Z.abs n)) <= 10)%nat).
  { apply digits_length_pow. unfold Int32.in_range, Int32.INT_MAX in Hn'. lia. }
  rewrite wrap_exact in Hs
    by (unfold Int32.in_range, Int32.INT_MIN, Int32.INT_MAX; lia).
  split; [exact Hs|]. split; [lia|].
  rewrite Hs, digit_sum_mod9, value_digits by exact Habs. reflexivity.
Qed.

Lemma sumDigits_spec_witness :
  exists r, E05.sumDigits 10 (-1009) = Some r /\
    r = digit_sum (E06.digits 10 (Z.abs (-1009))) /\ 0 <= r <= 90 /\
    r mod 9 = Z.abs (-1009) mod 9.
Proof.
  apply (sumDigits_spec 10 (-1009)).
  - lia.
  - unfold Int32.in_range, Int32.INT_MIN, Int32.INT_MAX. lia.
  - unfold Int32.INT_MIN. lia.
Defined.
End DigitExercises.

Section CountSetBits.
Local Open Scope Z_scope.

Lemma land_1 (n : Z) : Z.land n 1 = Z.b2z (Z.testbit n 0).
Proof.
  rewrite Z.bit0_mod. change 1 with (Z.ones 1) at 1.
  rewrite Z.land_ones by lia. reflexivity.
Qed.

Lemma bit_count_shift (k : nat) (n : Z) :
  bit_count (S k) n = Z.b2z (Z.testbit n 0) + bit_count k (Z.shiftr n 1).
Proof.
  induction k as [|k IH]; [simpl; lia|].
  change (bit_count (S (S k)) n)
    with (Z.b2z (Z.testbit n (Z.of_nat (S k))) + bit_count (S k) n).
  rewrite IH. cbn [bit_count].
  rewrite Z.shiftr_spec by lia. rewrite Nat2Z.inj_succ. unfold Z.succ. lia.
Qed.

Lemma bit_count_bound (k : nat) (n : Z) : 0 <= bit_count k n <= Z.of_nat k.
Proof.
  induction k as [|k IH]; [simpl; lia|]. cbn [bit_count].
  destruct (Z.testbit n (Z.of_nat k)); simpl Z.b2z; lia.
Qed.

Lemma bit_count_zero (k : nat) : bit_count k 0 = 0.
Proof.
  induction k as [|k IH]; [reflexivity|]. cbn [bit_count].
  rewrite Z.bits_0, IH. reflexivity.
Qed.

Lemma bit_count_above (j k : nat) (n : Z) :
  0 <= n < 2 ^ Z.of_nat k -> bit_count (j + k) n = bit_count k n.
Proof.
  intros Hn. induction j as [|j IH]; [reflexivity|].
  cbn [Nat.add bit_count]. rewrite IH.
  destruct (Z.eq_dec n 0) as [->|Hne]; [rewrite Z.bits_0; reflexivity|].
  rewrite Z.bits_above_log2; [reflexivity | lia |].
  assert (Z.log2 n < Z.of_nat k) by (apply Z.log2_lt_pow2; lia). lia.
Qed.

Lemma count_loop (fuel : nat) (n cnt : Z) :
  0 <= n < 2 ^ Z.of_nat fuel -> Int32.in_range cnt ->
  exists s, while E07.cond E07.body fuel (E07.State n cnt) = Some s /\
            E07.st_cnt s = Int32.wrap (cnt + bit_count fuel n).
Proof.
  revert n cnt. induction fuel as [|fuel IH]; intros n cnt Hn Hcnt.
  - simpl in Hn. assert (n = 0) as -> by lia. simpl.
    eexists; split; [reflexivity|]. simpl. rewrite Z.add_0_r.
    symmetry. apply wrap_exact, Hcnt.
  - rewrite Nat2Z.inj_succ, Z.pow_succ_r in Hn by lia.
    cbn [while]. unfold E07.cond at 1. cbn [E07.st_n].
    destruct (Z.eqb_spec n 0) as [->|Hne]; cbn [negb].
    + eexists; split; [reflexivity|]. simpl E07.st_cnt.
      rewrite bit_count_zero, Z.add_0_r. symmetry. apply wrap_exact, Hcnt.
    + unfold E07.body at 1. cbn [E07.st_n E07.st_cnt].
      destruct (IH (Z.shiftr n 1) (Int32.add cnt (Z.land n 1))) as (s & Hs & Hc).
      { rewrite Z.shiftr_div_pow2 by lia. change (2 ^ 1) with 2.
        split; [apply Z.div_pos; lia | apply Z.div_lt_upper_bound; lia]. }
      { apply wrap_in_range. }
      rewrite Hs. exists s. split; [reflexivity|]. rewrite Hc.
      unfold Int32.add. rewrite wrap_add_l, bit_count_shift, land_1. f_equal. lia.
Qed.

(** X7: [countSetBits(n)] is the number of bits set in [|n|], at most
    [31].  At [INT_MIN], whose negation is not an [int], the loop runs on
    a negative number that the shift never brings to [0]: the call does
    not return. *)
Theorem countSetBits_spec (fuel : nat) (n : Z) :
  (31 <= fuel)%nat -> Int32.in_range n ->
  (n <> Int32.INT_MIN ->
   exists r, E07.countSetBits fuel n = Some r /\
             r = bit_count 31 (Z.abs n) /\ 0 <= r <= 31) /\
  (n = Int32.INT_MIN -> E07.countSetBits fuel n = None).
Proof.
  intros Hf Hn. unfold E07.countSetBits. split.
  - intros Hmin.
    assert (En' : (if n <? 0 then Int32.neg n else n) = Z.abs n).
    { destruct (Z.ltb_spec n 0); [apply neg_exact; assumption | lia]. }
    rewrite En'.
    assert (Habs : 0 <= Z.abs n < 2 ^ Z.of_nat 31).
    { unfold Int32.in_range, Int32.INT_MIN, Int32.INT_MAX in *.
      change (2 ^ Z.of_nat 31) with (2 ^ 31). lia. }
    destruct (count_loop fuel (Z.abs n) 0) as (s & -> & Hs).
    { split; [lia|]. apply Z.lt_le_trans with (2 ^ Z.of_nat 31); [apply Habs|].
      apply Z.pow_le_mono_r; lia. }
    { unfold Int32.in_range, Int32.INT_MIN, Int32.INT_MAX. lia. }
    simpl. exists (E07.st_cnt s). split; [reflexivity|].
    replace fuel with ((fuel - 31) + 31)%nat in Hs by lia.
    rewrite bit_count_above, Z.add_0_l in Hs by exact Habs.
    pose proof (bit_count_bound 31 (Z.abs n)) as Hb.
    rewrite wrap_exact in Hs
      by (unfold Int32.in_range, Int32.INT_MIN, Int32.INT_MAX; lia).
    split; [exact Hs | lia].
  - intros ->. simpl. rewrite neg_int_min.
    rewrite (while_stuck _ _ (fun s => E07.st_n s < 0)); [reflexivity| |].
    + intros [m c] Hm. simpl in Hm. split.
      * unfold E07.cond. simpl. destruct (Z.eqb_spec m 0); [lia | reflexivity].
      * unfold E07.body. simpl. intros s' [= <-]. simpl. apply Z.shiftr_neg. exact Hm.
    + simpl. unfold Int32.INT_MIN. lia.
Qed.

Lemma countSetBits_spec_witness :
  (1023 <> Int32.INT_MIN ->
   exists r, E07.countSetBits 31 1023 = Some r /\
             r = bit_count 31 (Z.abs 1023) /\ 0 <= r <= 31) /\
  (1023 = Int32.INT_MIN -> E07.countSetBits 31 1023 = None).
Proof.
  apply (countSetBits_spec 31 1023).
  - lia.
  - unfold Int32.in_range, Int32.INT_MIN, Int32.INT_MAX. lia.
Defined.
End CountSetBits.

Section Palindrome.
Local Open Scope Z_scope.

(** The loop of [isPalindromeNumber] is the loop of [reverseInt]. *)
Lemma palindrome_loop_sim (fuel : nat) (n r : Z) (ok : bool) :
  while E08.cond E08.body fuel (E08.State n r) =
  (fun s => E08.State (E06.st_n s) (E06.st_rev s))
    <$> while E06.cond E06.body fuel (E06.State n r ok).
Proof.
  revert n r ok. induction fuel as [|fuel IH]; intros n r ok; cbn [while];
    unfold E08.cond at 1, E06.cond at 1; cbn [E08.st_n E06.st_n];
    destruct (n >? 0); try reflexivity.
  unfold E08.body at 1, E06.body at 1. cbn [E08.st_n E08.st_rev E06.st_n E06.st_rev E06.exact].
  apply IH.
Qed.

Lemma value_inj (l1 l2 : list Z) :
  Forall (fun d => 0 <= d <= 9) l1 -> Forall (fun d => 0 <= d <= 9) l2 ->
  length l1 = length l2 -> E06.value l1 = E06.value l2 -> l1 = l2.
Proof.
  intros H1. revert l2. induction H1 as [|d1 l1 Hd1 _ IH]; intros l2 H2 Hlen Hv;
    destruct H2 as [|d2 l2 Hd2 H2]; try discriminate; [reflexivity|].
  simpl in Hv, Hlen. assert (d1 = d2) by lia. subst d2.
  f_equal. apply IH; [exact H2 | lia | lia].
Qed.

(** X8: when reversing [n] does not overflow, [isPalindromeNumber(n)] is
    [1] if the decimal digits of [|n|] read the same in both directions,
    which is to say if [reverseInt(n) = n], and [0] if not. *)
Theorem isPalindromeNumber_spec (fuel : nat) (n : Z) :
  (10 <= fuel)%nat -> Int32.in_range n -> E06.no_overflow fuel n ->
  exists r, E08.isPalindromeNumber fuel n = Some r /\ (r = 0 \/ r = 1) /\
    (r = 1 <-> rev (E06.digits fuel (Z.abs n)) = E06.digits fuel (Z.abs n)) /\
    (r = 1 <-> E06.reverseInt fuel n = Some n).
Proof.
  intros Hf Hn Hno. unfold E06.no_overflow in Hno.
  destruct (reverseInt_run_spec fuel n Hf Hn) as (v & ok & Hrun & _ & Hv).
  rewrite Hrun in Hno. injection Hno as ->. specialize (Hv eq_refl).
  assert (Hrev : E06.reverseInt fuel n = Some v)
    by (unfold E06.reverseInt; rewrite Hrun; reflexivity).
  unfold E06.reverseInt_run in Hrun. unfold E08.isPalindromeNumber.
  set (n' := if n <? 0 then Int32.neg n else n) in *.
  rewrite (palindrome_loop_sim fuel n' 0 (if n <? 0 then Int32.in_rangeb (- n) else true)).
  destruct (reverse_loop fuel n' 0 (if n <? 0 then Int32.in_rangeb (- n) else true))
    as (s & Hs & Hex).
  { apply int_below_pow10; [exact Hf|]. subst n'.
    destruct (n <? 0); [apply wrap_in_range | exact Hn]. }
  rewrite Hs in *. simpl in Hrun. injection Hrun as Hval Hok.
  apply andb_true_iff in Hok as [He _]. destruct (Hex He) as [Hok Hr].
  rewrite horner_value, Z.mul_0_l, Z.add_0_r in Hr. simpl.
  assert (En' : n' = Z.abs n /\ v = (if n <? 0 then - revnum fuel n' else revnum fuel n')).
  { subst n'. destruct (Z.ltb_spec n 0).
    - apply in_rangeb_spec in Hok. unfold Int32.neg. rewrite wrap_exact by exact Hok.
      destruct Hv as [_ ->]. split; [lia | reflexivity].
    - split; [lia | exact Hv]. }
  destruct En' as [En' Ev]. rewrite Hr. fold (revnum fuel n').
  assert (Habs : 0 <= n' < 10 ^ Z.of_nat fuel).
  { split; [lia|]. apply int_below_pow10; [exact Hf|]. subst n'.
    destruct (n <? 0); [apply wrap_in_range | exact Hn]. }
  destruct (digits_canonical fuel n' Habs) as [Hd _].
  assert (Hpal : revnum fuel n' = n' <-> rev (E06.digits fuel n') = E06.digits fuel n').
  { unfold revnum. split.
    - intros E. apply value_inj; [apply Forall_rev, Hd | exact Hd | apply length_rev |].
      rewrite E. symmetry. apply value_digits, Habs.
    - intros ->. apply value_digits, Habs. }
  rewrite <- En'.
  assert (Hself : revnum fuel n' = n' <-> Some v = Some n).
  { rewrite Ev. destruct (Z.ltb_spec n 0); split; intros E;
      try (injection E as E); try f_equal; lia. }
  rewrite Hrev.
  destruct (Z.eqb_spec (revnum fuel n') n') as [E|E].
  - exists 1. split; [reflexivity|]. split; [right; reflexivity|].
    split; (split; [intros _ | reflexivity]); [apply Hpal, E | apply Hself, E].
  - exists 0. split; [reflexivity|]. split; [left; reflexivity|].
    split; (split; [discriminate | intros E']); exfalso; apply E;
      [apply Hpal, E' | apply Hself, E'].
Qed.

Lemma isPalindromeNumber_spec_witness :
  exists r, E08.isPalindromeNumber 10 (-121) = Some r /\ (r = 0 \/ r = 1) /\
    (r = 1 <-> rev (E06.digits 10 (Z.abs (-121))) = E06.digits 10 (Z.abs (-121))) /\
    (r = 1 <-> E06.reverseInt 10 (-121) = Some (-121)).
Proof.
  apply (isPalindromeNumber_spec 10 (-121)).
  - lia.
  - unfold Int32.in_range, Int32.INT_MIN, Int32.INT_MAX. lia.
  - reflexivity.
Defined.
End Palindrome.

(** ** H03 (hard/cpp): modpow *)

Module Int64.
Local Open Scope Z_scope.

Definition INT64_MIN : Z := - 2 ^ 63.
Definition INT64_MAX : Z := 2 ^ 63 - 1.

Definition wrap (z : Z) : Z := (z + 2 ^ 63) mod 2 ^ 64 - 2 ^ 63.

Definition in_range (z : Z) : Prop := INT64_MIN <= z <= INT64_MAX.

Definition mul (a b : Z) : Z := wrap (a * b).

(** [a % b]: undefined for [b = 0], and for [INT64_MIN % -1]. *)
Definition rem (a b : Z) : option Z :=
  if b =? 0 then None
  else if (a =? INT64_MIN) && (b =? -1) then None
  else Some (Z.rem a b).
End Int64.

Module ModPow.
Local Open Scope Z_scope.

Record state := State { result : Z; base : Z; exp : Z }.

Definition cond (s : state) : bool := exp s >? 0.

(** The parameter [mod] of the source is [modulus] here. *)
Definition body (modulus : Z) (s : state) : option state :=
  r ← (if Z.rem (exp s) 2 =? 1
       then Int64.rem (Int64.mul (result s) (base s)) modulus
       else Some (result s));
  b ← Int64.rem (Int64.mul (base s) (base s)) modulus;
  Some (State r b (Z.quot (exp s) 2)).

Definition modpow (fuel : nat) (base exp modulus : Z) : option Z :=
  b ← Int64.rem base modulus;
  s ← while cond (body modulus) fuel (State 1 b exp);
  Some (result s).
End ModPow.

Section ModPowProofs.
Local Open Scope Z_scope.
Variable m : Z.
Hypothesis m_pos : 1 <= m.
Hypothesis m_small : (m - 1) * (m - 1) <= Int64.INT64_MAX.

Lemma wrap64_exact (z : Z) : Int64.in_range z -> Int64.wrap z = z.
Proof.
  unfold Int64.in_range, Int64.wrap, Int64.INT64_MIN, Int64.INT64_MAX. intros H.
  rewrite Z.mod_small; lia.
Qed.

(** A product of two residues, or of [1] and a residue, reduced. *)
Lemma mulmod_exact (a b : Z) :
  0 <= a < m \/ a = 1 -> 0 <= b < m ->
  Int64.rem (Int64.mul a b) m = Some ((a * b) mod m).
Proof using m_pos m_small.
  intros Ha Hb.
  assert (Hprod : 0 <= a * b <= Int64.INT64_MAX).
  { unfold Int64.INT64_MAX in *. destruct Ha as [Ha | ->]; nia. }
  unfold Int64.mul. rewrite wrap64_exact
    by (unfold Int64.in_range, Int64.INT64_MIN, Int64.INT64_MAX in *; lia).
  unfold Int64.rem.
  destruct (Z.eqb_spec m 0); [lia|].
  destruct (Z.eqb_spec m (-1)); [lia|]. rewrite andb_false_r.
  rewrite Z.rem_mod_nonneg by lia. reflexivity.
Qed.

Lemma modpow_loop (fuel : nat) (r b e : Z) :
  0 <= e < 2 ^ Z.of_nat fuel -> 0 <= b < m -> 0 <= r < m \/ r = 1 ->
  exists s, while ModPow.cond (ModPow.body m) fuel (ModPow.State r b e) = Some s /\
            ModPow.result s = if e =? 0 then r else (r * b ^ e) mod m.
Proof using m_pos m_small.
  revert r b e. induction fuel as [|fuel IH]; intros r b e He Hb Hr.
  - simpl in He. assert (e = 0) as -> by lia. simpl.
    eexists; split; reflexivity.
  - rewrite Nat2Z.inj_succ, Z.pow_succ_r in He by lia.
    cbn [while]. unfold ModPow.cond at 1. cbn [ModPow.exp].
    destruct (Z.gtb_spec e 0) as [Hpos|Hz].
    2:{ assert (e = 0) as -> by lia. eexists; split; reflexivity. }
    destruct (Z.eqb_spec e 0); [lia|].
    unfold ModPow.body at 1. cbn [ModPow.exp ModPow.result ModPow.base].
    pose proof (Z.quot_rem' e 2) as Hqr.
    pose proof (Z.rem_bound_pos e 2 ltac:(lia) ltac:(lia)) as Hrem.
    assert (Hq : 0 <= e ÷ 2 < 2 ^ Z.of_nat fuel) by lia.
    assert (Hb' : 0 <= (b * b) mod m < m) by (apply Z.mod_pos_bound; lia).
    rewrite (mulmod_exact b b) by (auto; lia).
    assert (Hsq : forall q, 0 <= q -> ((b * b) mod m) ^ q mod m = b ^ (2 * q) mod m).
    { intros q Hq0. rewrite Z.mod_pow_l, Z.pow_mul_r by lia.
      rewrite Z.pow_2_r. reflexivity. }
    destruct (Z.eqb_spec (Z.rem e 2) 1) as [Hodd|Heven].
    + rewrite (mulmod_exact r b) by assumption. cbn [mbind option_bind].
      destruct (IH ((r * b) mod m) ((b * b) mod m) (e ÷ 2)) as (s & Hs & Hres);
        [exact Hq | exact Hb' | left; apply Z.mod_pos_bound; lia |].
      simpl. rewrite Hs. exists s. split; [reflexivity|]. rewrite Hres.
      destruct (Z.eqb_spec (e ÷ 2) 0) as [E0|E0].
      * replace e with 1 by lia. rewrite Z.pow_1_r. reflexivity.
      * rewrite Z.mul_mod_idemp_l by lia.
        rewrite <- Z.mul_mod_idemp_r, Hsq, Z.mul_mod_idemp_r by lia.
        f_equal. replace e with (2 * (e ÷ 2) + 1) at 2 by lia.
        rewrite Z.pow_add_r, Z.pow_1_r by lia. lia.
    + cbn [mbind option_bind].
      destruct (IH r ((b * b) mod m) (e ÷ 2)) as (s & Hs & Hres);
        [exact Hq | exact Hb' | exact Hr |].
      simpl. rewrite Hs. exists s. split; [reflexivity|]. rewrite Hres.
      destruct (Z.eqb_spec (e ÷ 2) 0) as [E0|E0]; [lia|].
      rewrite <- Z.mul_mod_idemp_r, Hsq, Z.mul_mod_idemp_r by lia.
      f_equal. replace e with (2 * (e ÷ 2)) at 2 by lia. reflexivity.
Qed.

(** X9: for [base >= 0], [exp >= 0] and a modulus [mod >= 1] whose
    residues multiply within the 64-bit width, [modpow] returns
    [base ^ exp mod mod] when [exp > 0], and [1] when [exp = 0]: that is
    [1] also for [mod = 1], where the residue is [0]. *)
Theorem modpow_spec (fuel : nat) (b e : Z) :
  (63 <= fuel)%nat -> 0 <= b -> 0 <= e <= Int64.INT64_MAX ->
  ModPow.modpow fuel b e m = Some (if e =? 0 then 1 else b ^ e mod m).
Proof using m_pos m_small.
  intros Hf Hb He. unfold ModPow.modpow, Int64.rem.
  destruct (Z.eqb_spec m 0); [lia|].
  destruct (Z.eqb_spec m (-1)); [lia|]. rewrite andb_false_r. simpl.
  rewrite Z.rem_mod_nonneg by lia.
  destruct (modpow_loop fuel 1 (b mod m) e) as (s & -> & Hres).
  { split; [lia|]. apply Z.le_lt_trans with Int64.INT64_MAX; [lia|].
    apply Z.lt_le_trans with (2 ^ 63); [unfold Int64.INT64_MAX; lia|].
    apply Z.pow_le_mono_r; lia. }
  { apply Z.mod_pos_bound. lia. }
  { right. reflexivity. }
  simpl. rewrite Hres. destruct (e =? 0); [reflexivity|].
  rewrite Z.mul_1_l, Z.mod_pow_l. reflexivity.
Qed.
End ModPowProofs.

Lemma modpow_spec_witness :
  ModPow.modpow 63 2 10 1000 = Some (if (10 =? 0)%Z then 1%Z else (2 ^ 10 mod 1000)%Z) /\
  ModPow.modpow 63 5 0 1 = Some (if (0 =? 0)%Z then 1%Z else (5 ^ 0 mod 1)%Z).
Proof.
  split.
  - apply (modpow_spec 1000); unfold Int64.INT64_MAX; lia.
  - apply (modpow_spec 1); unfold Int64.INT64_MAX; lia.
Defined.

(** ** More on the exercises above *)

(** The Fibonacci numbers, computed with their successors. *)
Fixpoint fib_pair (k : nat) : Z * Z :=
  match k with
  | O => (0, 1)%Z
  | S k' => let '(a, b) := fib_pair k' in (b, (a + b)%Z)
  end.

Definition fibZ (k : nat) : Z := fst (fib_pair k).

Section FibonacciValues.
Local Open Scope Z_scope.

Lemma fibZ_rec (k : nat) : fibZ (S (S k)) = fibZ k + fibZ (S k).
Proof. unfold fibZ. simpl. destruct (fib_pair k) as [a b]. reflexivity. Qed.

Lemma fibZ_mono (k : nat) : 0 <= fibZ k <= fibZ (S k).
Proof.
  unfold fibZ. induction k as [|k IH]; [simpl; lia|].
  simpl in *. destruct (fib_pair k) as [a b]. simpl in *. lia.
Qed.

Lemma fibZ_le (j k : nat) : (j <= k)%nat -> fibZ j <= fibZ k.
Proof.
  induction 1 as [|k _ IH]; [lia|]. pose proof (fibZ_mono k). lia.
Qed.

Lemma wrap_add (a b : Z) :
  Int32.wrap (Int32.wrap a + Int32.wrap b) = Int32.wrap (a + b).
Proof. rewrite wrap_add_l, Z.add_comm, wrap_add_l, Z.add_comm. reflexivity. Qed.

Lemma fib32_fibZ (k : nat) : fib32 k = Int32.wrap (fibZ k) /\ fib32 (S k) = Int32.wrap (fibZ (S k)).
Proof.
  induction k as [|k [IH1 IH2]]; [split; reflexivity|].
  split; [exact IH2|].
  rewrite fib32_rec, fibZ_rec, IH1, IH2. apply wrap_add.
Qed.

(** X10: for [0 <= n < INT_MAX] the three fibonacci variants return the
    same value, the Fibonacci number [F(n)] reduced to the [int] width;
    it is [F(n)] itself up to [n = 46], the last one that fits. *)
Theorem fibonacci_variants_agree (fuel : nat) (n : Z) :
  0 <= n < Int32.INT_MAX -> (Z.to_nat n <= fuel)%nat ->
  E03.fibonacci fuel n = Some (Int32.wrap (fibZ (Z.to_nat n))) /\
  Template.fibonacci fuel n = Some (Int32.wrap (fibZ (Z.to_nat n))) /\
  CppTemplate.fibonacci fuel n = Some (Returned (Int32.wrap (fibZ (Z.to_nat n)))) /\
  (n <= 46 -> Int32.wrap (fibZ (Z.to_nat n)) = fibZ (Z.to_nat n)) /\
  Int32.wrap (fibZ 47) < 0.
Proof.
  intros Hn Hfuel.
  rewrite E03_fibonacci_fib32, Template_fibonacci_fib32, CppTemplate_fibonacci_fib32
    by lia.
  destruct (fib32_fibZ (Z.to_nat n)) as [-> _].
  split; [reflexivity|]. split; [reflexivity|]. split; [reflexivity|]. split.
  - intros H46. apply wrap_exact.
    pose proof (fibZ_le (Z.to_nat n) 46 ltac:(lia)) as Hle.
    pose proof (fibZ_mono (Z.to_nat n)) as [H0 _].
    change (fibZ 46) with 1836311903 in Hle.
    unfold Int32.in_range, Int32.INT_MIN, Int32.INT_MAX. lia.
  - reflexivity.
Qed.

Lemma fibonacci_variants_agree_witness :
  E03.fibonacci 20 20 = Some (Int32.wrap (fibZ (Z.to_nat 20))) /\
  Template.fibonacci 20 20 = Some (Int32.wrap (fibZ (Z.to_nat 20))) /\
  CppTemplate.fibonacci 20 20 = Some (Returned (Int32.wrap (fibZ (Z.to_nat 20)))) /\
  (20 <= 46 -> Int32.wrap (fibZ (Z.to_nat 20)) = fibZ (Z.to_nat 20)) /\
  Int32.wrap (fibZ 47) < 0.
Proof.
  apply (fibonacci_variants_agree 20 20).
  - unfold Int32.INT_MAX. lia.
  - vm_compute. lia.
Defined.
End FibonacciValues.

Section MoreOnVectors.

(** No two neighbours of the list are equal. *)
Fixpoint no_equal_neighbours (l : list Z) : Prop :=
  match l with
  | [] => True
  | x :: l' =>
      match l' with
      | [] => True
      | y :: _ => x <> y /\ no_equal_neighbours l'
      end
  end.

Lemma uniq_head (x : Z) (l : list Z) : exists l', M06.uniq (x :: l) = x :: l'.
Proof.
  revert x. induction l as [|y l IH]; intros x; [exists []; reflexivity|].
  change (M06.uniq (x :: y :: l))
    with (if bool_decide (x = y) then M06.uniq (y :: l) else x :: M06.uniq (y :: l)).
  case_bool_decide as E; [|eexists; reflexivity].
  subst y. apply IH.
Qed.

Lemma uniq_no_equal_neighbours (l : list Z) : no_equal_neighbours (M06.uniq l).
Proof.
  induction l as [|x l IH]; [exact I|].
  destruct l as [|y l]; [exact I|].
  change (M06.uniq (x :: y :: l))
    with (if bool_decide (x = y) then M06.uniq (y :: l) else x :: M06.uniq (y :: l)).
  case_bool_decide as E; [exact IH|].
  destruct (uniq_head y l) as [l' El']. rewrite El' in *.
  split; [exact E | exact IH].
Qed.

Lemma uniq_sublist (l : list Z) : M06.uniq l `sublist_of` l.
Proof.
  induction l as [|x l IH]; [constructor|].
  destruct l as [|y l]; [reflexivity|].
  change (M06.uniq (x :: y :: l))
    with (if bool_decide (x = y) then M06.uniq (y :: l) else x :: M06.uniq (y :: l)).
  case_bool_decide; [apply sublist_cons, IH | apply sublist_skip, IH].
Qed.

Lemma uniq_fixed (l : list Z) : no_equal_neighbours l -> M06.uniq l = l.
Proof.
  induction l as [|x l IH]; [reflexivity|].
  destruct l as [|y l]; [reflexivity|]. intros [Hne Hl].
  change (M06.uniq (x :: y :: l))
    with (if bool_decide (x = y) then M06.uniq (y :: l) else x :: M06.uniq (y :: l)).
  rewrite bool_decide_eq_false_2 by exact Hne. f_equal. apply IH, Hl.
Qed.

(** The list is a sequence of runs of equal elements, neighbouring runs
    being of different values, and [uniq] has the value of each run, in
    order. *)
Lemma uniq_runs (l : list Z) :
  exists runs : list (Z * nat),
    l = flat_map (fun r => replicate (S (snd r)) (fst r)) runs /\
    no_equal_neighbours (map fst runs) /\
    M06.uniq l = map fst runs.
Proof.
  induction l as [|x l IH]; [exists []; repeat split|].
  destruct IH as (runs & El & Hne & Hu).
  destruct l as [|y l'].
  { exists [(x, 0%nat)]. repeat split. }
  destruct runs as [|[v c] rs]; [discriminate El|].
  assert (Ev : v = y) by (cbn in El; congruence). subst v.
  change (M06.uniq (x :: y :: l'))
    with (if bool_decide (x = y) then M06.uniq (y :: l') else x :: M06.uniq (y :: l')).
  destruct (decide (x = y)) as [->|Hxy].
  - rewrite bool_decide_eq_true_2 by reflexivity.
    exists ((y, S c) :: rs). split; [|split].
    + cbn in El |- *. rewrite El. reflexivity.
    + exact Hne.
    + rewrite Hu. reflexivity.
  - rewrite bool_decide_eq_false_2 by exact Hxy.
    exists ((x, 0%nat) :: (y, c) :: rs). split; [|split].
    + cbn in El |- *. rewrite El. reflexivity.
    + cbn. split; [exact Hxy | exact Hne].
    + rewrite Hu. reflexivity.
Qed.


Example removeDuplicates_unsorted_test :
  M06.removeDuplicates [1; 2; 1; 2]%Z = (4%Z, [1; 2; 1; 2]%Z) /\
  M06.removeDuplicates [3; 3; 1; 1; 3]%Z = (3%Z, [3; 1; 3; 1; 3]%Z).
Proof. split; reflexivity. Qed.

(** X12: on any two vectors, sorted or not, [mergeSortedArrays] returns
    a permutation of their concatenation; with one of them empty it
    returns the other as it is. *)
Theorem mergeSortedArrays_any_input (nums1 nums2 : list Z) (fuel : nat) :
  (length nums1 + length nums2 <= fuel)%nat ->
  (exists r, M02.mergeSortedArrays fuel nums1 nums2 = Some r /\
             r ≡ₚ nums1 ++ nums2 /\ length r = (length nums1 + length nums2)%nat) /\
  (nums2 = [] -> M02.mergeSortedArrays fuel nums1 nums2 = Some nums1) /\
  (nums1 = [] -> M02.mergeSortedArrays fuel nums1 nums2 = Some nums2).
Proof.
  intros Hfuel. unfold M02.mergeSortedArrays.
  rewrite (merge_keyed_fun id nums1 nums2 fuel Hfuel).
  split; [|split].
  - eexists. split; [reflexivity|]. split; [apply merge_fun_perm|].
    rewrite merge_fun_perm. apply length_app.
  - intros ->. rewrite merge_fun_nil_r. reflexivity.
  - intros ->. rewrite merge_fun_nil_l. reflexivity.
Qed.

Lemma mergeSortedArrays_any_input_witness :
  (exists r, M02.mergeSortedArrays 4 [5; 1]%Z [4; 2]%Z = Some r /\
             r ≡ₚ [5; 1]%Z ++ [4; 2]%Z /\ length r = (2 + 2)%nat) /\
  ([4; 2]%Z = [] -> M02.mergeSortedArrays 4 [5; 1]%Z [4; 2]%Z = Some [5; 1]%Z) /\
  ([5; 1]%Z = [] -> M02.mergeSortedArrays 4 [5; 1]%Z [4; 2]%Z = Some [4; 2]%Z).
Proof. apply (mergeSortedArrays_any_input [5; 1]%Z [4; 2]%Z 4). simpl. lia. Defined.
End MoreOnVectors.

(** ** M04: the strings [isValidParentheses] accepts *)

(** The pairs of brackets. *)
Inductive matching : ascii -> ascii -> Prop :=
| match_round : matching "(" ")"
| match_curly : matching "{" "}"
| match_square : matching "[" "]".

(** The well-bracketed strings. *)
Inductive balanced : string -> Prop :=
| balanced_empty : balanced ""
| balanced_wrap o c s :
    matching o c -> balanced s -> balanced (String o (String.append s (String c "")))
| balanced_append s t :
    balanced s -> balanced t -> balanced (String.append s t).

Fixpoint only_brackets (s : string) : bool :=
  match s with
  | EmptyString => true
  | String c s' =>
      (M04.opener c || Ascii.eqb c ")" || Ascii.eqb c "}" || Ascii.eqb c "]")
      && only_brackets s'
  end.

(** [closes stk s]: [s] closes the openers of the stack [stk], top first,
    with well-bracketed strings in between and after. *)
Inductive closes : list ascii -> string -> Prop :=
| closes_done s : balanced s -> closes [] s
| closes_top o stk b c s :
    balanced b -> matching o c -> closes stk s ->
    closes (o :: stk) (String.append b (String c s)).

Section Parentheses.

Lemma append_nil (t : string) : String.append "" t = t.
Proof. reflexivity. Qed.

Lemma append_cons (c : ascii) (s t : string) :
  String.append (String c s) t = String c (String.append s t).
Proof. reflexivity. Qed.

Lemma append_assoc (s t u : string) :
  String.append (String.append s t) u = String.append s (String.append t u).
Proof.
  induction s as [|c s IH]; [reflexivity|].
  rewrite !append_cons, IH. reflexivity.
Qed.

Lemma append_empty_r (s : string) : String.append s "" = s.
Proof.
  induction s as [|c s IH]; [reflexivity|]. rewrite append_cons, IH. reflexivity.
Qed.

Lemma matching_scan (o c : ascii) :
  matching o c -> M04.opener o = true /\ M04.opener c = false /\ M04.mismatch c o = false.
Proof. destruct 1; repeat split. Qed.

Lemma scan_balanced (s : string) :
  balanced s -> forall rest stk, M04.scan (String.append s rest) stk = M04.scan rest stk.
Proof.
  induction 1 as [|o c s Hm _ IH|s t _ IHs _ IHt]; intros rest stk.
  - reflexivity.
  - destruct (matching_scan o c Hm) as (Ho & Hc & Hmis).
    rewrite append_cons. cbn [M04.scan]. rewrite Ho, append_assoc, IH.
    rewrite append_cons, append_nil. cbn [M04.scan]. rewrite Hc, Hmis. reflexivity.
  - rewrite append_assoc, IHs, IHt. reflexivity.
Qed.

Lemma closes_prepend (b : string) (stk : list ascii) (s : string) :
  balanced b -> closes stk s -> closes stk (String.append b s).
Proof.
  intros Hb Hc. destruct Hc as [s Hs|o stk b' c s Hb' Hm Hc].
  - constructor. apply balanced_append; assumption.
  - rewrite <- append_assoc. constructor; [apply balanced_append| |]; assumption.
Qed.

Lemma closer_matching (c top : ascii) :
  (Ascii.eqb c ")" || Ascii.eqb c "}" || Ascii.eqb c "]") = true ->
  M04.mismatch c top = false -> matching top c.
Proof.
  intros Hbr Hmis. unfold M04.mismatch in Hmis.
  destruct (Ascii.eqb_spec c ")") as [->|_].
  { simpl in Hmis. destruct (Ascii.eqb_spec top "(") as [->|_]; [constructor|discriminate]. }
  destruct (Ascii.eqb_spec c "}") as [->|_].
  { simpl in Hmis. destruct (Ascii.eqb_spec top "{") as [->|_]; [constructor|discriminate]. }
  destruct (Ascii.eqb_spec c "]") as [->|_]; [|discriminate].
  simpl in Hmis. destruct (Ascii.eqb_spec top "[") as [->|_]; [constructor|discriminate].
Qed.

Lemma scan_closes (s : string) :
  only_brackets s = true -> forall stk, M04.scan s stk = true -> closes stk s.
Proof.
  induction s as [|c s IH]; intros Hbr stk Hscan.
  - simpl in Hscan. destruct stk; [|discriminate]. constructor. constructor.
  - cbn [only_brackets] in Hbr. apply andb_true_iff in Hbr as [Hc Hbr].
    cbn [M04.scan] in Hscan. destruct (M04.opener c) eqn:Hop.
    + specialize (IH Hbr (c :: stk) Hscan).
      inversion IH as [|o stk' b c' s' Hb Hm Hrest]; subst.
      replace (String c (String.append b (String c' s')))
        with (String.append (String c (String.append b (String c' ""))) s').
      * apply closes_prepend; [|exact Hrest]. apply balanced_wrap; assumption.
      * rewrite append_cons, append_assoc, append_cons, append_nil. reflexivity.
    + destruct stk as [|top stk]; [discriminate|].
      destruct (M04.mismatch c top) eqn:Hmis; [discriminate|].
      apply (closes_top top stk "" c s);
        [apply balanced_empty | apply closer_matching; [exact Hc | exact Hmis]
        | apply IH; assumption].
Qed.

(** X13: [isValidParentheses] accepts every well-bracketed string, and a
    string made of brackets only is accepted only if it is
    well-bracketed. *)
Theorem isValidParentheses_balanced (s : string) :
  (balanced s -> M04.isValidParentheses s = true) /\
  (only_brackets s = true -> M04.isValidParentheses s = true -> balanced s).
Proof.
  unfold M04.isValidParentheses. split.
  - intros Hb. rewrite <- (append_empty_r s), scan_balanced by exact Hb. reflexivity.
  - intros Hbr Hscan. pose proof (scan_closes s Hbr [] Hscan) as Hc.
    inversion Hc. assumption.
Qed.

Lemma isValidParentheses_balanced_witness :
  balanced "([]{})" /\ M04.isValidParentheses "([]{})" = true.
Proof.
  assert (H : balanced "([]{})").
  { apply (balanced_wrap "(" ")" "[]{}" match_round).
    apply (balanced_append "[]" "{}").
    - apply (balanced_wrap "[" "]" "" match_square balanced_empty).
    - apply (balanced_wrap "{" "}" "" match_curly balanced_empty). }
  split; [exact H | apply (proj1 (isValidParentheses_balanced "([]{})") H)].
Defined.
End Parentheses.

(** ** H02: wordBreak *)

Module H02.

(** Strings are lists of characters here; [s.substr(pos, len)]. *)
Definition substr (s : list ascii) (pos len : nat) : list ascii :=
  take len (drop pos s).

(** [for (size_t j = 0; j < i; ++j)] with its [break], on the values of
    [j] still to come.  [wordSet.count(w)] tests that [w] is one of the
    words the set was built from. *)
Fixpoint inner (s : list ascii) (wordDict : list (list ascii)) (i : nat)
    (dp : list bool) (js : list nat) : list bool :=
  match js with
  | [] => dp
  | j :: js' =>
      if default false (dp !! j) && bool_decide (substr s j (i - j) ∈ wordDict)
      then <[i := true]> dp
      else inner s wordDict i dp js'
  end.

Definition wordBreak (s : list ascii) (wordDict : list (list ascii)) : bool :=
  let dp := replicate (S (length s)) false in
  let dp := <[0 := true]> dp in
  let dp := foldl (fun dp i => inner s wordDict i dp (seq 0 i)) dp (seq 1 (length s)) in
  default false (dp !! length s).
End H02.

(** The strings that are a concatenation of words of the dictionary. *)
Inductive segmented (dict : list (list ascii)) : list ascii -> Prop :=
| segmented_nil : segmented dict []
| segmented_cons w t : w ∈ dict -> segmented dict t -> segmented dict (w ++ t).

Section WordBreak.
Variable s : list ascii.
Variable dict : list (list ascii).

Lemma segmented_snoc (t w : list ascii) :
  segmented dict t -> w ∈ dict -> segmented dict (t ++ w).
Proof.
  intros Ht Hw. induction Ht as [|w' t' Hw' _ IH].
  - rewrite <- (app_nil_r w). simpl. apply (segmented_cons dict w []); [exact Hw | constructor].
  - rewrite <- app_assoc. constructor; assumption.
Qed.

Lemma segmented_last (l : list ascii) :
  segmented dict l -> l <> [] ->
  exists t w, l = t ++ w /\ w <> [] /\ segmented dict t /\ w ∈ dict.
Proof.
  induction 1 as [|w t Hw Ht IH]; [congruence|]. intros Hne.
  destruct t as [|c t].
  - exists [], w. rewrite app_nil_r in *.
    split; [reflexivity|]. split; [exact Hne|]. split; [constructor | exact Hw].
  - destruct IH as (t' & w' & E & Hw' & Ht' & Hin); [discriminate|].
    exists (w ++ t'), w'. rewrite E, app_assoc.
    split; [reflexivity|]. split; [exact Hw'|].
    split; [constructor; assumption | exact Hin].
Qed.

(** The recurrence of the table. *)
Lemma segmented_prefix (i : nat) :
  1 <= i <= length s ->
  segmented dict (take i s) <->
  exists j, j < i /\ segmented dict (take j s) /\ H02.substr s j (i - j) ∈ dict.
Proof.
  intros Hi. unfold H02.substr. split.
  - intros Hseg. destruct (segmented_last _ Hseg) as (t & w & E & Hw & Ht & Hin).
    { intros E. apply (f_equal length) in E. rewrite length_take in E. simpl in E. lia. }
    assert (Hlen : length t + length w = i).
    { apply (f_equal length) in E. rewrite length_take, length_app in E. lia. }
    assert (length w <> 0) by (destruct w; [congruence | simpl; lia]).
    exists (length t).
    assert (Et : take (length t) s = t).
    { replace (length t) with (min (length t) i) at 1 by lia.
      rewrite <- take_take, E. apply take_app_length. }
    assert (Ew : take (i - length t) (drop (length t) s) = w).
    { rewrite take_drop_commute. replace (length t + (i - length t)) with i by lia.
      rewrite E, drop_app_length. reflexivity. }
    rewrite Et, Ew. split; [lia|]. split; assumption.
  - intros (j & Hj & Hseg & Hin).
    replace (take i s) with (take j s ++ take (i - j) (drop j s)).
    + apply segmented_snoc; assumption.
    + rewrite take_take_drop. f_equal. lia.
Qed.

Lemma inner_spec (i : nat) (dp : list bool) (js : list nat) :
  H02.inner s dict i dp js =
  if decide (Exists (fun j => dp !! j = Some true /\ H02.substr s j (i - j) ∈ dict) js)
  then <[i := true]> dp else dp.
Proof.
  induction js as [|j js IH]; cbn [H02.inner].
  - case_decide as Hex; [|reflexivity]. inversion Hex.
  - destruct (decide (dp !! j = Some true /\ H02.substr s j (i - j) ∈ dict)) as [Hj|Hj].
    + destruct Hj as [Hdp Hin]. rewrite Hdp. simpl.
      rewrite bool_decide_eq_true_2 by exact Hin.
      clear IH. case_decide as Hnex; [reflexivity|].
      exfalso. apply Hnex. left. split; assumption.
    + assert (Hc : default false (dp !! j)
                   && bool_decide (H02.substr s j (i - j) ∈ dict) = false).
      { apply andb_false_iff.
        destruct (dp !! j) as [[|]|] eqn:Ej; simpl; auto.
        right. apply bool_decide_eq_false_2. intros Hin. apply Hj. split; [reflexivity | exact Hin]. }
      rewrite Hc, IH. clear IH.
      repeat case_decide; try reflexivity; exfalso;
        match goal with
        | H : ~ Exists _ (j :: js), H' : Exists _ js |- _ => apply H; right; exact H'
        | H : Exists _ (j :: js), Hn : ~ Exists _ js |- _ =>
            apply Exists_cons in H as [Hh|Ht]; [exact (Hj Hh) | exact (Hn Ht)]
        end.
Qed.

Definition wordBreak_inv (i : nat) (dp : list bool) : Prop :=
  length dp = S (length s) /\
  (forall k, k < i -> k <= length s ->
             (dp !! k = Some true <-> segmented dict (take k s))) /\
  (forall k, i <= k -> k <= length s -> dp !! k = Some false).

Lemma wordBreak_step (i : nat) (dp : list bool) :
  1 <= i <= length s -> wordBreak_inv i dp ->
  wordBreak_inv (S i) (H02.inner s dict i dp (seq 0 i)).
Proof.
  intros Hi (Hlen & Hlow & Hhigh). rewrite inner_spec.
  assert (Hiff : Exists (fun j => dp !! j = Some true /\
                                  H02.substr s j (i - j) ∈ dict) (seq 0 i)
                 <-> segmented dict (take i s)).
  { rewrite segmented_prefix by exact Hi. rewrite Exists_exists. split.
    - intros (j & Hj & Hdp & Hin). apply elem_of_seq in Hj. exists j.
      split; [lia|]. split; [apply Hlow; [lia | lia | exact Hdp] | exact Hin].
    - intros (j & Hj & Hseg & Hin). exists j.
      split; [apply elem_of_seq; lia|].
      split; [apply Hlow; [lia | lia | exact Hseg] | exact Hin]. }
  case_decide as Hex.
  - split; [rewrite length_insert; exact Hlen|]. split.
    + intros k Hk Hkn. destruct (decide (k = i)) as [->|Hne].
      * rewrite list_lookup_insert_eq by lia. split; [intros _; apply Hiff, Hex | reflexivity].
      * rewrite list_lookup_insert_ne by lia. apply Hlow; lia.
    + intros k Hk Hkn. rewrite list_lookup_insert_ne by lia. apply Hhigh; lia.
  - split; [exact Hlen|]. split.
    + intros k Hk Hkn. destruct (decide (k = i)) as [->|Hne].
      * rewrite (Hhigh i) by lia. split; [discriminate|].
        intros Hseg. exfalso. apply Hex, Hiff, Hseg.
      * apply Hlow; lia.
    + intros k Hk Hkn. apply Hhigh; lia.
Qed.

(** X14: [wordBreak(s, wordDict)] is [true] exactly when [s] is a
    concatenation of words of the dictionary (the empty string is, with
    no word at all). *)
Theorem wordBreak_spec : H02.wordBreak s dict = true <-> segmented dict s.
Proof.
  unfold H02.wordBreak.
  pose proof (foldl_seq_inv (fun dp i => H02.inner s dict i dp (seq 0 i))
                wordBreak_inv 1 (length s)
                (<[0 := true]> (replicate (S (length s)) false))) as H.
  destruct H as (Hlen & Hlow & _).
  - split; [rewrite length_insert, length_replicate; reflexivity|]. split.
    + intros k Hk _. replace k with 0 by lia. simpl. split; [constructor | reflexivity].
    + intros k Hk Hkn. rewrite list_lookup_insert_ne by lia.
      apply lookup_replicate. split; [reflexivity | lia].
  - intros i dp Hi. apply wordBreak_step. lia.
  - specialize (Hlow (length s) ltac:(lia) ltac:(lia)).
    rewrite firstn_all in Hlow. rewrite <- Hlow.
    destruct (_ !! length s) as [[|]|]; simpl; split; congruence.
Qed.
End WordBreak.

(** ** H01 (hard): longestIncreasingSubsequence *)

Module LIS.
Local Open Scope Z_scope.

(** [if (nums[i] > nums[j]) dp[i] = std::max(dp[i], dp[j] + 1);] *)
Definition inner (nums : list Z) (i : nat) (dp : list Z) (j : nat) : list Z :=
  match nums !! i, nums !! j, dp !! i, dp !! j with
  | Some x, Some y, Some di, Some dj =>
      if x >? y then <[i := Z.max di (Int32.add dj 1)]> dp else dp
  | _, _, _, _ => dp
  end.

(** The body of the outer loop on the pair of [dp] and [max_length]. *)
Definition outer (nums : list Z) (st : list Z * Z) (i : nat) : list Z * Z :=
  let dp := foldl (inner nums i) (fst st) (seq 0 i) in
  (dp, Z.max (snd st) (default 0 (dp !! i))).

Definition longestIncreasingSubsequence (nums : list Z) : Z :=
  match nums with
  | [] => 0
  | _ :: _ =>
      snd (foldl (outer nums) (replicate (length nums) 1, 1) (seq 1 (length nums - 1)))
  end.
End LIS.

(** [chain nums i len]: some strictly increasing subsequence of [nums]
    of length [len] ends at index [i]. *)
Inductive chain (nums : list Z) : nat -> nat -> Prop :=
| chain_one i x : nums !! i = Some x -> chain nums i 1
| chain_ext j i len x y :
    chain nums j len -> j < i -> nums !! j = Some y -> nums !! i = Some x ->
    (y < x)%Z -> chain nums i (S len).

Section LISProofs.
Variable nums : list Z.
Hypothesis size_fits : (Z.of_nat (length nums) <= Int32.INT_MAX)%Z.

Lemma chain_bounds (i len : nat) : chain nums i len -> i < length nums /\ 1 <= len <= S i.
Proof.
  induction 1 as [i x Hx | j i len x y _ IH Hji Hy Hx Hlt].
  - apply lookup_lt_Some in Hx. lia.
  - apply lookup_lt_Some in Hx. lia.
Qed.

(** The longest one ending at [i] has length [len]. *)
Definition best (i len : nat) : Prop :=
  chain nums i len /\ forall len', chain nums i len' -> len' <= len.

(** The chains ending at [i] that consist of [i] alone or come from an
    index below [j]. *)
Definition chain_below (i j len' : nat) : Prop :=
  len' = 1 \/
  exists j' len x y, j' < j /\ chain nums j' len /\ nums !! j' = Some y /\
                     nums !! i = Some x /\ (y < x)%Z /\ len' = S len.

Lemma chain_below_all (i len : nat) : chain nums i len -> chain_below i i len.
Proof.
  destruct 1 as [i x Hx | j i len x y Hc Hji Hy Hx Hlt]; [left; reflexivity|].
  right. exists j, len, x, y. repeat split; assumption.
Qed.

Definition lis_inner_inv (i : nat) (dp0 : list Z) (j : nat) (dp : list Z) : Prop :=
  length dp = length nums /\
  (forall k, k <> i -> dp !! k = dp0 !! k) /\
  exists len, dp !! i = Some (Z.of_nat len) /\ chain nums i len /\
              forall len', chain_below i j len' -> len' <= len.

Lemma lis_inner_step (i : nat) (dp0 : list Z) (j : nat) (dp : list Z) :
  i < length nums -> j < i ->
  (forall k, k < i -> exists len, dp0 !! k = Some (Z.of_nat len) /\ best k len) ->
  lis_inner_inv i dp0 j dp -> lis_inner_inv i dp0 (S j) (LIS.inner nums i dp j).
Proof using size_fits.
  intros Hi Hj Hdone (Hlen & Hsame & len & Hdp & Hchain & Hmax).
  destruct (lookup_lt_is_Some_2 nums i Hi) as [x Hx].
  destruct (lookup_lt_is_Some_2 nums j ltac:(lia)) as [y Hy].
  destruct (Hdone j Hj) as (lj & Hdj & Hcj & Hbj).
  unfold LIS.inner. rewrite Hx, Hy, Hdp, (Hsame j) by lia. rewrite Hdj.
  destruct (Z.gtb_spec x y) as [Hgt|Hle].
  - assert (Eadd : Int32.add (Z.of_nat lj) 1 = Z.of_nat (S lj)).
    { pose proof (chain_bounds j lj Hcj) as Hb.
      unfold Int32.add. rewrite wrap_exact; [lia|].
      unfold Int32.in_range, Int32.INT_MIN, Int32.INT_MAX in *. lia. }
    rewrite Eadd. split; [rewrite length_insert; exact Hlen|]. split.
    { intros k Hk. rewrite list_lookup_insert_ne by lia. apply Hsame, Hk. }
    exists (Nat.max len (S lj)). split; [|split].
    + rewrite list_lookup_insert_eq by lia. f_equal. lia.
    + destruct (Nat.max_spec len (S lj)) as [[_ ->] | [_ ->]]; [|exact Hchain].
      eapply chain_ext; eassumption || lia.
    + intros len' [-> | (j' & l' & x' & y' & Hj' & Hc' & Hy' & Hx' & Hlt' & ->)].
      * pose proof (chain_bounds i len Hchain). lia.
      * destruct (decide (j' = j)) as [->|Hne].
        -- specialize (Hbj l' Hc'). lia.
        -- assert (S l' <= len); [|lia]. apply Hmax. right.
           exists j', l', x', y'. repeat split; try assumption. lia.
  - split; [exact Hlen|]. split; [exact Hsame|].
    exists len. split; [exact Hdp|]. split; [exact Hchain|].
    intros len' [-> | (j' & l' & x' & y' & Hj' & Hc' & Hy' & Hx' & Hlt' & ->)].
    + pose proof (chain_bounds i len Hchain). lia.
    + destruct (decide (j' = j)) as [->|Hne].
      * rewrite Hx in Hx'. rewrite Hy in Hy'. injection Hx' as <-. injection Hy' as <-. lia.
      * apply Hmax. right. exists j', l', x', y'. repeat split; try assumption. lia.
Qed.

Definition lis_outer_inv (i : nat) (st : list Z * Z) : Prop :=
  length (fst st) = length nums /\
  (forall k, k < i -> exists len, fst st !! k = Some (Z.of_nat len) /\ best k len) /\
  (forall k, i <= k -> k < length nums -> fst st !! k = Some 1%Z) /\
  (exists k, k < i /\ fst st !! k = Some (snd st)) /\
  (forall k v, k < i -> fst st !! k = Some v -> (v <= snd st)%Z).

Lemma lis_outer_step (i : nat) (st : list Z * Z) :
  1 <= i < length nums -> lis_outer_inv i st -> lis_outer_inv (S i) (LIS.outer nums st i).
Proof using size_fits.
  intros Hi (Hlen & Hdone & Hrest & (km & Hkm & Hmax) & Hub).
  destruct st as [dp0 ml]. simpl in *. unfold LIS.outer. simpl.
  pose proof (foldl_seq_inv (LIS.inner nums i) (lis_inner_inv i dp0) 0 i dp0) as H.
  destruct H as (Hlen' & Hsame & len & Hdp & Hchain & Hbest).
  - split; [exact Hlen|]. split; [reflexivity|].
    destruct (lookup_lt_is_Some_2 nums i ltac:(lia)) as [x Hx].
    exists 1. split; [apply Hrest; lia|]. split; [econstructor; exact Hx|].
    intros len' [-> | (j' & _ & _ & _ & Hj' & _)]; lia.
  - intros j dp Hj. apply lis_inner_step; [lia | lia | exact Hdone].
  - simpl in Hbest. set (dp := foldl (LIS.inner nums i) dp0 (seq 0 i)) in *.
    rewrite Hdp. simpl. split; [exact Hlen'|]. split; [|split; [|split]].
    + intros k Hk. destruct (decide (k = i)) as [->|Hne].
      * exists len. split; [exact Hdp|]. split; [exact Hchain|].
        intros len' Hc. apply Hbest, chain_below_all, Hc.
      * rewrite Hsame by exact Hne. apply Hdone. lia.
    + intros k Hk Hkn. rewrite Hsame by lia. apply Hrest; lia.
    + destruct (Z.max_spec ml (Z.of_nat len)) as [[_ ->] | [_ ->]].
      * exists i. split; [lia | exact Hdp].
      * exists km. split; [lia|]. rewrite Hsame by lia. exact Hmax.
    + intros k v Hk Hv. cbn [fst snd] in *. destruct (decide (k = i)) as [Ek|Hne].
      * subst k. assert (v = Z.of_nat len) by congruence. lia.
      * rewrite Hsame in Hv by exact Hne. specialize (Hub k v ltac:(lia) Hv). lia.
Qed.

(** The loops end with the length of a longest chain. *)
Lemma lis_chain :
  1 <= length nums ->
  exists len,
    snd (foldl (LIS.outer nums) (replicate (length nums) 1%Z, 1%Z)
           (seq 1 (length nums - 1))) = Z.of_nat len /\
    (exists i, chain nums i len) /\
    (forall i len', chain nums i len' -> len' <= len).
Proof using size_fits.
  intros Hn.
  destruct (lookup_lt_is_Some_2 nums 0 ltac:(lia)) as [a Ha].
  pose proof (foldl_seq_inv (LIS.outer nums) lis_outer_inv 1 (length nums - 1)
                (replicate (length nums) 1%Z, 1%Z)) as H.
  replace (1 + (length nums - 1)) with (length nums) in H by lia.
  destruct H as (Hlen & Hdone & _ & (km & Hkm & Hmax) & Hub).
  - split; [simpl; apply length_replicate|]. simpl. split; [|split; [|split]].
    + intros k Hk. assert (k = 0) as -> by lia. exists 1.
      split; [apply lookup_replicate; split; [reflexivity | lia]|].
      split; [apply (chain_one nums 0 a Ha)|].
      intros len' Hc. pose proof (chain_bounds 0 len' Hc). lia.
    + intros k _ Hk. apply lookup_replicate. split; [reflexivity | lia].
    + exists 0. split; [lia|]. apply lookup_replicate. split; [reflexivity | lia].
    + intros k v Hk Hv. apply lookup_replicate in Hv as [-> _]. lia.
  - intros i st Hi. apply lis_outer_step. lia.
  - set (st := foldl _ _ _) in *.
    destruct (Hdone km Hkm) as (len & Hdp & Hchain & _).
    exists len. split; [congruence|]. split; [exists km; exact Hchain|].
    intros i len' Hc. pose proof (chain_bounds i len' Hc) as [Hi _].
    destruct (Hdone i Hi) as (li & Hdi & _ & Hbi).
    specialize (Hbi len' Hc). specialize (Hub i _ Hi Hdi).
    rewrite Hmax in Hdp. injection Hdp as Hdp. lia.
Qed.
End LISProofs.

Section ChainsAndSubsequences.
Local Open Scope Z_scope.

Lemma sorted_snoc (l : list Z) (x : Z) :
  StronglySorted Z.lt l -> Forall (fun a => a < x) l -> StronglySorted Z.lt (l ++ [x]).
Proof.
  induction 1 as [|a l Hl IH Ha]; intros Hx; simpl.
  - repeat constructor.
  - apply Forall_cons in Hx as [Hax Hx]. constructor; [apply IH, Hx|].
    apply Forall_app. split; [exact Ha | repeat constructor; exact Hax].
Qed.

Lemma sorted_below_last (l : list Z) (y : Z) :
  StronglySorted Z.lt l -> last l = Some y -> Forall (fun a => a <= y) l.
Proof.
  induction 1 as [|a l Hl IH Ha]; intros Hy; [constructor|].
  destruct l as [|b l].
  - simpl in Hy. injection Hy as ->. repeat constructor. lia.
  - rewrite last_cons_cons in Hy. specialize (IH Hy). constructor; [|exact IH].
    apply Forall_cons in Ha as [Hab _]. apply Forall_cons in IH as [Hby _]. lia.
Qed.

Lemma sorted_snoc_inv (l : list Z) (x : Z) :
  StronglySorted Z.lt (l ++ [x]) -> StronglySorted Z.lt l /\ Forall (fun a => a < x) l.
Proof.
  induction l as [|a l IH]; simpl; intros H; [split; constructor|].
  apply StronglySorted_inv in H as [H Ha]. destruct (IH H) as [Hl Hx].
  apply Forall_app in Ha as [Ha Hax]. apply Forall_cons in Hax as [Hax _].
  split; constructor; assumption.
Qed.

Lemma chain_subsequence (nums : list Z) (i len : nat) :
  chain nums i len ->
  exists l, l `sublist_of` take (S i) nums /\ StronglySorted Z.lt l /\
            length l = len /\ last l = nums !! i.
Proof.
  induction 1 as [i x Hx | j i len x y _ IH Hji Hy Hx Hlt].
  - exists [x]. rewrite (take_S_r _ _ _ Hx), Hx.
    split; [apply sublist_inserts_l; reflexivity|].
    split; [repeat constructor|]. split; reflexivity.
  - destruct IH as (l & Hsub & Hsort & Hlen & Hlast).
    exists (l ++ [x]). rewrite (take_S_r _ _ _ Hx), Hx.
    split; [|split; [|split]].
    + apply sublist_app; [|reflexivity].
      transitivity (take (S j) nums); [exact Hsub|].
      replace (S j) with (min (S j) i) by lia. rewrite <- take_take. apply sublist_take.
    + apply sorted_snoc; [exact Hsort|]. rewrite Hy in Hlast.
      eapply Forall_impl; [apply (sorted_below_last l y Hsort Hlast)|].
      simpl. intros a Ha. lia.
    + rewrite length_app, Hlen. simpl. lia.
    + apply last_snoc.
Qed.

Lemma subsequence_chain (nums : list Z) (k : nat) (l : list Z) :
  l `sublist_of` take k nums -> StronglySorted Z.lt l -> l <> [] ->
  exists i x, (i < k)%nat /\ chain nums i (length l) /\ nums !! i = Some x /\
              last l = Some x.
Proof.
  revert l. induction k as [|k IH]; intros l Hsub Hsort Hne.
  - simpl in Hsub. apply sublist_nil_r in Hsub. congruence.
  - destruct (nums !! k) as [a|] eqn:Ek.
    2:{ apply lookup_ge_None in Ek. rewrite take_ge in Hsub by lia.
        rewrite <- (take_ge nums k) in Hsub by lia.
        destruct (IH l Hsub Hsort Hne) as (i & x & Hi & H). exists i, x. split; [lia | exact H]. }
    rewrite (take_S_r _ _ _ Ek) in Hsub.
    apply sublist_app_r in Hsub as (l1 & l2 & -> & Hsub1 & Hsub2).
    apply sublist_cons_r in Hsub2 as [Hnil | (l2' & -> & Hnil)];
      apply sublist_nil_r in Hnil; subst.
    + rewrite app_nil_r in *.
      destruct (IH l1 Hsub1 Hsort Hne) as (i & x & Hi & H). exists i, x. split; [lia | exact H].
    + exists k, a. split; [lia|]. rewrite last_snoc.
      split; [|split; [exact Ek | reflexivity]].
      destruct l1 as [|b l1]; [apply (chain_one nums k a Ek)|].
      apply sorted_snoc_inv in Hsort as [Hsort Hlt].
      destruct (IH (b :: l1) Hsub1 Hsort ltac:(discriminate)) as (i & x & Hi & Hc & Hx & Hlast).
      rewrite length_app. simpl length. rewrite Nat.add_1_r.
      apply (chain_ext nums i k _ a x); try assumption.
      rewrite Forall_forall in Hlt. apply Hlt.
      apply last_Some_elem_of. exact Hlast.
Qed.

(** X15: if the size of [nums] fits an [int],
    [longestIncreasingSubsequence(nums)] is the length of a strictly
    increasing subsequence of [nums], and no strictly increasing
    subsequence is longer; on the empty vector it is [0]. *)
Theorem longestIncreasingSubsequence_spec (nums : list Z) :
  Z.of_nat (length nums) <= Int32.INT_MAX ->
  (exists l, l `sublist_of` nums /\ StronglySorted Z.lt l /\
             Z.of_nat (length l) = LIS.longestIncreasingSubsequence nums) /\
  (forall l, l `sublist_of` nums -> StronglySorted Z.lt l ->
             Z.of_nat (length l) <= LIS.longestIncreasingSubsequence nums).
Proof.
  intros Hsize. destruct nums as [|a nums'] eqn:E.
  { split.
    - exists []. split; [reflexivity|]. split; [constructor | reflexivity].
    - intros l Hl _. apply sublist_nil_r in Hl as ->. reflexivity. }
  rewrite <- E in *.
  assert (Hn : (1 <= length nums)%nat) by (rewrite E; simpl; lia).
  destruct (lis_chain nums Hsize Hn) as (len & Hres & (i & Hc) & Hmax).
  assert (Eres : LIS.longestIncreasingSubsequence nums = Z.of_nat len).
  { rewrite <- Hres, E. reflexivity. }
  rewrite Eres. split.
  - destruct (chain_subsequence nums i len Hc) as (l & Hsub & Hsort & Hlen & _).
    exists l. split; [|split; [exact Hsort | congruence]].
    transitivity (take (S i) nums); [exact Hsub | apply sublist_take].
  - intros l Hsub Hsort. destruct l as [|b l]; [simpl; lia|].
    destruct (subsequence_chain nums (length nums) (b :: l)) as (j & x & _ & Hcj & _);
      [rewrite firstn_all; exact Hsub | exact Hsort | discriminate|].
    specialize (Hmax j _ Hcj). lia.
Qed.

Lemma longestIncreasingSubsequence_spec_witness :
  (exists l, l `sublist_of` [10; 9; 2; 5; 3; 7; 101; 18] /\ StronglySorted Z.lt l /\
             Z.of_nat (length l) =
             LIS.longestIncreasingSubsequence [10; 9; 2; 5; 3; 7; 101; 18]) /\
  (forall l, l `sublist_of` [10; 9; 2; 5; 3; 7; 101; 18] -> StronglySorted Z.lt l ->
             Z.of_nat (length l) <=
             LIS.longestIncreasingSubsequence [10; 9; 2; 5; 3; 7; 101; 18]).
Proof.
  apply (longestIncreasingSubsequence_spec [10; 9; 2; 5; 3; 7; 101; 18]).
  unfold Int32.INT_MAX. simpl. lia.
Defined.
End ChainsAndSubsequences.

(** ** H06: more on minDistance *)

(** The distance between the prefixes of lengths [i] and [j], by the
    recurrence of the table. *)
Fixpoint prefix_distance (w1 w2 : list ascii) (i : nat) : nat -> Z :=
  fix inner (j : nat) : Z :=
    match i, j with
    | O, _ => Z.of_nat j
    | _, O => Z.of_nat i
    | S i', S j' =>
        if bool_decide (w1 !! i' = w2 !! j') then prefix_distance w1 w2 i' j'
        else Z.min (prefix_distance w1 w2 i' j + 1)
               (Z.min (inner j' + 1) (prefix_distance w1 w2 i' j' + 1))
    end%Z.

Section PrefixDistance.
Local Open Scope Z_scope.
Variables w1 w2 : list ascii.

Lemma prefix_distance_0_l (j : nat) : prefix_distance w1 w2 0 j = Z.of_nat j.
Proof. destruct j; reflexivity. Qed.

Lemma prefix_distance_0_r (i : nat) : prefix_distance w1 w2 i 0 = Z.of_nat i.
Proof. destruct i; reflexivity. Qed.

Lemma prefix_distance_S (i j : nat) :
  prefix_distance w1 w2 (S i) (S j) =
  if bool_decide (w1 !! i = w2 !! j) then prefix_distance w1 w2 i j
  else Z.min (prefix_distance w1 w2 i (S j) + 1)
         (Z.min (prefix_distance w1 w2 (S i) j + 1) (prefix_distance w1 w2 i j + 1)).
Proof. reflexivity. Qed.

Lemma prefix_distance_bounds (i j : nat) :
  Z.abs (Z.of_nat i - Z.of_nat j) <= prefix_distance w1 w2 i j
  <= Z.max (Z.of_nat i) (Z.of_nat j).
Proof.
  revert j. induction i as [|i IHi]; intros j; [rewrite prefix_distance_0_l; lia|].
  induction j as [|j IHj]; [rewrite prefix_distance_0_r; lia|].
  rewrite prefix_distance_S.
  pose proof (IHi j). pose proof (IHi (S j)).
  case_bool_decide; lia.
Qed.
End PrefixDistance.

Lemma prefix_distance_sym (w1 w2 : list ascii) (i j : nat) :
  prefix_distance w1 w2 i j = prefix_distance w2 w1 j i.
Proof.
  revert j. induction i as [|i IHi]; intros j;
    [rewrite prefix_distance_0_l, prefix_distance_0_r; reflexivity|].
  induction j as [|j IHj];
    [rewrite prefix_distance_0_l, prefix_distance_0_r; reflexivity|].
  rewrite !prefix_distance_S, IHj, !IHi.
  repeat case_bool_decide; try congruence; lia.
Qed.

Lemma prefix_distance_zero (w1 w2 : list ascii) (i j : nat) :
  (i <= length w1)%nat -> (j <= length w2)%nat ->
  prefix_distance w1 w2 i j = 0%Z <-> take i w1 = take j w2.
Proof.
  revert j. induction i as [|i IHi]; intros j Hi Hj.
  { rewrite prefix_distance_0_l. split.
    - intros E. replace j with 0%nat by lia. reflexivity.
    - intros E. apply (f_equal length) in E. rewrite !length_take in E. lia. }
  destruct j as [|j].
  { rewrite prefix_distance_0_r. split; [lia|].
    intros E. apply (f_equal length) in E. rewrite !length_take in E. lia. }
  rewrite prefix_distance_S.
  destruct (lookup_lt_is_Some_2 w1 i ltac:(lia)) as [a Ha].
  destruct (lookup_lt_is_Some_2 w2 j ltac:(lia)) as [b Hb].
  rewrite (take_S_r _ _ _ Ha), (take_S_r _ _ _ Hb), Ha, Hb.
  pose proof (prefix_distance_bounds w1 w2 i j).
  pose proof (prefix_distance_bounds w1 w2 i (S j)).
  pose proof (prefix_distance_bounds w1 w2 (S i) j).
  case_bool_decide as E.
  - injection E as ->. rewrite IHi by lia. split; [intros ->; reflexivity|].
    intros E. apply app_inj_tail in E as [E _]. exact E.
  - split; [lia|]. intros E'. apply app_inj_tail in E' as [_ ->]. congruence.
Qed.

Section EditDistanceTable.
Local Open Scope Z_scope.
Variables w1 w2 : list ascii.
Hypothesis sizes_fit : Z.of_nat (length w1) + Z.of_nat (length w2) < Int32.INT_MAX.

Local Abbreviation m := (length w1).
Local Abbreviation n := (length w2).

(** The cells filled when the row [i] is filled up to the column [j]. *)
Definition filled (i j a b : nat) : Prop :=
  (a <= m)%nat /\ (b <= n)%nat /\ ((a < i)%nat \/ b = 0%nat \/ (a = i /\ (b < j)%nat)).

Definition table_inv (i j : nat) (dp : list (list Z)) : Prop :=
  table_shape m n dp /\
  forall a b, filled i j a b -> H06.rd dp a b = prefix_distance w1 w2 a b.

Lemma init_table :
  table_inv 1 0 (H06.init_row n (H06.init_column m (replicate (S m) (replicate (S n) 0)))).
Proof.
  pose proof (table_shape_replicate m n) as Hs0.
  assert (Hcol : table_shape m n (H06.init_column m (replicate (S m) (replicate (S n) 0)))
                 /\ forall a, (a <= m)%nat ->
                      H06.rd (H06.init_column m (replicate (S m) (replicate (S n) 0))) a 0
                      = Z.of_nat a).
  { unfold H06.init_column.
    pose proof (foldl_seq_inv (fun dp i => H06.wr dp i 0 (Z.of_nat i))
      (fun k dp => table_shape m n dp /\
                   forall a, (a < k)%nat -> H06.rd dp a 0 = Z.of_nat a)
      0 (S m) (replicate (S m) (replicate (S n) 0))) as H.
    destruct H as [Hs Hc].
    - split; [exact Hs0 | lia].
    - intros k dp Hk [Hs Hc]. split; [apply table_shape_wr, Hs|].
      intros a Ha. destruct (decide (a = k)) as [->|Hne].
      + rewrite (rd_wr_eq m n); [reflexivity | exact Hs | lia | lia].
      + rewrite rd_wr_ne by congruence. apply Hc. lia.
    - split; [exact Hs|]. intros a Ha. apply Hc. simpl. lia. }
  destruct Hcol as [Hs1 Hcol]. unfold H06.init_row.
  pose proof (foldl_seq_inv (fun dp j => H06.wr dp 0 j (Z.of_nat j))
    (fun k dp => table_shape m n dp /\
                 (forall a, (a <= m)%nat -> H06.rd dp a 0 = Z.of_nat a) /\
                 forall b, (b < k)%nat -> H06.rd dp 0 b = Z.of_nat b)
    0 (S n) (H06.init_column m (replicate (S m) (replicate (S n) 0)))) as H.
  destruct H as (Hs & Hc & Hr).
  - split; [exact Hs1|]. split; [exact Hcol | lia].
  - intros k dp Hk (Hs & Hc & Hr). split; [apply table_shape_wr, Hs|]. split.
    + intros a Ha. destruct (decide ((0, k) = (a, 0))%nat) as [[= <- ->]|Hne].
      * rewrite (rd_wr_eq m n); [reflexivity | exact Hs | lia | lia].
      * rewrite rd_wr_ne by exact Hne. apply Hc, Ha.
    + intros b Hb. destruct (decide (b = k)) as [->|Hne].
      * rewrite (rd_wr_eq m n); [reflexivity | exact Hs | lia | lia].
      * rewrite rd_wr_ne by congruence. apply Hr. lia.
  - split; [exact Hs|]. intros a b (Ha & Hb & Hf).
    destruct a as [|a].
    + rewrite prefix_distance_0_l. apply Hr. simpl. lia.
    + assert (b = 0%nat) as -> by lia. rewrite prefix_distance_0_r. apply Hc, Ha.
Qed.

Lemma cell_step (i j : nat) (dp : list (list Z)) :
  (1 <= i <= m)%nat -> (1 <= j <= n)%nat ->
  table_inv i j dp -> table_inv i (S j) (H06.cell w1 w2 i dp j).
Proof using sizes_fit.
  intros Hi Hj [Hs Hcells].
  assert (Hval : H06.rd (H06.cell w1 w2 i dp j) i j = prefix_distance w1 w2 i j
                 /\ table_shape m n (H06.cell w1 w2 i dp j)
                 /\ forall a b, (a, b) <> (i, j) ->
                      H06.rd (H06.cell w1 w2 i dp j) a b = H06.rd dp a b).
  { unfold H06.cell, H06.char_at.
    destruct i as [|i]; [lia|]. destruct j as [|j]; [lia|].
    replace (S i - 1)%nat with i by lia. replace (S j - 1)%nat with j by lia.
    rewrite prefix_distance_S.
    rewrite (Hcells i j), (Hcells i (S j)), (Hcells (S i) j) by (unfold filled; lia).
    assert (Hadd : forall a b, (a <= m)%nat -> (b <= n)%nat ->
              Int32.add (prefix_distance w1 w2 a b) 1 = prefix_distance w1 w2 a b + 1).
    { intros a b Ha Hb. pose proof (prefix_distance_bounds w1 w2 a b).
      apply wrap_exact. unfold Int32.in_range, Int32.INT_MIN, Int32.INT_MAX in *. lia. }
    rewrite !Hadd by lia.
    case_bool_decide; (split; [apply (rd_wr_eq m n); [exact Hs | lia | lia]|]);
      (split; [apply table_shape_wr, Hs|]); intros a b Hne; apply rd_wr_ne; congruence. }
  destruct Hval as (Hij & Hs' & Hother). split; [exact Hs'|].
  intros a b (Ha & Hb & Hf). destruct (decide ((a, b) = (i, j))) as [[= -> ->]|Hne].
  - exact Hij.
  - rewrite Hother by exact Hne. apply Hcells. unfold filled.
    split; [exact Ha|]. split; [exact Hb|].
    destruct Hf as [Hf | [Hf | [Hf1 Hf2]]]; [auto | auto |].
    right. right. split; [exact Hf1|]. destruct (decide (b = j)) as [->|]; [congruence | lia].
Qed.

Lemma row_step (i : nat) (dp : list (list Z)) :
  (1 <= i <= m)%nat -> table_inv i 0 dp -> table_inv (S i) 0 (H06.fill_row w1 w2 n dp i).
Proof using sizes_fit.
  intros Hi Hinv. unfold H06.fill_row.
  pose proof (foldl_seq_inv (H06.cell w1 w2 i) (table_inv i) 1 n dp) as H.
  destruct H as [Hs Hcells].
  - destruct Hinv as [Hs Hcells]. split; [exact Hs|].
    intros a b (Ha & Hb & Hf). apply Hcells. unfold filled. lia.
  - intros j dp' Hj. apply cell_step; lia.
  - split; [exact Hs|]. intros a b (Ha & Hb & Hf). apply Hcells. unfold filled. lia.
Qed.

(** The table holds the distances of all pairs of prefixes. *)
Lemma table_filled :
  H06.rd (H06.fill w1 w2 m n
            (H06.init_row n (H06.init_column m (replicate (S m) (replicate (S n) 0)))))
         m n
  = prefix_distance w1 w2 m n.
Proof using sizes_fit.
  unfold H06.fill.
  pose proof (foldl_seq_inv (H06.fill_row w1 w2 n) (fun i => table_inv i 0) 1 m
    (H06.init_row n (H06.init_column m (replicate (S m) (replicate (S n) 0))))) as H.
  destruct H as [_ Hcells].
  - apply init_table.
  - intros i dp Hi. apply row_step. lia.
  - apply Hcells. unfold filled. lia.
Qed.
End EditDistanceTable.

Section MinDistanceProperties.
Local Open Scope Z_scope.

(** With sizes below [INT_MAX] the conversions to [int] are exact and the
    call returns the last cell of the table. *)
Lemma minDistance_table (s t : string) :
  Z.of_nat (String.length s) < Int32.INT_MAX ->
  Z.of_nat (String.length t) < Int32.INT_MAX ->
  H06.minDistance s t =
  Some (H06.rd
          (H06.fill (list_ascii_of_string s) (list_ascii_of_string t)
             (String.length s) (String.length t)
             (H06.init_row (String.length t)
                (H06.init_column (String.length s)
                   (replicate (S (String.length s))
                      (replicate (S (String.length t)) 0)))))
          (String.length s) (String.length t)).
Proof.
  intros Hs Ht. unfold H06.minDistance. cbn zeta.
  rewrite !length_list_ascii_of_string.
  rewrite !wrap_exact
    by (unfold Int32.in_range, Int32.INT_MIN, Int32.INT_MAX in *; lia).
  rewrite !Nat2Z.id.
  destruct (Z.leb_spec 0 (Z.of_nat (String.length s))); [|lia].
  destruct (Z.ltb_spec (Z.of_nat (String.length s)) Int32.INT_MAX); [|lia].
  destruct (Z.leb_spec 0 (Z.of_nat (String.length t))); [|lia].
  destruct (Z.ltb_spec (Z.of_nat (String.length t)) Int32.INT_MAX); [|lia].
  reflexivity.
Qed.

Lemma minDistance_prefix_distance (s t : string) :
  Z.of_nat (String.length s) + Z.of_nat (String.length t) < Int32.INT_MAX ->
  H06.minDistance s t =
  Some (prefix_distance (list_ascii_of_string s) (list_ascii_of_string t)
          (String.length s) (String.length t)).
Proof.
  intros Hfit. rewrite minDistance_table by lia. f_equal.
  rewrite <- !length_list_ascii_of_string.
  apply table_filled. rewrite !length_list_ascii_of_string. exact Hfit.
Qed.

(** X16: when the two sizes together fit an [int], [minDistance] returns,
    is symmetric, lies between the difference of the two lengths and the
    larger of them, and [minDistance(s, "")] is the length of [s]. *)
Theorem minDistance_symmetric_bounded (s t : string) :
  Z.of_nat (String.length s) + Z.of_nat (String.length t) < Int32.INT_MAX ->
  exists d,
    H06.minDistance s t = Some d /\ H06.minDistance t s = Some d /\
    Z.abs (Z.of_nat (String.length s) - Z.of_nat (String.length t))
      <= d
      <= Z.max (Z.of_nat (String.length s)) (Z.of_nat (String.length t)) /\
    H06.minDistance s "" = Some (Z.of_nat (String.length s)).
Proof.
  intros Hfit.
  rewrite !minDistance_prefix_distance by (simpl String.length; lia).
  eexists. split; [reflexivity|].
  split; [f_equal; apply prefix_distance_sym|]. split; [apply prefix_distance_bounds|].
  f_equal. apply prefix_distance_0_r.
Qed.

Lemma minDistance_symmetric_bounded_witness :
  exists d,
    H06.minDistance "horse" "ros" = Some d /\ H06.minDistance "ros" "horse" = Some d /\
    Z.abs (Z.of_nat (String.length "horse") - Z.of_nat (String.length "ros"))
      <= d
      <= Z.max (Z.of_nat (String.length "horse")) (Z.of_nat (String.length "ros")) /\
    H06.minDistance "horse" "" = Some (Z.of_nat (String.length "horse")).
Proof.
  apply (minDistance_symmetric_bounded "horse" "ros").
  unfold Int32.INT_MAX. simpl. lia.
Defined.

(** X17: when the two sizes together fit an [int], [minDistance(s, t)]
    returns, and it is [0] only for [s = t]. *)
Theorem minDistance_zero (s t : string) :
  Z.of_nat (String.length s) + Z.of_nat (String.length t) < Int32.INT_MAX ->
  (exists d, H06.minDistance s t = Some d) /\
  (H06.minDistance s t = Some 0 <-> s = t).
Proof.
  intros Hfit. rewrite minDistance_prefix_distance by exact Hfit.
  split; [eexists; reflexivity|].
  pose proof (prefix_distance_zero (list_ascii_of_string s) (list_ascii_of_string t)
                (String.length s) (String.length t)) as Hz.
  rewrite !length_list_ascii_of_string in Hz. specialize (Hz (le_n _) (le_n _)).
  assert (Es : take (String.length s) (list_ascii_of_string s) = list_ascii_of_string s)
    by (rewrite <- length_list_ascii_of_string; apply firstn_all).
  assert (Et : take (String.length t) (list_ascii_of_string t) = list_ascii_of_string t)
    by (rewrite <- length_list_ascii_of_string; apply firstn_all).
  rewrite Es, Et in Hz. split.
  - intros [= E]. apply Hz in E.
    rewrite <- (string_of_list_ascii_of_string s), E.
    apply string_of_list_ascii_of_string.
  - intros ->. f_equal. apply Hz. reflexivity.
Qed.

Lemma minDistance_zero_witness :
  (exists d, H06.minDistance "ros" "ros" = Some d) /\
  (H06.minDistance "ros" "ros" = Some 0 <-> "ros" = "ros").
Proof. apply (minDistance_zero "ros" "ros"). unfold Int32.INT_MAX. simpl. lia. Defined.
End MinDistanceProperties.

Section MinDistanceRecurrence.
Local Open Scope Z_scope.

(** The distance of two prefixes depends on these prefixes only. *)
Lemma prefix_distance_ext (w1 w2 v1 v2 : list ascii) (i j : nat) :
  (forall k, (k < i)%nat -> w1 !! k = v1 !! k) ->
  (forall k, (k < j)%nat -> w2 !! k = v2 !! k) ->
  prefix_distance w1 w2 i j = prefix_distance v1 v2 i j.
Proof.
  revert j. induction i as [|i IHi]; intros j H1 H2.
  - rewrite !prefix_distance_0_l. reflexivity.
  - revert H2. induction j as [|j IHj]; intros H2.
    + rewrite !prefix_distance_0_r. reflexivity.
    + rewrite !prefix_distance_S, (H1 i), (H2 j) by lia.
      rewrite (IHi j), (IHi (S j)), IHj; try reflexivity;
        intros k Hk; (apply H1 || apply H2); lia.
Qed.

Lemma list_ascii_of_string_snoc (s : string) (a : ascii) :
  list_ascii_of_string (String.append s (String a "")) = list_ascii_of_string s ++ [a].
Proof.
  induction s as [|c s IH]; [reflexivity|].
  rewrite append_cons. cbn [list_ascii_of_string]. rewrite IH. reflexivity.
Qed.

Lemma length_snoc (s : string) (a : ascii) :
  String.length (String.append s (String a "")) = S (String.length s).
Proof.
  induction s as [|c s IH]; [reflexivity|].
  rewrite append_cons. cbn [String.length]. rewrite IH. reflexivity.
Qed.

(** The last cell obeys the recurrence of the three operations. *)
Lemma minDistance_step (s t : string) (a b : ascii) :
  Z.of_nat (String.length s) + Z.of_nat (String.length t) + 2 < Int32.INT_MAX ->
  exists del ins sub,
    H06.minDistance s (String.append t (String b "")) = Some del /\
    H06.minDistance (String.append s (String a "")) t = Some ins /\
    H06.minDistance s t = Some sub /\
    H06.minDistance (String.append s (String a "")) (String.append t (String b "")) =
      Some (if Ascii.eqb a b then sub
            else Z.min (del + 1) (Z.min (ins + 1) (sub + 1))).
Proof.
  intros Hfit.
  rewrite !minDistance_prefix_distance by (rewrite ?length_snoc; lia).
  rewrite !length_snoc, !list_ascii_of_string_snoc.
  set (ls := list_ascii_of_string s). set (lt := list_ascii_of_string t).
  assert (Hls : length ls = String.length s) by apply length_list_ascii_of_string.
  assert (Hlt : length lt = String.length t) by apply length_list_ascii_of_string.
  rewrite <- Hls, <- Hlt.
  assert (H1 : forall k, (k < length ls)%nat -> (ls ++ [a]) !! k = ls !! k)
    by (intros k Hk; apply lookup_app_l; exact Hk).
  assert (H2 : forall k, (k < length lt)%nat -> (lt ++ [b]) !! k = lt !! k)
    by (intros k Hk; apply lookup_app_l; exact Hk).
  eexists _, _, _. split; [reflexivity|]. split; [reflexivity|]. split; [reflexivity|].
  f_equal. rewrite prefix_distance_S.
  rewrite !list_lookup_middle by reflexivity.
  rewrite (prefix_distance_ext (ls ++ [a]) (lt ++ [b]) ls lt (length ls) (length lt))
    by assumption.
  rewrite (prefix_distance_ext (ls ++ [a]) (lt ++ [b]) ls (lt ++ [b])
             (length ls) (S (length lt))) by (assumption || reflexivity).
  rewrite (prefix_distance_ext (ls ++ [a]) (lt ++ [b]) (ls ++ [a]) lt
             (S (length ls)) (length lt)) by (assumption || reflexivity).
  destruct (Ascii.eqb_spec a b) as [->|Hne].
  - rewrite bool_decide_eq_true_2 by reflexivity. reflexivity.
  - rewrite bool_decide_eq_false_2 by congruence. reflexivity.
Qed.

(** With an empty first word the call returns the size of the second one
    as the [int] holds it. *)
Lemma minDistance_empty_truncated (s : string) :
  forall d, H06.minDistance "" s = Some d ->
            d = Int32.wrap (Z.of_nat (String.length s)) /\ 0 <= d < Int32.INT_MAX.
Proof.
  intros d. unfold H06.minDistance. cbn zeta.
  rewrite (length_list_ascii_of_string s).
  set (n := Int32.wrap (Z.of_nat (String.length s))).
  change (Int32.wrap (Z.of_nat (length (list_ascii_of_string "")))) with 0.
  cbn [Z.leb Z.compare andb].
  destruct (Z.ltb_spec 0 Int32.INT_MAX) as [_|H]; [|unfold Int32.INT_MAX in H; lia].
  cbn [andb].
  destruct (Z.leb_spec 0 n) as [Hn0|]; [|discriminate].
  destruct (Z.ltb_spec n Int32.INT_MAX) as [Hn1|]; [|discriminate].
  cbn [andb Z.to_nat]. intros [= <-].
  pose proof (table_shape_replicate 0 (Z.to_nat n)) as Hs.
  apply (init_column_spec 0 (Z.to_nat n)) in Hs as [Hs _].
  apply (init_row_spec 0 (Z.to_nat n)) in Hs as [_ Hrow].
  unfold H06.fill. cbn [seq foldl]. rewrite Hrow by lia. lia.
Qed.

Lemma minDistance_empty_returns (s : string) :
  0 <= Int32.wrap (Z.of_nat (String.length s)) < Int32.INT_MAX ->
  H06.minDistance "" s = Some (Int32.wrap (Z.of_nat (String.length s))).
Proof.
  intros Hn. unfold H06.minDistance. cbn zeta.
  rewrite (length_list_ascii_of_string s).
  set (n := Int32.wrap (Z.of_nat (String.length s))) in *.
  change (Int32.wrap (Z.of_nat (length (list_ascii_of_string "")))) with 0.
  cbn [Z.leb Z.compare andb].
  destruct (Z.ltb_spec 0 Int32.INT_MAX) as [_|H]; [|unfold Int32.INT_MAX in H; lia].
  destruct (Z.leb_spec 0 n); [|lia]. destruct (Z.ltb_spec n Int32.INT_MAX); [|lia].
  cbn [andb Z.to_nat]. f_equal.
  pose proof (table_shape_replicate 0 (Z.to_nat n)) as Hs.
  apply (init_column_spec 0 (Z.to_nat n)) in Hs as [Hs _].
  apply (init_row_spec 0 (Z.to_nat n)) in Hs as [_ Hrow].
  unfold H06.fill. cbn [seq foldl]. rewrite Hrow by lia. lia.
Qed.

Lemma length_string_of_list_ascii (l : list ascii) :
  String.length (string_of_list_ascii l) = length l.
Proof. induction l as [|c l IH]; [reflexivity|]. cbn. rewrite IH. reflexivity. Qed.
End MinDistanceRecurrence.

(** C5, as stated, fails on a word of [2^32] characters: its size is
    [0] as an [int], the distance from the empty word is [0] and not its
    length.  On a word of [INT_MAX] characters [n + 1] overflows and the
    call has no value. *)
Lemma minDistance_size_beyond_int :
  H06.minDistance "" (string_of_list_ascii (replicate (Z.to_nat (2 ^ 32)) "a"%char))
  = Some 0%Z /\
  H06.minDistance "" (string_of_list_ascii (replicate (Z.to_nat (2 ^ 32)) "a"%char))
  <> Some (Z.of_nat (String.length
                       (string_of_list_ascii (replicate (Z.to_nat (2 ^ 32)) "a"%char)))) /\
  H06.minDistance "" (string_of_list_ascii (replicate (Z.to_nat Int32.INT_MAX) "a"%char))
  = None.
Proof.
  assert (Hlen : Z.of_nat (String.length
                   (string_of_list_ascii (replicate (Z.to_nat (2 ^ 32)) "a"%char)))
                 = (2 ^ 32)%Z).
  { rewrite length_string_of_list_ascii, length_replicate, Z2Nat.id by lia. reflexivity. }
  assert (Hmax : Z.of_nat (String.length
                   (string_of_list_ascii (replicate (Z.to_nat Int32.INT_MAX) "a"%char)))
                 = Int32.INT_MAX).
  { rewrite length_string_of_list_ascii, length_replicate, Z2Nat.id
      by (unfold Int32.INT_MAX; lia). reflexivity. }
  split; [|split].
  - rewrite minDistance_empty_returns; rewrite Hlen; [reflexivity|].
    unfold Int32.INT_MAX. split; [discriminate | reflexivity].
  - intros E. apply minDistance_empty_truncated in E as [_ E].
    rewrite Hlen in E. unfold Int32.INT_MAX in E. lia.
  - destruct (H06.minDistance ""
                (string_of_list_ascii (replicate (Z.to_nat Int32.INT_MAX) "a"%char)))
      as [d|] eqn:E; [|reflexivity].
    apply minDistance_empty_truncated in E as [E1 E2]. rewrite Hmax in E1.
    rewrite wrap_exact in E1
      by (unfold Int32.in_range, Int32.INT_MIN, Int32.INT_MAX; lia).
    lia.
Qed.

(** C5: for a word [s] of a size below [INT_MAX] the distance from the
    empty word to [s] and from [s] to the empty word is the length of [s]
    (base row and base column), the distance from [s] to itself is [0],
    and the distance obeys the recurrence of the table: on words extended
    by one character each it is the distance of the words when the
    characters are equal, and otherwise one more than the least of the
    three distances that drop a last character. *)
Theorem minDistance_empty_and_self (s : string) :
  (Z.of_nat (String.length s) < Int32.INT_MAX)%Z ->
  H06.minDistance "" s = Some (Z.of_nat (String.length s)) /\
  H06.minDistance s "" = Some (Z.of_nat (String.length s)) /\
  H06.minDistance s s = Some 0%Z /\
  forall (t : string) (a b : ascii),
    (Z.of_nat (String.length s) + Z.of_nat (String.length t) + 2 < Int32.INT_MAX)%Z ->
    exists del ins sub,
      H06.minDistance s (String.append t (String b "")) = Some del /\
      H06.minDistance (String.append s (String a "")) t = Some ins /\
      H06.minDistance s t = Some sub /\
      H06.minDistance (String.append s (String a "")) (String.append t (String b "")) =
        Some (if Ascii.eqb a b then sub
              else Z.min (del + 1) (Z.min (ins + 1) (sub + 1)))%Z.
Proof.
  intros Hs. split; [|split; [|split]].
  - rewrite minDistance_prefix_distance by (simpl String.length; lia).
    f_equal. apply prefix_distance_0_l.
  - rewrite minDistance_prefix_distance by (simpl String.length; lia).
    f_equal. apply prefix_distance_0_r.
  - rewrite minDistance_table by exact Hs. f_equal.
    rewrite <- !length_list_ascii_of_string.
    set (w := list_ascii_of_string s). set (m := length w).
    pose proof (table_shape_replicate m m) as Hsh.
    apply (init_column_spec m m) in Hsh as [Hsh _].
    apply (init_row_spec m m) in Hsh as [Hsh Hrow].
    apply fill_diagonal; [exact Hsh|]. apply (Hrow 0%nat). lia.
  - intros t a b Hfit. apply minDistance_step. exact Hfit.
Qed.

Lemma minDistance_empty_and_self_witness :
  H06.minDistance "" "ros" = Some (Z.of_nat (String.length "ros")) /\
  H06.minDistance "ros" "" = Some (Z.of_nat (String.length "ros")) /\
  H06.minDistance "ros" "ros" = Some 0%Z /\
  forall (t : string) (a b : ascii),
    (Z.of_nat (String.length "ros") + Z.of_nat (String.length t) + 2 < Int32.INT_MAX)%Z ->
    exists del ins sub,
      H06.minDistance "ros" (String.append t (String b "")) = Some del /\
      H06.minDistance (String.append "ros" (String a "")) t = Some ins /\
      H06.minDistance "ros" t = Some sub /\
      H06.minDistance (String.append "ros" (String a "")) (String.append t (String b "")) =
        Some (if Ascii.eqb a b then sub
              else Z.min (del + 1) (Z.min (ins + 1) (sub + 1)))%Z.
Proof.
  apply (minDistance_empty_and_self "ros"). unfold Int32.INT_MAX. simpl. lia.
Defined.

(** ** Loops: invariants alone *)

Lemma while_preserves {St : Type} (cond : St -> bool) (body : St -> option St)
    (Inv : St -> Prop) :
  (forall s s', Inv s -> cond s = true -> body s = Some s' -> Inv s') ->
  forall fuel s s', Inv s -> while cond body fuel s = Some s' ->
                    Inv s' /\ cond s' = false.
Proof.
  intros Hstep. induction fuel as [|fuel IH]; intros s s' HI; simpl;
    destruct (cond s) eqn:Hc; try discriminate;
    try (intros [= <-]; split; assumption).
  destruct (body s) as [s1|] eqn:Hb; [|discriminate].
  apply IH. eapply Hstep; eassumption.
Qed.

(** ** H01: what dijkstra returns *)

Section DijkstraResult.
Local Open Scope Z_scope.
Variable graph : list (list (Z * Z)).
Variable start : Z.
Hypothesis graph_wf : H01.well_formed graph.

Local Abbreviation n := (Z.of_nat (length graph)).

(** [walk v d]: a walk along edges leads from [start] to [v], its weights
    adding up to [d] in [int] arithmetic. *)
Inductive walk : Z -> Z -> Prop :=
| walk_start : walk start 0
| walk_edge u v w d edges :
    walk u d -> Vec.get graph u = Some edges -> (v, w) ∈ edges ->
    walk v (Int32.add d w).

(** The edge [e], out of a node at distance [du], cannot lower the
    distance of its target. *)
Definition edge_ok (dist : list Z) (du : Z) (e : Z * Z) : Prop :=
  exists dv, Vec.get dist (fst e) = Some dv /\ dv <= Int32.add du (snd e).

Definition pending_ok (s : H01.state) : Prop :=
  forall c u, (c, u) ∈ H01.pq s ->
    0 <= u < n /\ exists d, Vec.get (H01.dist s) u = Some d /\ d <= c /\ c < Int32.INT_MAX.

Definition walks_ok (s : H01.state) : Prop :=
  forall v d, Vec.get (H01.dist s) v = Some d -> d <> Int32.INT_MAX -> walk v d.

Definition start_ok (s : H01.state) : Prop :=
  exists d, Vec.get (H01.dist s) start = Some d /\ d <= 0.

(** Every node is untouched, or waits in the queue with its distance, or
    has all its edges relaxed; for the node [u] being processed these are
    the edges [done] so far. *)
Definition settled (s : H01.state) (u : option Z) (done : list (Z * Z)) : Prop :=
  forall x dx, Vec.get (H01.dist s) x = Some dx ->
    dx = Int32.INT_MAX \/ (dx, x) ∈ H01.pq s \/
    (if decide (u = Some x) then Forall (edge_ok (H01.dist s) dx) done
     else forall edges, Vec.get graph x = Some edges ->
                        Forall (edge_ok (H01.dist s) dx) edges).

Definition result_inv (u : option Z) (done : list (Z * Z)) (s : H01.state) : Prop :=
  (length (H01.dist s) = length graph /\ Forall Int32.in_range (H01.dist s)) /\
  pending_ok s /\ walks_ok s /\ start_ok s /\ settled s u done.

Lemma get_in_range (dist : list Z) (v d : Z) :
  Forall Int32.in_range dist -> Vec.get dist v = Some d -> Int32.in_range d.
Proof.
  intros Hr. unfold Vec.get. destruct (v <? 0); [discriminate|].
  intros Hd. rewrite Forall_lookup in Hr. exact (Hr _ _ Hd).
Qed.

Lemma get_update (dist : list Z) (v x : Z) (new : Z) :
  0 <= v < Z.of_nat (length dist) ->
  Vec.get (<[Z.to_nat v := new]> dist) x =
  if decide (x = v) then Some new else Vec.get dist x.
Proof.
  intros Hv. destruct (decide (x = v)) as [->|Hne].
  - apply get_insert_eq. exact Hv.
  - apply get_insert_ne; lia.
Qed.

Lemma edge_ok_update (dist : list Z) (v new dv dx : Z) (e : Z * Z) :
  0 <= v < Z.of_nat (length dist) -> Vec.get dist v = Some dv -> new <= dv ->
  edge_ok dist dx e -> edge_ok (<[Z.to_nat v := new]> dist) dx e.
Proof.
  intros Hv Hdv Hle (d & Hd & Hok). unfold edge_ok. rewrite get_update by exact Hv.
  destruct (decide (fst e = v)) as [E|_].
  - exists new. split; [reflexivity|]. rewrite E in Hd. assert (d = dv) by congruence. lia.
  - exists d. split; assumption.
Qed.

Lemma relax_result (u v w : Z) (edges done : list (Z * Z)) (s s' : H01.state) :
  Vec.get graph u = Some edges -> (v, w) ∈ edges ->
  (exists du, Vec.get (H01.dist s) u = Some du /\ du < Int32.INT_MAX) ->
  result_inv (Some u) done s -> H01.relax u s (v, w) = Some s' ->
  result_inv (Some u) (done ++ [(v, w)]) s' /\
  (exists du, Vec.get (H01.dist s') u = Some du /\ du < Int32.INT_MAX).
Proof.
  intros Hedges Hin (du & Hdu & Hfin) ([Hlen Hrange] & Hpend & Hwalk & Hstart & Hset).
  unfold H01.relax. rewrite Hdu. simpl.
  destruct (Vec.get (H01.dist s) v) as [dv|] eqn:Hdv; [|discriminate]. simpl.
  pose proof (get_Some_bounds _ _ _ Hdv) as Hv.
  pose proof (get_Some_bounds _ _ _ Hdu) as Hu.
  destruct (Z.ltb_spec (Int32.add du w) dv) as [Hlt|Hge].
  - rewrite set_in_bounds by lia. simpl. intros [= <-]. simpl.
    set (new := Int32.add du w) in *.
    assert (Hnew : new < Int32.INT_MAX).
    { pose proof (get_in_range _ _ _ Hrange Hdv) as Hr. unfold Int32.in_range in Hr. lia. }
    unfold result_inv, pending_ok, walks_ok, start_ok, settled. cbn [H01.dist H01.pq].
    split.
    + split; [split; [rewrite length_insert; exact Hlen
                     | apply Forall_insert; [exact Hrange | apply wrap_in_range]]|].
      split; [|split; [|split]].
      * intros c x Hx. simpl in Hx. apply elem_of_pq_push in Hx as [[= -> ->] | Hx].
        -- split; [lia|]. exists new. simpl. rewrite get_update by lia.
           rewrite decide_True by reflexivity. split; [reflexivity | lia].
        -- destruct (Hpend c x Hx) as (Hxb & d & Hd & Hle & Hc). split; [exact Hxb|].
           simpl. rewrite get_update by lia. destruct (decide (x = v)) as [->|_].
           ++ exists new. split; [reflexivity|]. assert (d = dv) by congruence. lia.
           ++ exists d. repeat split; assumption.
      * intros x d. simpl. rewrite get_update by lia.
        destruct (decide (x = v)) as [->|_].
        -- intros [= <-] _. eapply walk_edge; [|exact Hedges | exact Hin].
           apply Hwalk; [exact Hdu | lia].
        -- apply Hwalk.
      * destruct Hstart as (d & Hd & Hle). unfold start_ok. simpl.
        rewrite get_update by lia. destruct (decide (start = v)) as [->|_].
        -- exists new. split; [reflexivity|]. assert (d = dv) by congruence. lia.
        -- exists d. split; assumption.
      * intros x dx. simpl. rewrite get_update by lia.
        destruct (decide (x = v)) as [->|Hxv].
        { intros [= <-]. right. left. apply elem_of_pq_push. left. reflexivity. }
        intros Hdx. destruct (Hset x dx Hdx) as [-> | [Hp | Hrel]]; [left; reflexivity | |].
        { right. left. apply elem_of_pq_push. right. exact Hp. }
        right. right. destruct (decide (Some u = Some x)) as [[= <-]|Hux].
        -- apply Forall_app. split.
           ++ eapply Forall_impl; [exact Hrel|]. intros e He.
              apply (edge_ok_update _ v new dv); [lia | exact Hdv | lia | exact He].
           ++ repeat constructor. exists new. simpl. rewrite get_update by lia.
              rewrite decide_True by reflexivity. split; [reflexivity|].
              assert (dx = du) by congruence. subst dx. unfold new. lia.
        -- intros edges' Hedges'. eapply Forall_impl; [exact (Hrel edges' Hedges')|].
           intros e He. apply (edge_ok_update _ v new dv); [lia | exact Hdv | lia | exact He].
    + simpl. rewrite get_update by lia. destruct (decide (u = v)) as [->|_].
      * exists new. split; [reflexivity | exact Hnew].
      * exists du. split; assumption.
  - intros [= <-]. split; [|exists du; split; assumption].
    split; [split; [exact Hlen | exact Hrange]|]. split; [exact Hpend|]. split; [exact Hwalk|].
    split; [exact Hstart|].
    intros x dx Hdx. destruct (Hset x dx Hdx) as [-> | [Hp | Hrel]];
      [left; reflexivity | right; left; exact Hp |].
    right. right. destruct (decide (Some u = Some x)) as [[= <-]|Hux]; [|exact Hrel].
    apply Forall_app. split; [exact Hrel|]. repeat constructor.
    exists dv. simpl. split; [exact Hdv|]. assert (dx = du) by congruence. subst dx. lia.
Qed.

Lemma relax_all_result (u : Z) (edges todo done : list (Z * Z)) (s s' : H01.state) :
  Vec.get graph u = Some edges -> (forall e, e ∈ todo -> e ∈ edges) ->
  (exists du, Vec.get (H01.dist s) u = Some du /\ du < Int32.INT_MAX) ->
  result_inv (Some u) done s -> H01.relax_all u s todo = Some s' ->
  result_inv (Some u) (done ++ todo) s'.
Proof.
  intros Hedges. revert done s. induction todo as [|[v w] todo IH];
    intros done s Hsub Hfin Hinv; cbn [H01.relax_all].
  - intros [= <-]. rewrite app_nil_r. exact Hinv.
  - destruct (H01.relax u s (v, w)) as [s1|] eqn:E1; [|discriminate]. simpl.
    destruct (relax_result u v w edges done s s1 Hedges) as [Hinv1 Hfin1];
      [apply Hsub; left | exact Hfin | exact Hinv | exact E1 |].
    intros E. replace (done ++ (v, w) :: todo) with ((done ++ [(v, w)]) ++ todo)
      by (rewrite <- app_assoc; reflexivity).
    apply (IH _ s1); [|exact Hfin1 | exact Hinv1 | exact E].
    intros e He. apply Hsub. right. exact He.
Qed.

Lemma body_result (s s' : H01.state) :
  result_inv None [] s -> H01.cond s = true -> H01.body graph s = Some s' ->
  result_inv None [] s'.
Proof.
  intros ([Hlen Hrange] & Hpend & Hwalk & Hstart & Hset) _. unfold H01.body.
  destruct s as [dist pq]. simpl in *.
  destruct pq as [|[cost u] rest]; [discriminate|].
  destruct (Hpend cost u ltac:(left)) as (Hu & du & Hdu & Hle & Hc).
  simpl in Hdu. rewrite Hdu. simpl.
  assert (Hrest : pending_ok (H01.State dist rest)).
  { intros c x Hx. apply (Hpend c x). right. exact Hx. }
  destruct (Z.gtb_spec cost du) as [Hstale|Hfresh].
  - intros [= <-]. split; [split; [exact Hlen | exact Hrange]|]. split; [exact Hrest|]. split; [exact Hwalk|].
    split; [exact Hstart|]. intros x dx Hdx. simpl in *.
    destruct (Hset x dx Hdx) as [-> | [Hp | Hrel]]; [left; reflexivity | | right; right; exact Hrel].
    apply elem_of_cons in Hp as [[= -> ->] | Hp]; [|right; left; exact Hp].
    assert (cost = du) by congruence. lia.
  - destruct (Vec.get graph u) as [edges|] eqn:Hedges; [|discriminate]. simpl.
    intros Hrelax.
    assert (Hinv0 : result_inv (Some u) [] (H01.State dist rest)).
    { split; [split; [exact Hlen | exact Hrange]|]. split; [exact Hrest|]. split; [exact Hwalk|].
      split; [exact Hstart|]. intros x dx Hdx. simpl in *.
      destruct (decide (Some u = Some x)) as [[= <-]|Hux]; [right; right; constructor|].
      destruct (Hset x dx Hdx) as [-> | [Hp | Hrel]];
        [left; reflexivity | | right; right; exact Hrel].
      apply elem_of_cons in Hp as [[= -> ->] | Hp]; [congruence | right; left; exact Hp]. }
    assert (Hfin : exists d, Vec.get (H01.dist (H01.State dist rest)) u = Some d
                             /\ d < Int32.INT_MAX)
      by (exists du; split; [exact Hdu | lia]).
    pose proof (relax_all_result u edges edges [] (H01.State dist rest) s' Hedges
                  ltac:(auto) Hfin Hinv0 Hrelax)
      as (Hlen' & Hpend' & Hwalk' & Hstart' & Hset').
    split; [exact Hlen'|]. split; [exact Hpend'|]. split; [exact Hwalk'|].
    split; [exact Hstart'|]. intros x dx Hdx.
    destruct (Hset' x dx Hdx) as [-> | [Hp | Hrel]];
      [left; reflexivity | right; left; exact Hp |].
    right. right. destruct (decide (Some u = Some x)) as [[= <-]|Hux]; [|exact Hrel].
    intros edges' Hedges'. assert (edges' = edges) by congruence. subst edges'.
    simpl in Hrel. exact Hrel.
Qed.
End DijkstraResult.

Section DijkstraTheorems.
Local Open Scope Z_scope.
Variable graph : list (list (Z * Z)).
Variable start : Z.

Lemma dijkstra_result_inv (fuel : nat) (dist : list Z) :
  H01.dijkstra fuel graph start = Some dist ->
  result_inv graph start None [] (H01.State dist []).
Proof.
  unfold H01.dijkstra.
  destruct (Vec.set (replicate (length graph) Int32.INT_MAX) start 0) as [d0|] eqn:E0;
    [|discriminate]. simpl.
  destruct (while H01.cond (H01.body graph) fuel _) as [s|] eqn:Ew; [|discriminate].
  simpl. intros [= <-].
  unfold Vec.set in E0. rewrite length_replicate in E0.
  destruct (Z.leb_spec 0 start); [|discriminate].
  destruct (Z.ltb_spec start (Z.of_nat (length graph))); [|discriminate].
  injection E0 as <-.
  apply (while_preserves _ _ (result_inv graph start None [])
           (body_result graph start)) in Ew as [Hinv Hc].
  - unfold H01.cond in Hc. destruct s as [dist pq]. simpl in *.
    destruct pq; [exact Hinv | discriminate].
  - assert (Hget : forall x d,
              Vec.get (<[Z.to_nat start := 0]> (replicate (length graph) Int32.INT_MAX)) x
              = Some d -> (x = start /\ d = 0) \/ d = Int32.INT_MAX).
    { intros x d. rewrite get_update by (rewrite length_replicate; lia).
      destruct (decide (x = start)) as [->|_]; [intros [= <-]; auto|].
      unfold Vec.get. destruct (x <? 0); [discriminate|].
      intros Hd. apply lookup_replicate in Hd as [-> _]. auto. }
    split; [split|split; [|split; [|split]]]; simpl.
    + rewrite length_insert, length_replicate. reflexivity.
    + apply Forall_insert.
      * apply Forall_replicate. unfold Int32.in_range, Int32.INT_MIN, Int32.INT_MAX. lia.
      * unfold Int32.in_range, Int32.INT_MIN, Int32.INT_MAX. lia.
    + intros c u Hin. simpl in Hin. apply list_elem_of_singleton in Hin as [= -> ->].
      split; [lia|]. exists 0. simpl. rewrite get_update by (rewrite length_replicate; lia).
      rewrite decide_True by reflexivity. unfold Int32.INT_MAX. split; [reflexivity | lia].
    + intros v d Hd Hne. simpl in Hd. destruct (Hget v d Hd) as [[-> ->] | ->];
        [constructor | congruence].
    + exists 0. simpl. rewrite get_update by (rewrite length_replicate; lia).
      rewrite decide_True by reflexivity. split; [reflexivity | lia].
    + intros x dx Hdx. simpl in *. destruct (Hget x dx Hdx) as [[-> ->] | ->];
        [right; left; left | left; reflexivity].
Qed.


End DijkstraTheorems.



(** ** H05: the placements [solveNQueens] returns *)

(** A placement of queens in the first rows is the list of their columns. *)
Definition queen_row (n c : nat) : list ascii := <[c := "Q"%char]> (replicate n "."%char).

Definition board_of (n : nat) (qs : list nat) : list (list ascii) :=
  map (queen_row n) qs ++ replicate (n - length qs) (replicate n "."%char).

(** The queen of row [i], in column [ci], attacks the square of row
    [length qs] and column [c]. *)
Definition hits (qs : list nat) (c i : nat) : bool :=
  match qs !! i with
  | Some ci => (ci =? c) || (i + c =? length qs + ci) || (i + ci =? length qs + c)
  | None => false
  end.

Definition safe (qs : list nat) (c : nat) : bool :=
  forallb (fun i => negb (hits qs c i)) (seq 0 (length qs)).

(** The placements of [k] more rows that extend [qs]. *)
Fixpoint place (n k : nat) (qs : list nat) : list (list nat) :=
  match k with
  | O => [qs]
  | S k' => flat_map (fun c => if safe qs c then place n k' (qs ++ [c]) else []) (seq 0 n)
  end.

Section NQueensBoard.
Variable n : nat.

Lemma is_queen_board (qs : list nat) (i j : nat) :
  Forall (fun c => c < n) qs -> j < n ->
  H05.is_queen (board_of n qs) i j = bool_decide (qs !! i = Some j).
Proof.
  intros Hqs Hj. unfold H05.is_queen, board_of.
  destruct (qs !! i) as [ci|] eqn:Ei.
  - rewrite lookup_app_l by (rewrite length_map; eapply lookup_lt_Some; exact Ei).
    rewrite list_lookup_fmap, Ei. simpl. unfold queen_row.
    assert (Hci : ci < n) by (rewrite Forall_lookup in Hqs; exact (Hqs _ _ Ei)).
    destruct (decide (ci = j)) as [->|Hne].
    + rewrite list_lookup_insert_eq by (rewrite length_replicate; lia).
      rewrite !bool_decide_eq_true_2; reflexivity.
    + rewrite list_lookup_insert_ne by exact Hne.
      rewrite (proj2 (lookup_replicate _ _ _ _)) by (split; [reflexivity | lia]).
      rewrite !bool_decide_eq_false_2; [reflexivity | congruence | discriminate].
  - apply lookup_ge_None in Ei.
    rewrite lookup_app_r by (rewrite length_map; lia). rewrite length_map.
    rewrite (bool_decide_eq_false_2 (None = Some j)) by discriminate.
    apply bool_decide_eq_false_2.
    destruct (replicate (n - length qs) (replicate n "."%char) !! (i - length qs))
      as [row|] eqn:Er; simpl; [|discriminate].
    apply lookup_replicate in Er as [-> _].
    rewrite (proj2 (lookup_replicate _ _ _ _)) by (split; [reflexivity | lia]).
    discriminate.
Qed.

Lemma board_of_snoc_split (qs : list nat) :
  length qs < n ->
  board_of n qs = map (queen_row n) qs ++ replicate n "."%char
                    :: replicate (n - S (length qs)) (replicate n "."%char).
Proof.
  intros Hlen. unfold board_of.
  replace (n - length qs) with (S (n - S (length qs))) by lia. reflexivity.
Qed.

Lemma board_of_snoc (qs : list nat) (c : nat) :
  length qs < n ->
  board_of n (qs ++ [c]) = map (queen_row n) qs ++ queen_row n c
                             :: replicate (n - S (length qs)) (replicate n "."%char).
Proof.
  intros Hlen. unfold board_of.
  rewrite map_app, length_app, <- app_assoc. simpl.
  replace (length qs + 1) with (S (length qs)) by lia. reflexivity.
Qed.

Lemma put_queen (qs : list nat) (c : nat) :
  length qs < n ->
  H05.put (board_of n qs) (length qs) c "Q"%char = board_of n (qs ++ [c]).
Proof.
  intros Hlen. rewrite board_of_snoc, board_of_snoc_split by exact Hlen.
  unfold H05.put.
  assert (Hl : length (map (queen_row n) qs) = length qs) by apply length_map.
  rewrite <- Hl at 1 2. rewrite list_lookup_middle by reflexivity.
  rewrite insert_app_r_alt by lia. rewrite Hl, Nat.sub_diag. reflexivity.
Qed.

Lemma take_queen (qs : list nat) (c : nat) :
  length qs < n -> c < n ->
  H05.put (board_of n (qs ++ [c])) (length qs) c "."%char = board_of n qs.
Proof.
  intros Hlen Hc. rewrite board_of_snoc, board_of_snoc_split by exact Hlen.
  unfold H05.put.
  assert (Hl : length (map (queen_row n) qs) = length qs) by apply length_map.
  rewrite <- Hl at 1 2. rewrite list_lookup_middle by reflexivity.
  rewrite insert_app_r_alt by lia. rewrite Hl, Nat.sub_diag. simpl. do 2 f_equal.
  unfold queen_row. rewrite list_insert_insert_eq.
  apply list_insert_id. apply lookup_replicate. split; [reflexivity | exact Hc].
Qed.
End NQueensBoard.

Section NQueensSafe.
Variable n : nat.
Variable qs : list nat.
Hypothesis qs_cols : Forall (fun c => c < n) qs.

(** No queen of [qs] attacks the square of the next row and column [c]. *)
Definition safe_square (c : nat) : Prop :=
  forall i ci, qs !! i = Some ci ->
    ~ (ci = c \/ i + c = length qs + ci \/ i + ci = length qs + c).

Lemma safe_spec (c : nat) : safe qs c = true <-> safe_square c.
Proof.
  unfold safe, safe_square. rewrite forallb_forall. split.
  - intros H i ci Hi Hhit. pose proof (lookup_lt_Some _ _ _ Hi) as Hlt.
    specialize (H i ltac:(apply in_seq; lia)). unfold hits in H. rewrite Hi in H.
    apply negb_true_iff in H. apply orb_false_iff in H as [H H3].
    apply orb_false_iff in H as [H1 H2].
    apply Nat.eqb_neq in H1, H2, H3. lia.
  - intros H i _. unfold hits. destruct (qs !! i) as [ci|] eqn:Hi; [|reflexivity].
    specialize (H i ci Hi). apply negb_true_iff.
    destruct (Nat.eqb_spec ci c); [lia|].
    destruct (Nat.eqb_spec (i + c) (length qs + ci)); [lia|].
    destruct (Nat.eqb_spec (i + ci) (length qs + c)); [lia|]. reflexivity.
Qed.

Lemma column_free_spec (c : nat) :
  c < n ->
  H05.column_free (board_of n qs) (length qs) c = true <->
  forall i, qs !! i <> Some c.
Proof using qs_cols.
  intros Hc. unfold H05.column_free. rewrite forallb_forall. split.
  - intros H i Hi. pose proof (lookup_lt_Some _ _ _ Hi) as Hlt.
    specialize (H i ltac:(apply in_seq; lia)).
    rewrite is_queen_board in H by assumption.
    apply negb_true_iff, bool_decide_eq_false in H. contradiction.
  - intros H i _. rewrite is_queen_board by assumption.
    apply negb_true_iff, bool_decide_eq_false. apply H.
Qed.

Lemma upper_left_spec (i1 j1 : nat) :
  j1 <= n ->
  H05.upper_left_free (board_of n qs) i1 j1 = true <->
  forall t, t < i1 -> t < j1 -> qs !! (i1 - 1 - t) <> Some (j1 - 1 - t).
Proof using qs_cols.
  revert j1. induction i1 as [|i IH]; intros j1 Hj; [simpl; split; [lia|reflexivity]|].
  destruct j1 as [|j]; [simpl; split; [lia|reflexivity]|].
  cbn [H05.upper_left_free]. rewrite is_queen_board by (assumption || lia).
  case_bool_decide as E.
  - split; [discriminate|]. intros H. exfalso. apply (H 0); [lia | lia |].
    replace (S i - 1 - 0) with i by lia. replace (S j - 1 - 0) with j by lia. exact E.
  - rewrite IH by lia. split.
    + intros H t Ht1 Ht2. destruct t as [|t].
      * replace (S i - 1 - 0) with i by lia. replace (S j - 1 - 0) with j by lia. exact E.
      * replace (S i - 1 - S t) with (i - 1 - t) by lia.
        replace (S j - 1 - S t) with (j - 1 - t) by lia. apply H; lia.
    + intros H t Ht1 Ht2. specialize (H (S t) ltac:(lia) ltac:(lia)).
      replace (S i - 1 - S t) with (i - 1 - t) in H by lia.
      replace (S j - 1 - S t) with (j - 1 - t) in H by lia. exact H.
Qed.

Lemma upper_right_spec (i1 j : nat) :
  H05.upper_right_free (board_of n qs) (Z.of_nat n) i1 j = true <->
  forall t, t < i1 -> j + t < n -> qs !! (i1 - 1 - t) <> Some (j + t).
Proof using qs_cols.
  revert j. induction i1 as [|i IH]; intros j; [simpl; split; [lia|reflexivity]|].
  cbn [H05.upper_right_free]. destruct (Z.ltb_spec (Z.of_nat j) (Z.of_nat n)) as [Hj|Hj].
  - rewrite is_queen_board by (assumption || lia).
    case_bool_decide as E.
    + split; [discriminate|]. intros H. exfalso. apply (H 0); [lia | lia |].
      replace (S i - 1 - 0) with i by lia. rewrite Nat.add_0_r. exact E.
    + rewrite IH. split.
      * intros H t Ht1 Ht2. destruct t as [|t].
        -- replace (S i - 1 - 0) with i by lia. rewrite Nat.add_0_r. exact E.
        -- replace (S i - 1 - S t) with (i - 1 - t) by lia.
           replace (j + S t) with (S j + t) by lia. apply H; lia.
      * intros H t Ht1 Ht2. specialize (H (S t) ltac:(lia) ltac:(lia)).
        replace (S i - 1 - S t) with (i - 1 - t) in H by lia.
        replace (j + S t) with (S j + t) in H by lia. exact H.
  - split; [|reflexivity]. intros _ t Ht1 Ht2. lia.
Qed.

(** [isSafe] on the board of [qs] is the test [safe]. *)
Lemma isSafe_safe (res : list (list (list ascii))) (c : nat) :
  c < n ->
  H05.isSafe (H05.Object res (board_of n qs) (Z.of_nat n)) (length qs) c = safe qs c.
Proof using qs_cols.
  intros Hc. apply eq_true_iff_eq. rewrite safe_spec. unfold H05.isSafe. simpl.
  rewrite !andb_true_iff, column_free_spec, upper_left_spec, upper_right_spec by lia.
  unfold safe_square. split.
  - intros [[H1 H2] H3] i ci Hi Hhit. pose proof (lookup_lt_Some _ _ _ Hi) as Hlt.
    assert (Hci : ci < n) by (rewrite Forall_lookup in qs_cols; exact (qs_cols _ _ Hi)).
    destruct Hhit as [-> | [Hd | Hd]].
    + exact (H1 i Hi).
    + apply (H2 (length qs - 1 - i)); [lia | lia |].
      replace (length qs - 1 - (length qs - 1 - i)) with i by lia.
      replace (c - 1 - (length qs - 1 - i)) with ci by lia. exact Hi.
    + apply (H3 (length qs - 1 - i)); [lia | lia |].
      replace (length qs - 1 - (length qs - 1 - i)) with i by lia.
      replace (S c + (length qs - 1 - i)) with ci by lia. exact Hi.
  - intros H. split; [split|].
    + intros i Hi. apply (H i c Hi). left. reflexivity.
    + intros t Ht1 Ht2 Hi. apply (H _ _ Hi). right. left. lia.
    + intros t Ht1 Ht2 Hi. apply (H _ _ Hi). right. right. lia.
Qed.
End NQueensSafe.


(** No two queens of the placement attack each other. *)
Definition peaceful (qs : list nat) : Prop :=
  forall i j ci cj, i < j -> qs !! i = Some ci -> qs !! j = Some cj ->
    ~ (ci = cj \/ i + cj = j + ci \/ i + ci = j + cj).

Section NQueensPlacements.
Variable n : nat.

(** The recursion over rows appends the boards of [place], in its order, and
    gives the board back as it received it. *)
Lemma solveNQueens_row_place (fuel : nat) (qs : list nat) (res : list (list (list ascii))) :
  Forall (fun c => c < n) qs -> length qs <= n -> n - length qs <= fuel ->
  H05.solveNQueens_row fuel (length qs) (H05.Object res (board_of n qs) (Z.of_nat n)) =
  Some (H05.Object (res ++ map (board_of n) (place n (n - length qs) qs))
          (board_of n qs) (Z.of_nat n)).
Proof.
  revert qs res. induction fuel as [|fuel IH]; intros qs res Hqs Hlen Hfuel.
  - simpl. destruct (Z.eqb_spec (Z.of_nat (length qs)) (Z.of_nat n)); [|lia].
    replace (n - length qs) with 0 by lia. reflexivity.
  - cbn [H05.solveNQueens_row H05.n].
    destruct (Z.eqb_spec (Z.of_nat (length qs)) (Z.of_nat n)) as [E|E].
    { replace (n - length qs) with 0 by lia. reflexivity. }
    rewrite Nat2Z.id.
    assert (Ek : n - length qs = S (n - S (length qs))) by lia. rewrite Ek.
    cbn [place].
    set (f := fun c => if safe qs c then place n (n - S (length qs)) (qs ++ [c]) else []).
    match goal with
    | |- foldl ?g ?a0 (seq 0 n) = _ =>
        pose proof (foldl_seq_inv g
          (fun c acc => c <= n ->
             acc = Some (H05.Object (res ++ map (board_of n) (flat_map f (seq 0 c)))
                           (board_of n qs) (Z.of_nat n)))
          0 n a0) as H
    end.
    apply H; clear H; [| |lia].
    + intros _. simpl. rewrite app_nil_r. reflexivity.
    + intros c acc Hc Hacc Hle. rewrite Hacc by lia.
      rewrite seq_S, flat_map_app, map_app, app_assoc.
      cbn [mbind option_bind H05.board H05.result H05.n].
      rewrite (isSafe_safe n qs Hqs) by lia.
      cbn [flat_map Nat.add]. rewrite ?app_nil_r.
      assert (Hf : f c = if safe qs c then place n (n - S (length qs)) (qs ++ [c]) else [])
        by reflexivity.
      rewrite Hf. clear Hf.
      destruct (safe qs c) eqn:Hs; [|simpl; rewrite app_nil_r; reflexivity].
      rewrite put_queen by lia.
      replace (S (length qs)) with (length (qs ++ [c])) at 1
        by (rewrite length_app; simpl; lia).
      rewrite IH.
      * cbn [mbind option_bind H05.board H05.result H05.n].
        rewrite length_app. simpl length. rewrite Nat.add_1_r.
        rewrite take_queen by lia. reflexivity.
      * apply Forall_app. split; [exact Hqs | repeat constructor; lia].
      * rewrite length_app. simpl. lia.
      * rewrite length_app. simpl. lia.
Qed.

Lemma peaceful_snoc (qs : list nat) (c : nat) :
  peaceful (qs ++ [c]) <-> peaceful qs /\ safe_square qs c.
Proof.
  unfold peaceful, safe_square. split.
  - intros H. split.
    + intros i j ci cj Hij Hi Hj. apply (H i j ci cj Hij).
      * rewrite lookup_app_l by (eapply lookup_lt_Some; exact Hi). exact Hi.
      * rewrite lookup_app_l by (eapply lookup_lt_Some; exact Hj). exact Hj.
    + intros i ci Hi Hhit. pose proof (lookup_lt_Some _ _ _ Hi) as Hlt.
      apply (H i (length qs) ci c Hlt).
      * rewrite lookup_app_l by exact Hlt. exact Hi.
      * rewrite list_lookup_middle by reflexivity. reflexivity.
      * exact Hhit.
  - intros [Hp Hs] i j ci cj Hij Hi Hj.
    pose proof (lookup_lt_Some _ _ _ Hj) as Hjl. rewrite length_app in Hjl. simpl in Hjl.
    rewrite lookup_app_l in Hi by lia.
    destruct (decide (j = length qs)) as [->|Hne].
    + rewrite list_lookup_middle in Hj by reflexivity. injection Hj as <-.
      exact (Hs i ci Hi).
    + rewrite lookup_app_l in Hj by lia. exact (Hp i j ci cj Hij Hi Hj).
Qed.

Lemma peaceful_prefix (qs ext : list nat) : peaceful (qs ++ ext) -> peaceful qs.
Proof.
  intros H i j ci cj Hij Hi Hj. apply (H i j ci cj Hij).
  - rewrite lookup_app_l by (eapply lookup_lt_Some; exact Hi). exact Hi.
  - rewrite lookup_app_l by (eapply lookup_lt_Some; exact Hj). exact Hj.
Qed.

Lemma place_sound (k : nat) (qs qs' : list nat) :
  qs' ∈ place n k qs ->
  exists ext, qs' = qs ++ ext /\ length ext = k /\ Forall (fun c => c < n) ext /\
              (peaceful qs -> peaceful qs').
Proof.
  revert qs. induction k as [|k IH]; intros qs.
  - simpl. rewrite list_elem_of_singleton. intros ->.
    exists []. rewrite app_nil_r. repeat split; auto.
  - cbn [place]. rewrite list_elem_of_In, in_flat_map.
    intros (c & Hc & Hin). apply in_seq in Hc.
    destruct (safe qs c) eqn:Hs; [|destruct Hin].
    apply list_elem_of_In, IH in Hin as (ext & -> & Hlen & Hcols & Hp).
    apply (safe_spec qs) in Hs.
    exists (c :: ext). rewrite <- app_assoc. split; [reflexivity|].
    split; [simpl; lia|]. split; [constructor; [lia | exact Hcols]|].
    intros Hq. rewrite <- app_assoc in Hp. apply Hp. apply peaceful_snoc. auto.
Qed.

Lemma place_complete (k : nat) (qs ext : list nat) :
  length ext = k -> Forall (fun c => c < n) ext -> peaceful (qs ++ ext) ->
  qs ++ ext ∈ place n k qs.
Proof.
  revert qs ext. induction k as [|k IH]; intros qs ext Hlen Hcols Hp.
  - destruct ext; [|discriminate]. rewrite app_nil_r. simpl. apply list_elem_of_singleton.
    reflexivity.
  - destruct ext as [|c ext]; [discriminate|].
    apply Forall_cons in Hcols as [Hc Hcols].
    cbn [place]. rewrite list_elem_of_In, in_flat_map.
    exists c. split; [apply in_seq; lia|].
    replace (qs ++ c :: ext) with ((qs ++ [c]) ++ ext) in * by (rewrite <- app_assoc; reflexivity).
    pose proof (peaceful_prefix _ _ Hp) as Hpc. apply peaceful_snoc in Hpc as [_ Hs].
    apply (safe_spec qs) in Hs. rewrite Hs.
    apply list_elem_of_In, IH; [simpl in Hlen; lia | exact Hcols | exact Hp].
Qed.
End NQueensPlacements.

Lemma board_of_full (n : nat) (qs : list nat) :
  length qs = n -> board_of n qs = map (queen_row n) qs.
Proof.
  intros <-. unfold board_of. rewrite Nat.sub_diag. simpl. apply app_nil_r.
Qed.

Lemma board_of_inj (n : nat) (qs1 qs2 : list nat) :
  Forall (fun c => (c < n)%nat) qs1 -> Forall (fun c => (c < n)%nat) qs2 ->
  length qs1 = length qs2 -> board_of n qs1 = board_of n qs2 -> qs1 = qs2.
Proof.
  intros H1 H2 Hlen Hb. apply list_eq_same_length with (length qs1); [symmetry; exact Hlen | reflexivity |].
  intros i c1 c2 Hi E1 E2.
  assert (Hc1 : (c1 < n)%nat) by (rewrite Forall_lookup in H1; exact (H1 _ _ E1)).
  pose proof (is_queen_board n qs1 i c1 H1 Hc1) as Q1.
  pose proof (is_queen_board n qs2 i c1 H2 Hc1) as Q2.
  rewrite Hb, Q2 in Q1. rewrite E1, E2 in Q1.
  rewrite (bool_decide_eq_true_2 (Some c1 = Some c1)) in Q1 by reflexivity.
  apply bool_decide_eq_true_1 in Q1. congruence.
Qed.

Lemma NoDup_flat_map {A B} (f : A -> list B) (l : list A) :
  NoDup l -> (forall x, x ∈ l -> NoDup (f x)) ->
  (forall x y b, x ∈ l -> y ∈ l -> b ∈ f x -> b ∈ f y -> x = y) ->
  NoDup (flat_map f l).
Proof.
  induction l as [|a l IH]; intros Hl Hf Hd; simpl; [constructor|].
  apply NoDup_cons in Hl as [Ha Hl].
  apply NoDup_app. split; [|split].
  - apply Hf. left.
  - intros b Hb Hin. apply list_elem_of_In, in_flat_map in Hin as (y & Hy & Hby).
    apply list_elem_of_In in Hy, Hby.
    assert (a = y) by (apply (Hd a y b); [left | right; exact Hy | exact Hb | exact Hby]).
    subst y. contradiction.
  - apply IH; [exact Hl | |].
    + intros x Hx. apply Hf. right. exact Hx.
    + intros x y b Hx Hy. apply Hd; right; assumption.
Qed.

Lemma place_NoDup (n k : nat) (qs : list nat) : NoDup (place n k qs).
Proof.
  revert qs. induction k as [|k IH]; intros qs; cbn [place].
  - apply NoDup_singleton.
  - apply NoDup_flat_map.
    + apply NoDup_ListNoDup, seq_NoDup.
    + intros c _. destruct (safe qs c); [apply IH | constructor].
    + intros c1 c2 b _ _ Hb1 Hb2.
      destruct (safe qs c1); [|inversion Hb1]. destruct (safe qs c2); [|inversion Hb2].
      apply place_sound in Hb1 as (e1 & -> & _). apply place_sound in Hb2 as (e2 & E & _).
      rewrite <- !app_assoc in E. apply app_inv_head in E. simpl in E. congruence.
Qed.

Lemma empty_board_of (n : nat) : replicate n (replicate n "."%char) = board_of n [].
Proof. unfold board_of. simpl. rewrite Nat.sub_0_r. reflexivity. Qed.

Lemma solveNQueens_row_place_all (n fuel : nat) :
  (n <= fuel)%nat ->
  H05.solveNQueens_row fuel 0 (H05.Object [] (board_of n []) (Z.of_nat n)) =
  Some (H05.Object (map (board_of n) (place n n [])) (board_of n []) (Z.of_nat n)).
Proof.
  intros Hfuel.
  pose proof (solveNQueens_row_place n fuel [] [] ltac:(constructor) ltac:(simpl; lia)
                ltac:(simpl; lia)) as Hrow.
  simpl in Hrow. rewrite Nat.sub_0_r in Hrow. exact Hrow.
Qed.

(** X20: for [n >= 0] and enough fuel [solveNQueens] returns exactly the
    boards of the placements of [n] queens, one per row in a column below
    [n], in which no two queens share a column or a diagonal: every board
    returned is one (row [i] is dots with a ['Q'] in column [qs !! i]), and
    every such placement is returned. *)
Theorem solveNQueens_all_placements (fuel : nat) (n : Z) (s : H05.Solution) :
  (0 <= n)%Z -> (Z.to_nat n <= fuel)%nat ->
  exists sols s',
    H05.solveNQueens fuel n s = Some (Returned sols, s') /\
    forall b, b ∈ sols <->
      exists qs, length qs = Z.to_nat n /\ Forall (fun c => (c < Z.to_nat n)%nat) qs /\
                 peaceful qs /\ b = map (queen_row (Z.to_nat n)) qs.
Proof.
  intros Hn Hfuel. unfold H05.solveNQueens.
  destruct (Z.ltb_spec n 0) as [Hneg|_]; [lia|].
  cbn [H05.board H05.result].
  set (N := Z.to_nat n) in *. assert (En : n = Z.of_nat N) by lia.
  clearbody N. subst n.
  rewrite (empty_board_of N), (solveNQueens_row_place_all N fuel Hfuel). simpl.
  eexists _, _. split; [reflexivity|].
  intros b. rewrite list_elem_of_In, in_map_iff. split.
  - intros (qs & <- & Hin). apply list_elem_of_In, place_sound in Hin
      as (ext & -> & Hlen & Hcols & Hp).
    exists ext. simpl in *. split; [exact Hlen|]. split; [exact Hcols|].
    split; [apply Hp; intros i j ci cj _ Hi; discriminate Hi|].
    apply board_of_full. exact Hlen.
  - intros (qs & Hlen & Hcols & Hp & ->). exists qs.
    split; [apply board_of_full; exact Hlen|].
    apply list_elem_of_In. apply (place_complete N N [] qs Hlen Hcols Hp).
Qed.

Lemma solveNQueens_all_placements_witness :
  exists sols s',
    H05.solveNQueens 4 4 (H05.Object [] [] 0) = Some (Returned sols, s') /\
    forall b, b ∈ sols <->
      exists qs, length qs = Z.to_nat 4 /\ Forall (fun c => (c < Z.to_nat 4)%nat) qs /\
                 peaceful qs /\ b = map (queen_row (Z.to_nat 4)) qs.
Proof. apply (solveNQueens_all_placements 4 4); [lia | vm_compute; lia]. Defined.

(** X21: the list [solveNQueens] returns holds no board twice, it is in the
    order of the depth-first search over columns (the boards of [place]), and
    when the call returns the member [board] is all dots again: every queen
    the search put down it has taken up. *)
Theorem solveNQueens_no_repeats (fuel : nat) (n : Z) (s : H05.Solution) :
  (0 <= n)%Z -> (Z.to_nat n <= fuel)%nat ->
  exists sols s',
    H05.solveNQueens fuel n s = Some (Returned sols, s') /\
    sols = map (board_of (Z.to_nat n)) (place (Z.to_nat n) (Z.to_nat n) []) /\
    NoDup sols /\
    H05.result s' = sols /\
    H05.board s' = replicate (Z.to_nat n) (replicate (Z.to_nat n) "."%char) /\
    H05.n s' = n.
Proof.
  intros Hn Hfuel. unfold H05.solveNQueens.
  destruct (Z.ltb_spec n 0) as [Hneg|_]; [lia|].
  cbn [H05.board H05.result].
  set (N := Z.to_nat n) in *. assert (En : n = Z.of_nat N) by lia.
  clearbody N. subst n.
  rewrite (empty_board_of N), (solveNQueens_row_place_all N fuel Hfuel). simpl.
  eexists _, _. split; [reflexivity|]. split; [reflexivity|].
  split; [|repeat split].
  apply (NoDup_fmap_2_strong (board_of N)); [|apply place_NoDup].
  intros q1 q2 H1 H2 Hb.
  apply place_sound in H1 as (e1 & -> & L1 & C1 & _).
  apply place_sound in H2 as (e2 & -> & L2 & C2 & _).
  simpl in *. apply (board_of_inj N); [exact C1 | exact C2 | congruence | exact Hb].
Qed.

Lemma solveNQueens_no_repeats_witness :
  exists sols s',
    H05.solveNQueens 4 4 (H05.Object [] [] 0) = Some (Returned sols, s') /\
    sols = map (board_of (Z.to_nat 4)) (place (Z.to_nat 4) (Z.to_nat 4) []) /\
    NoDup sols /\
    H05.result s' = sols /\
    H05.board s' = replicate (Z.to_nat 4) (replicate (Z.to_nat 4) "."%char) /\
    H05.n s' = 4%Z.
Proof. apply (solveNQueens_no_repeats 4 4); [lia | vm_compute; lia]. Defined.

(** ** H03: findMedianSortedArrays on sorted input *)

(** The middle of a sorted list as the function computes it: the middle
    element when the length is odd, half the [int] sum of the two middle
    elements when it is even. *)
Definition median (a : list Z) : option Q :=
  let t := length a in
  if Nat.odd t then x ← a !! (t / 2)%nat; Some (inject_Z x)
  else x ← a !! (t / 2 - 1)%nat; y ← a !! (t / 2)%nat; Some (Qmake (Int32.add x y) 2).

Section SortedSplit.
Local Open Scope Z_scope.

Lemma sorted_lookup_le (a : list Z) (i j : nat) (x y : Z) :
  StronglySorted Z.le a -> (i <= j)%nat -> a !! i = Some x -> a !! j = Some y -> x <= y.
Proof.
  intros Ha. revert i j x y. induction Ha as [|h a Ha IH Hh]; intros i j x y Hij Hi Hj.
  - discriminate.
  - destruct i as [|i], j as [|j]; simpl in *; try lia.
    + injection Hi as <-. injection Hj as <-. lia.
    + injection Hi as <-. rewrite Forall_forall in Hh. apply Hh.
      eapply list_elem_of_lookup_2. exact Hj.
    + apply (IH i j); [lia | exact Hi | exact Hj].
Qed.

(** A sorted list that is a permutation of [L ++ R], with nothing in [L]
    above anything in [R], starts with the elements of [L]. *)
Lemma sorted_split (a L R : list Z) :
  StronglySorted Z.le a -> a ≡ₚ L ++ R ->
  (forall x y, x ∈ L -> y ∈ R -> x <= y) ->
  take (length L) a ≡ₚ L /\ drop (length L) a ≡ₚ R.
Proof.
  intros Ha Hp Hle.
  pose proof (StronglySorted_merge_sort Z.le L) as HsL.
  pose proof (StronglySorted_merge_sort Z.le R) as HsR.
  pose proof (merge_sort_Permutation Z.le L) as HpL.
  pose proof (merge_sort_Permutation Z.le R) as HpR.
  assert (E : a = merge_sort Z.le L ++ merge_sort Z.le R).
  { apply (StronglySorted_unique Z.le); [exact Ha | |].
    - apply StronglySorted_app_2; [|exact HsL | exact HsR].
      intros x y Hx Hy. rewrite HpL in Hx. rewrite HpR in Hy. auto.
    - rewrite Hp, HpL, HpR. reflexivity. }
  assert (El : length (merge_sort Z.le L) = length L) by (rewrite HpL; reflexivity).
  rewrite E, <- El, take_app_length, drop_app_length. auto.
Qed.

Lemma sorted_left_max (a L R : list Z) (M : Z) :
  StronglySorted Z.le a -> a ≡ₚ L ++ R ->
  (forall x y, x ∈ L -> y ∈ R -> x <= y) ->
  M ∈ L -> (forall x, x ∈ L -> x <= M) ->
  a !! (length L - 1)%nat = Some M.
Proof.
  intros Ha Hp Hle HM Hmax.
  destruct (sorted_split a L R Ha Hp Hle) as [HL _].
  assert (Hlen : (length L <= length a)%nat).
  { rewrite Hp, length_app. lia. }
  assert (Hpos : (0 < length L)%nat).
  { destruct L; [inversion HM | simpl; lia]. }
  destruct (lookup_lt_is_Some_2 a (length L - 1)%nat ltac:(lia)) as [v Hv].
  rewrite Hv. f_equal.
  assert (Hv' : v ∈ L).
  { rewrite <- HL. apply (list_elem_of_lookup_2 _ (length L - 1)%nat).
    rewrite lookup_take_lt by lia. exact Hv. }
  assert (HM' : M ∈ take (length L) a) by (rewrite HL; exact HM).
  apply list_elem_of_lookup_1 in HM' as [k Hk].
  pose proof (lookup_lt_Some _ _ _ Hk) as Hkl. rewrite length_take in Hkl.
  rewrite lookup_take_lt in Hk by lia.
  pose proof (sorted_lookup_le a k (length L - 1)%nat M v Ha ltac:(lia) Hk Hv).
  pose proof (Hmax v Hv'). lia.
Qed.

Lemma sorted_right_min (a L R : list Z) (m : Z) :
  StronglySorted Z.le a -> a ≡ₚ L ++ R ->
  (forall x y, x ∈ L -> y ∈ R -> x <= y) ->
  m ∈ R -> (forall y, y ∈ R -> m <= y) ->
  a !! length L = Some m.
Proof.
  intros Ha Hp Hle Hm Hmin.
  destruct (sorted_split a L R Ha Hp Hle) as [_ HR].
  assert (Hlen : (length a = length L + length R)%nat).
  { rewrite Hp, length_app. lia. }
  assert (Hpos : (0 < length R)%nat).
  { destruct R; [inversion Hm | simpl; lia]. }
  destruct (lookup_lt_is_Some_2 a (length L) ltac:(lia)) as [v Hv].
  rewrite Hv. f_equal.
  assert (Hv' : v ∈ R).
  { rewrite <- HR. apply (list_elem_of_lookup_2 _ 0%nat).
    rewrite lookup_drop, Nat.add_0_r. exact Hv. }
  assert (Hm' : m ∈ drop (length L) a) by (rewrite HR; exact Hm).
  apply list_elem_of_lookup_1 in Hm' as [k Hk].
  rewrite lookup_drop in Hk.
  pose proof (sorted_lookup_le a (length L) (length L + k)%nat v m Ha ltac:(lia) Hv Hk).
  pose proof (Hmin v Hv'). lia.
Qed.
End SortedSplit.

(** The values the loop reads on the two sides of a cut at [i]: the
    element before it or [INT_MIN], the element after it or [INT_MAX]. *)
Definition cut_left (v : list Z) (i : Z) : option Z :=
  if (i >? 0)%Z then Vec.get v (i - 1) else Some Int32.INT_MIN.

Definition cut_right (v : list Z) (i : Z) : option Z :=
  if (i <? Z.of_nat (length v))%Z then Vec.get v i else Some Int32.INT_MAX.

Section Cuts.
Local Open Scope Z_scope.
Variable v : list Z.
Hypothesis v_sorted : StronglySorted Z.le v.
Hypothesis v_range : Forall Int32.in_range v.

Lemma cut_left_spec (i : Z) :
  0 <= i <= Z.of_nat (length v) ->
  exists l, cut_left v i = Some l /\ Int32.in_range l /\
            (forall x, x ∈ take (Z.to_nat i) v -> x <= l) /\
            (0 < i -> l ∈ take (Z.to_nat i) v /\ Vec.get v (i - 1) = Some l) /\
            (i = 0 -> l = Int32.INT_MIN).
Proof using v_sorted v_range.
  intros Hi. unfold cut_left. rewrite Z.gtb_ltb. destruct (Z.ltb_spec 0 i) as [Hpos|Hz].
  - unfold Vec.get. destruct (Z.ltb_spec (i - 1) 0); [lia|].
    destruct (lookup_lt_is_Some_2 v (Z.to_nat (i - 1)) ltac:(lia)) as [l Hl].
    exists l. split; [exact Hl|]. split; [|split; [|split]].
    + rewrite Forall_lookup in v_range. exact (v_range _ _ Hl).
    + intros x Hx. apply list_elem_of_lookup_1 in Hx as [k Hk].
      pose proof (lookup_lt_Some _ _ _ Hk) as Hkl. rewrite length_take in Hkl.
      rewrite lookup_take_lt in Hk by lia.
      apply (sorted_lookup_le v k (Z.to_nat (i - 1)) x l v_sorted); [lia | exact Hk | exact Hl].
    + intros _. split; [|exact Hl].
      apply (list_elem_of_lookup_2 _ (Z.to_nat (i - 1))).
      rewrite lookup_take_lt by lia. exact Hl.
    + lia.
  - assert (i = 0) as -> by lia. exists Int32.INT_MIN. split; [reflexivity|].
    split; [unfold Int32.in_range, Int32.INT_MIN, Int32.INT_MAX; lia|].
    split; [|split; [lia | reflexivity]].
    intros x Hx. simpl in Hx. inversion Hx.
Qed.

Lemma cut_right_spec (i : Z) :
  0 <= i <= Z.of_nat (length v) ->
  exists r, cut_right v i = Some r /\ Int32.in_range r /\
            (forall y, y ∈ drop (Z.to_nat i) v -> r <= y) /\
            (i < Z.of_nat (length v) -> r ∈ drop (Z.to_nat i) v /\ Vec.get v i = Some r) /\
            (i = Z.of_nat (length v) -> r = Int32.INT_MAX).
Proof using v_sorted v_range.
  intros Hi. unfold cut_right. destruct (Z.ltb_spec i (Z.of_nat (length v))) as [Hlt|Hge].
  - unfold Vec.get. destruct (Z.ltb_spec i 0); [lia|].
    destruct (lookup_lt_is_Some_2 v (Z.to_nat i) ltac:(lia)) as [r Hr].
    exists r. split; [exact Hr|]. split; [|split; [|split]].
    + rewrite Forall_lookup in v_range. exact (v_range _ _ Hr).
    + intros y Hy. apply list_elem_of_lookup_1 in Hy as [k Hk].
      rewrite lookup_drop in Hk.
      apply (sorted_lookup_le v (Z.to_nat i) (Z.to_nat i + k) r y v_sorted);
        [lia | exact Hr | exact Hk].
    + intros _. split; [|exact Hr].
      apply (list_elem_of_lookup_2 _ 0%nat). rewrite lookup_drop, Nat.add_0_r. exact Hr.
    + lia.
  - exists Int32.INT_MAX. split; [reflexivity|].
    split; [unfold Int32.in_range, Int32.INT_MIN, Int32.INT_MAX; lia|].
    split; [|split; [lia | reflexivity]].
    intros y Hy. rewrite drop_ge in Hy by lia. inversion Hy.
Qed.

Lemma sorted_take_drop (i : nat) (x y : Z) :
  x ∈ take i v -> y ∈ drop i v -> x <= y.
Proof using v_sorted.
  intros Hx Hy. pose proof v_sorted as Hs. rewrite <- (take_drop i v) in Hs.
  apply StronglySorted_app in Hs as [Hs _]. exact (Hs x y Hx Hy).
Qed.
End Cuts.

Section MedianSearch.
Local Open Scope Z_scope.
Variables nums1 nums2 a : list Z.
Hypothesis sorted1 : StronglySorted Z.le nums1.
Hypothesis sorted2 : StronglySorted Z.le nums2.
Hypothesis range1 : Forall Int32.in_range nums1.
Hypothesis range2 : Forall Int32.in_range nums2.
Hypothesis shorter : (length nums1 <= length nums2)%nat.
Hypothesis a_sorted : StronglySorted Z.le a.
Hypothesis a_perm : a ≡ₚ nums1 ++ nums2.

(** A cut that passes the test of the loop has the lower half of the
    sorted whole on its left. *)
Lemma partition_found (i l1 r1 l2 r2 : Z) :
  let m := Z.of_nat (length nums1) in
  let n := Z.of_nat (length nums2) in
  let half := (m + n + 1) / 2 in
  1 <= m + n -> 0 <= i <= m ->
  cut_left nums1 i = Some l1 -> cut_right nums1 i = Some r1 ->
  cut_left nums2 (half - i) = Some l2 -> cut_right nums2 (half - i) = Some r2 ->
  l1 <= r2 -> l2 <= r1 ->
  a !! (Z.to_nat half - 1)%nat = Some (Z.max l1 l2) /\
  (half < m + n -> a !! Z.to_nat half = Some (Z.min r1 r2)).
Proof using All.
  intros m n half Hpos Hi E1 E2 E3 E4 H12 H21.
  assert (Hj : 0 <= half - i <= n) by (unfold half, m, n in *; Z.to_euclidean_division_equations; lia).
  destruct (cut_left_spec nums1 sorted1 range1 i Hi) as (l1' & E1' & Rl1 & Ul1 & Ml1 & Zl1).
  destruct (cut_right_spec nums1 sorted1 range1 i Hi) as (r1' & E2' & Rr1 & Ur1 & Mr1 & Zr1).
  destruct (cut_left_spec nums2 sorted2 range2 (half - i) Hj)
    as (l2' & E3' & Rl2 & Ul2 & Ml2 & Zl2).
  destruct (cut_right_spec nums2 sorted2 range2 (half - i) Hj)
    as (r2' & E4' & Rr2 & Ur2 & Mr2 & Zr2).
  assert (l1' = l1) by congruence. assert (r1' = r1) by congruence.
  assert (l2' = l2) by congruence. assert (r2' = r2) by congruence.
  subst l1' r1' l2' r2'. clear E1' E2' E3' E4'.
  set (I := Z.to_nat i) in *. set (J := Z.to_nat (half - i)) in *.
  set (L := take I nums1 ++ take J nums2).
  set (R := drop I nums1 ++ drop J nums2).
  assert (HL : length L = Z.to_nat half).
  { unfold L. rewrite length_app, !length_take. unfold I, J, half, m, n in *. Z.to_euclidean_division_equations. lia. }
  assert (Hperm : a ≡ₚ L ++ R).
  { rewrite a_perm. unfold L, R.
    rewrite <- (take_drop I nums1) at 1. rewrite <- (take_drop J nums2) at 1.
    solve_Permutation. }
  assert (Hcross : forall x y, x ∈ L -> y ∈ R -> x <= y).
  { intros x y Hx Hy. unfold L, R in Hx, Hy.
    apply elem_of_app in Hx as [Hx|Hx]; apply elem_of_app in Hy as [Hy|Hy].
    - exact (sorted_take_drop nums1 sorted1 I x y Hx Hy).
    - pose proof (Ul1 x Hx). pose proof (Ur2 y Hy). lia.
    - pose proof (Ul2 x Hx). pose proof (Ur1 y Hy). lia.
    - exact (sorted_take_drop nums2 sorted2 J x y Hx Hy). }
  unfold Int32.in_range in *.
  split.
  - rewrite <- HL. apply (sorted_left_max a L R _ a_sorted Hperm Hcross).
    + unfold L. apply elem_of_app.
      destruct (Z.max_spec l1 l2) as [[Hlt ->] | [Hle ->]].
      * destruct (Z.eq_dec (half - i) 0) as [Hz|Hnz].
        { left. rewrite (Zl2 Hz) in *. assert (l1 = Int32.INT_MIN) as <- by lia.
          apply Ml1. unfold half, m, n in *. Z.to_euclidean_division_equations. lia. }
        { right. apply Ml2. lia. }
      * destruct (Z.eq_dec i 0) as [Hz|Hnz].
        { right. rewrite (Zl1 Hz) in *. assert (l2 = Int32.INT_MIN) as <- by lia.
          apply Ml2. unfold half, m, n in *. Z.to_euclidean_division_equations. lia. }
        { left. apply Ml1. lia. }
    + intros x Hx. unfold L in Hx. apply elem_of_app in Hx as [Hx|Hx].
      * pose proof (Ul1 x Hx). lia.
      * pose proof (Ul2 x Hx). lia.
  - intros Hhalf. rewrite <- HL. apply (sorted_right_min a L R _ a_sorted Hperm Hcross).
    + unfold R. apply elem_of_app.
      destruct (Z.min_spec r1 r2) as [[Hlt ->] | [Hle ->]].
      * destruct (Z.eq_dec i m) as [Hz|Hnz].
        { right. rewrite (Zr1 Hz) in *. assert (r2 = Int32.INT_MAX) as <- by lia.
          apply Mr2. unfold half, m, n in *. Z.to_euclidean_division_equations. lia. }
        { left. apply Mr1. unfold m in *. lia. }
      * destruct (Z.eq_dec (half - i) n) as [Hz|Hnz].
        { left. rewrite (Zr2 Hz) in *. assert (r1 = Int32.INT_MAX) as <- by lia.
          apply Mr1. unfold half, m, n in *. Z.to_euclidean_division_equations. lia. }
        { right. apply Mr2. unfold n in *. lia. }
    + intros y Hy. unfold R in Hy. apply elem_of_app in Hy as [Hy|Hy].
      * pose proof (Ur1 y Hy). lia.
      * pose proof (Ur2 y Hy). lia.
Qed.
End MedianSearch.

Section MedianOfSorted.
Local Open Scope Z_scope.

Lemma median_odd (a : list Z) (x : Z) :
  Z.of_nat (length a) mod 2 = 1 ->
  a !! (Z.to_nat ((Z.of_nat (length a) + 1) / 2) - 1)%nat = Some x ->
  median a = Some (inject_Z x).
Proof.
  intros Hodd Hx. unfold median.
  destruct (Nat.odd (length a)) eqn:E.
  - apply Nat.odd_spec in E as [k Hk].
    assert (Hd : (length a / 2)%nat = k).
    { rewrite Hk. replace (2 * k + 1)%nat with (1 + k * 2)%nat by lia.
      rewrite Nat.div_add by lia. reflexivity. }
    rewrite Hd.
    replace k with (Z.to_nat ((Z.of_nat (length a) + 1) / 2) - 1)%nat
      by (rewrite Hk; Z.to_euclidean_division_equations; lia).
    rewrite Hx. reflexivity.
  - assert (Hev : Nat.even (length a) = true) by (rewrite <- Nat.negb_odd, E; reflexivity).
    apply Nat.even_spec in Hev as [k Hk]. rewrite Hk in Hodd.
    Z.to_euclidean_division_equations. lia.
Qed.

Lemma median_even (a : list Z) (x y : Z) :
  Z.of_nat (length a) mod 2 = 0 ->
  a !! (Z.to_nat ((Z.of_nat (length a) + 1) / 2) - 1)%nat = Some x ->
  a !! Z.to_nat ((Z.of_nat (length a) + 1) / 2) = Some y ->
  median a = Some (Qmake (Int32.add x y) 2).
Proof.
  intros Hev Hx Hy. unfold median.
  destruct (Nat.odd (length a)) eqn:E.
  - apply Nat.odd_spec in E as [k Hk]. rewrite Hk in Hev.
    Z.to_euclidean_division_equations. lia.
  - assert (Hev' : Nat.even (length a) = true) by (rewrite <- Nat.negb_odd, E; reflexivity).
    apply Nat.even_spec in Hev' as [k Hk].
    assert (Hd : (length a / 2)%nat = k).
    { rewrite Hk, Nat.mul_comm. apply Nat.div_mul. lia. }
    rewrite Hd.
    assert (Hh : Z.to_nat ((Z.of_nat (length a) + 1) / 2) = k)
      by (rewrite Hk; Z.to_euclidean_division_equations; lia).
    rewrite Hh in Hx, Hy. rewrite Hx. simpl. rewrite Hy. reflexivity.
Qed.

Variables nums1 nums2 a : list Z.
Hypothesis sorted1 : StronglySorted Z.le nums1.
Hypothesis sorted2 : StronglySorted Z.le nums2.
Hypothesis range1 : Forall Int32.in_range nums1.
Hypothesis range2 : Forall Int32.in_range nums2.
Hypothesis shorter : (length nums1 <= length nums2)%nat.
Hypothesis a_sorted : StronglySorted Z.le a.
Hypothesis a_perm : a ≡ₚ nums1 ++ nums2.
Hypothesis nonempty : (1 <= length nums1 + length nums2)%nat.

(** Between the calls of the body: either the median has been found, or
    the cut lies in [left, right], every cut below [left] has been seen
    too small and every cut above [right] too large. *)
Definition search_inv (s : H03.state) : Prop :=
  let m := Z.of_nat (length nums1) in
  let n := Z.of_nat (length nums2) in
  let half := (m + n + 1) / 2 in
  match H03.ret s with
  | Some r => median a = Some r
  | None =>
      0 <= H03.left s /\ H03.right s <= m /\ H03.left s <= H03.right s + 1 /\
      (0 < H03.left s ->
       exists x y, Vec.get nums1 (H03.left s - 1) = Some x /\
                   Vec.get nums2 (half - H03.left s) = Some y /\ x < y) /\
      (H03.right s < m ->
       exists x y, Vec.get nums1 (H03.right s) = Some x /\
                   Vec.get nums2 (half - H03.right s - 1) = Some y /\ y < x)
  end.

Definition search_size (s : H03.state) : nat :=
  match H03.ret s with
  | Some _ => 0%nat
  | None => Z.to_nat (H03.right s - H03.left s + 1)
  end.

Lemma length_whole : length a = (length nums1 + length nums2)%nat.
Proof using a_perm. rewrite a_perm, length_app. reflexivity. Qed.

Lemma search_step (s : H03.state) :
  search_inv s -> H03.cond s = true ->
  exists s', H03.body nums1 nums2 s = Some s' /\ search_inv s' /\
             (search_size s' < search_size s)%nat.
Proof using All.
  unfold search_inv, search_size, H03.cond. destruct s as [left right ret]. simpl.
  destruct ret as [r|]; [discriminate|].
  intros (Hl & Hr & Hlr & Hbelow & Habove) Hcond. apply Z.leb_le in Hcond.
  set (m := Z.of_nat (length nums1)) in *. set (n := Z.of_nat (length nums2)) in *.
  set (half := (m + n + 1) / 2) in *.
  set (i := left + (right - left) / 2).
  assert (Hi : left <= i <= right) by (unfold i; Z.to_euclidean_division_equations; lia).
  assert (Hi' : 0 <= i <= m) by lia.
  assert (Hj : 0 <= half - i <= n)
    by (unfold half, m, n in *; Z.to_euclidean_division_equations; lia).
  destruct (cut_left_spec nums1 sorted1 range1 i Hi') as (l1 & E1 & Rl1 & _ & Ml1 & Zl1).
  destruct (cut_right_spec nums1 sorted1 range1 i Hi') as (r1 & E2 & Rr1 & _ & Mr1 & Zr1).
  destruct (cut_left_spec nums2 sorted2 range2 (half - i) Hj)
    as (l2 & E3 & Rl2 & _ & Ml2 & Zl2).
  destruct (cut_right_spec nums2 sorted2 range2 (half - i) Hj)
    as (r2 & E4 & Rr2 & _ & Mr2 & Zr2).
  assert (Hbody : H03.body nums1 nums2 (H03.State left right None) =
    (nums1_left ← cut_left nums1 i; nums1_right ← cut_right nums1 i;
     nums2_left ← cut_left nums2 (half - i); nums2_right ← cut_right nums2 (half - i);
     if (nums1_left <=? nums2_right) && (nums2_left <=? nums1_right) then
       if (m + n) mod 2 =? 1 then
         Some (H03.State left right (Some (inject_Z (Z.max nums1_left nums2_left))))
       else
         Some (H03.State left right
                 (Some (Qmake (Int32.add (Z.max nums1_left nums2_left)
                                         (Z.min nums1_right nums2_right)) 2)))
     else if nums1_left >? nums2_right then Some (H03.State left (i - 1) None)
     else Some (H03.State (i + 1) right None))).
  { unfold H03.body, cut_left, cut_right, i, half, m, n.
    cbn [H03.left H03.right]. cbv zeta.
    rewrite !Z.quot_div_nonneg by lia. rewrite Z.rem_mod_nonneg by lia.
    reflexivity. }
  rewrite Hbody, E1, E2, E3, E4. clear Hbody. simpl.
  pose proof length_whole as Hlen.
  unfold Int32.in_range in *.
  destruct (Z.leb_spec l1 r2) as [H12|H12]; [destruct (Z.leb_spec l2 r1) as [H21|H21]|]; simpl.
  - destruct (partition_found nums1 nums2 a sorted1 sorted2 range1 range2 shorter
                a_sorted a_perm i l1 r1 l2 r2 ltac:(lia) Hi' E1 E2 E3 E4 H12 H21)
      as [Hmax Hmin].
    fold m n half in Hmax, Hmin.
    assert (Ehalf : half = (Z.of_nat (length a) + 1) / 2)
      by (unfold half, m, n; rewrite Hlen; f_equal; lia).
    destruct (Z.eqb_spec ((m + n) mod 2) 1) as [Hodd|Heven].
    + eexists. split; [reflexivity|]. simpl. split; [|lia].
      apply median_odd; [rewrite Hlen; unfold m, n in Hodd; rewrite <- Hodd; f_equal; lia|].
      rewrite <- Ehalf. exact Hmax.
    + eexists. split; [reflexivity|]. simpl. split; [|lia].
      assert (Hev : (m + n) mod 2 = 0) by (Z.to_euclidean_division_equations; lia).
      apply median_even.
      * rewrite Hlen. unfold m, n in Hev. rewrite <- Hev. f_equal. lia.
      * rewrite <- Ehalf. exact Hmax.
      * rewrite <- Ehalf. apply Hmin. unfold half, m, n in *.
        Z.to_euclidean_division_equations. lia.
  - (* nums2_left > nums1_right, and nums1_left <= nums2_right: go right *)
    rewrite Z.gtb_ltb. destruct (Z.ltb_spec r2 l1); [lia|].
    eexists. split; [reflexivity|]. simpl. split; [|lia].
    assert (Him : i < m).
    { destruct (Z.eq_dec i m) as [Hz|]; [|lia]. rewrite (Zr1 Hz) in *. lia. }
    assert (Hjp : 0 < half - i).
    { destruct (Z.eq_dec (half - i) 0) as [Hz|]; [|lia]. rewrite (Zl2 Hz) in *. lia. }
    split; [lia|]. split; [lia|]. split; [lia|]. split.
    + intros _. exists r1, l2. replace (i + 1 - 1) with i by lia.
      replace (half - (i + 1)) with (half - i - 1) by lia.
      split; [apply Mr1; lia|]. split; [apply Ml2; lia | lia].
    + exact Habove.
  - (* nums1_left > nums2_right: go left *)
    rewrite Z.gtb_ltb. destruct (Z.ltb_spec r2 l1); [|lia].
    eexists. split; [reflexivity|]. simpl. split; [|lia].
    assert (Hip : 0 < i).
    { destruct (Z.eq_dec i 0) as [Hz|]; [|lia]. rewrite (Zl1 Hz) in *. lia. }
    assert (Hjn : half - i < n).
    { destruct (Z.eq_dec (half - i) n) as [Hz|]; [|lia]. rewrite (Zr2 Hz) in *. lia. }
    split; [lia|]. split; [lia|]. split; [lia|]. split.
    + exact Hbelow.
    + intros _. exists l1, r2. replace (half - (i - 1) - 1) with (half - i) by lia.
      split; [apply Ml1; lia|]. split; [apply Mr2; lia | lia].
Qed.

(** The loop ends by one of its [return]s, with the median. *)
Lemma search_loop (fuel : nat) :
  (length nums1 + 1 <= fuel)%nat ->
  exists s r,
    while H03.cond (H03.body nums1 nums2) fuel
      (H03.State 0 (Z.of_nat (length nums1)) None) = Some s /\
    H03.ret s = Some r /\ median a = Some r.
Proof using All.
  intros Hfuel.
  destruct (while_rule H03.cond (H03.body nums1 nums2) search_inv search_size search_step
              fuel (H03.State 0 (Z.of_nat (length nums1)) None))
    as (s & Hrun & Hinv & Hexit).
  { unfold search_inv. simpl. split; [lia|]. split; [lia|]. split; [lia|]. split; lia. }
  { unfold search_size. simpl. lia. }
  exists s. unfold search_inv, H03.cond in *. destruct (H03.ret s) as [r|].
  - exists r. split; [exact Hrun|]. split; [reflexivity | exact Hinv].
  - exfalso. destruct Hinv as (Hl & Hr & Hlr & Hbelow & Habove).
    apply Z.leb_gt in Hexit.
    set (m := Z.of_nat (length nums1)) in *.
    destruct (Z.eq_dec (H03.left s) 0) as [Hz|Hnz].
    + destruct Habove as (x & y & Hx & _); [lia|].
      apply get_Some_bounds in Hx. lia.
    + destruct Hbelow as (x & y & Hx & Hy & Hxy); [lia|].
      destruct (Z.eq_dec (H03.right s) m) as [Hm|Hnm].
      * apply get_Some_bounds in Hx. unfold m in *. lia.
      * destruct Habove as (x' & y' & Hx' & Hy' & Hxy'); [lia|].
        assert (El : H03.left s = H03.right s + 1) by lia. rewrite El in Hx, Hy.
        replace (H03.right s + 1 - 1) with (H03.right s) in Hx by lia.
        rewrite Z.sub_add_distr in Hy.
        rewrite Hx in Hx'. rewrite Hy in Hy'. injection Hx' as <-. injection Hy' as <-. lia.
Qed.

Lemma search_returns (fuel : nat) :
  (length nums1 + 1 <= fuel)%nat ->
  exists r, H03.findMedianSortedArrays fuel nums1 nums2 = Some r /\ median a = Some r.
Proof using All.
  intros Hfuel. destruct (search_loop fuel Hfuel) as (s & r & Hrun & Hret & Hmed).
  assert (Hunfold : H03.findMedianSortedArrays fuel nums1 nums2 =
    (s ← while H03.cond (H03.body nums1 nums2) fuel
           (H03.State 0 (Z.of_nat (length nums1)) None);
     match H03.ret s with Some r => Some r | None => Some (inject_Z 0) end)).
  { destruct (Nat.ltb_spec (length nums2) (length nums1)) as [Hlt|_]; [lia|].
    destruct fuel; simpl; destruct (Nat.ltb_spec (length nums2) (length nums1));
      try lia; reflexivity. }
  rewrite Hunfold, Hrun. simpl. rewrite Hret.
  exists r. split; [reflexivity | exact Hmed].
Qed.
End MedianOfSorted.

(** X22: on two sorted sequences of [int]s, not both empty and of sizes
    that together stay below [INT_MAX], [findMedianSortedArrays] returns
    the middle of the sorted whole: for any sorted [a] that is a
    permutation of [nums1 ++ nums2] the result is the middle element of [a]
    when the total size is odd and half the [int] sum of its two middle
    elements when it is even.  The answer is the same with the arguments
    exchanged.  The loop, which runs on the shorter sequence first, ends by
    one of the [return]s inside it: the [return 0.0] after the loop is
    never reached. *)
Theorem findMedianSortedArrays_sorted (fuel : nat) (nums1 nums2 a : list Z) :
  StronglySorted Z.le nums1 -> StronglySorted Z.le nums2 ->
  Forall Int32.in_range nums1 -> Forall Int32.in_range nums2 ->
  (1 <= length nums1 + length nums2)%nat ->
  (Z.of_nat (length nums1 + length nums2) < Int32.INT_MAX)%Z ->
  (Nat.min (length nums1) (length nums2) + 2 <= fuel)%nat ->
  StronglySorted Z.le a -> a ≡ₚ nums1 ++ nums2 ->
  exists r, H03.findMedianSortedArrays fuel nums1 nums2 = Some r /\
            H03.findMedianSortedArrays fuel nums2 nums1 = Some r /\
            median a = Some r /\
            let short := if (length nums2 <? length nums1)%nat then nums2 else nums1 in
            let long := if (length nums2 <? length nums1)%nat then nums1 else nums2 in
            forall fuel', (length short + 1 <= fuel')%nat ->
              exists s, while H03.cond (H03.body short long) fuel'
                          (H03.State 0 (Z.of_nat (length short)) None) = Some s /\
                        H03.ret s = Some r.
Proof.
  intros S1 S2 R1 R2 Hpos _ Hfuel Sa Hp.
  assert (Hp' : a ≡ₚ nums2 ++ nums1) by (rewrite Hp; apply Permutation_app_comm).
  assert (Hswap : forall l1 l2 : list Z, (length l2 < length l1)%nat -> forall f,
            H03.findMedianSortedArrays (S f) l1 l2 = H03.findMedianSortedArrays f l2 l1).
  { intros l1 l2 Hlt f. simpl.
    destruct (Nat.ltb_spec (length l2) (length l1)); [reflexivity | lia]. }
  destruct (Nat.le_gt_cases (length nums1) (length nums2)) as [Hle|Hgt].
  - destruct (search_returns nums1 nums2 a S1 S2 R1 R2 Hle Sa Hp Hpos fuel ltac:(lia))
      as (r & Hr & Hm).
    exists r. split; [exact Hr|]. split; [|split; [exact Hm|]].
    + destruct (Nat.eq_dec (length nums1) (length nums2)) as [Heq|Hne].
      * destruct (search_returns nums2 nums1 a S2 S1 R2 R1 ltac:(lia) Sa Hp' ltac:(lia)
                    fuel ltac:(lia)) as (r' & Hr' & Hm').
        rewrite Hr'. congruence.
      * destruct fuel as [|fuel]; [lia|]. rewrite Hswap by lia.
        destruct (search_returns nums1 nums2 a S1 S2 R1 R2 Hle Sa Hp Hpos fuel ltac:(lia))
          as (r' & Hr' & Hm').
        rewrite Hr'. congruence.
    + destruct (Nat.ltb_spec (length nums2) (length nums1)) as [Hlt|_]; [lia|].
      cbn zeta. intros fuel' Hfuel'.
      destruct (search_loop nums1 nums2 a S1 S2 R1 R2 Hle Sa Hp Hpos fuel' Hfuel')
        as (s & r' & Hrun & Hret & Hm').
      exists s. split; [exact Hrun | congruence].
  - destruct (search_returns nums2 nums1 a S2 S1 R2 R1 ltac:(lia) Sa Hp' ltac:(lia)
                fuel ltac:(lia)) as (r & Hr & Hm).
    exists r. split; [|split; [exact Hr | split; [exact Hm|]]].
    + destruct fuel as [|fuel]; [lia|]. rewrite Hswap by lia.
      destruct (search_returns nums2 nums1 a S2 S1 R2 R1 ltac:(lia) Sa Hp' ltac:(lia)
                  fuel ltac:(lia)) as (r' & Hr' & Hm').
      rewrite Hr'. congruence.
    + destruct (Nat.ltb_spec (length nums2) (length nums1)) as [_|Hge]; [|lia].
      cbn zeta. intros fuel' Hfuel'.
      destruct (search_loop nums2 nums1 a S2 S1 R2 R1 ltac:(lia) Sa Hp' ltac:(lia)
                  fuel' Hfuel') as (s & r' & Hrun & Hret & Hm').
      exists s. split; [exact Hrun | congruence].
Qed.

Lemma findMedianSortedArrays_sorted_witness :
  exists r, H03.findMedianSortedArrays 4 [1; 3]%Z [2; 4; 5]%Z = Some r /\
            H03.findMedianSortedArrays 4 [2; 4; 5]%Z [1; 3]%Z = Some r /\
            median [1; 2; 3; 4; 5]%Z = Some r /\
            forall fuel', (length [1; 3]%Z + 1 <= fuel')%nat ->
              exists s, while H03.cond (H03.body [1; 3]%Z [2; 4; 5]%Z) fuel'
                          (H03.State 0 (Z.of_nat (length [1; 3]%Z)) None) = Some s /\
                        H03.ret s = Some r.
Proof.
  apply (findMedianSortedArrays_sorted 4 [1; 3]%Z [2; 4; 5]%Z [1; 2; 3; 4; 5]%Z).
  - repeat constructor; lia.
  - repeat constructor; lia.
  - repeat constructor; vm_compute; discriminate.
  - repeat constructor; vm_compute; discriminate.
  - simpl. lia.
  - vm_compute. reflexivity.
  - simpl. lia.
  - repeat constructor; lia.
  - simpl. apply perm_skip. apply perm_swap.
Defined.

(** ** E06: reverseInt on numbers of at most nine digits *)

Section ReverseNineDigits.
Local Open Scope Z_scope.

(** With [p] digits left to read and [q] digits read, [p + q <= 9], no
    operation of the loop leaves the [int] range. *)
Lemma reverse_loop_exact (p : nat) (q fuel : nat) (n r : Z) (s : E06.state) :
  n < 10 ^ Z.of_nat p -> 0 <= r < 10 ^ Z.of_nat q -> (p + q <= 9)%nat ->
  while E06.cond E06.body fuel (E06.State n r true) = Some s ->
  E06.exact s = true /\ 0 <= E06.st_rev s < 10 ^ Z.of_nat (p + q).
Proof.
  revert q fuel n r. induction p as [|p IH]; intros q fuel n r Hn Hr Hpq Hrun.
  - assert (Hc : E06.cond (E06.State n r true) = false).
    { unfold E06.cond. simpl in *. destruct (Z.gtb_spec n 0); [lia | reflexivity]. }
    destruct fuel; simpl in Hrun; rewrite Hc in Hrun; injection Hrun as <-; simpl; auto.
  - destruct (E06.cond (E06.State n r true)) eqn:Hc.
    + destruct fuel as [|fuel]; simpl in Hrun; rewrite Hc in Hrun; [discriminate|].
      unfold E06.cond in Hc. simpl in Hc. apply Z.gtb_lt in Hc.
      rewrite Nat2Z.inj_succ, Z.pow_succ_r in Hn by lia.
      destruct (quot10_bound n (10 ^ Z.of_nat p)) as [Hq Hd]; [lia|].
      assert (Hp9 : 10 ^ Z.of_nat (S q) <= 10 ^ 9) by (apply Z.pow_le_mono_r; lia).
      rewrite Nat2Z.inj_succ, Z.pow_succ_r in Hp9 by lia.
      assert (R1 : Int32.in_range (r * 10))
        by (unfold Int32.in_range, Int32.INT_MIN, Int32.INT_MAX; lia).
      assert (R2 : Int32.in_range (r * 10 + Z.rem n 10))
        by (unfold Int32.in_range, Int32.INT_MIN, Int32.INT_MAX; lia).
      unfold E06.body in Hrun. cbn [E06.st_n E06.st_rev E06.exact] in Hrun.
      unfold Int32.mul, Int32.add in Hrun.
      rewrite (wrap_exact (r * 10)) in Hrun by exact R1.
      rewrite (wrap_exact (r * 10 + Z.rem n 10)) in Hrun by exact R2.
      rewrite (proj2 (in_rangeb_spec _) R1), (proj2 (in_rangeb_spec _) R2) in Hrun.
      simpl in Hrun.
      replace (S p + q)%nat with (p + S q)%nat by lia.
      apply (IH (S q) fuel (Z.quot n 10) (r * 10 + Z.rem n 10)); [lia | | lia | exact Hrun].
      rewrite Nat2Z.inj_succ, Z.pow_succ_r by lia. lia.
    + destruct fuel; simpl in Hrun; rewrite Hc in Hrun; injection Hrun as <-;
        cbn [E06.exact E06.st_rev]; (split; [reflexivity|]);
        assert (10 ^ Z.of_nat q <= 10 ^ Z.of_nat (S p + q)) by (apply Z.pow_le_mono_r; lia);
        lia.
Qed.

Lemma reverseInt_run_nine (fuel : nat) (x : Z) :
  (10 <= fuel)%nat -> - 10 ^ 9 < x < 10 ^ 9 ->
  E06.reverseInt_run fuel x = Some (Z.sgn x * revnum fuel (Z.abs x), true) /\
  0 <= revnum fuel (Z.abs x) < 10 ^ 9.
Proof.
  intros Hf Hx. unfold E06.reverseInt_run.
  assert (Hneg : Int32.in_range (- x))
    by (unfold Int32.in_range, Int32.INT_MIN, Int32.INT_MAX; lia).
  assert (En : (if x <? 0 then Int32.neg x else x) = Z.abs x).
  { unfold Int32.neg. rewrite wrap_exact by exact Hneg. destruct (Z.ltb_spec x 0); lia. }
  assert (Eok : (if x <? 0 then Int32.in_rangeb (- x) else true) = true).
  { destruct (x <? 0); [apply in_rangeb_spec; exact Hneg | reflexivity]. }
  rewrite En, Eok.
  destruct (reverse_loop fuel (Z.abs x) 0 true) as (s & Hs & Hex).
  { apply int_below_pow10; [exact Hf|].
    unfold Int32.in_range, Int32.INT_MIN, Int32.INT_MAX. lia. }
  destruct (reverse_loop_exact 9 0 fuel (Z.abs x) 0 s) as [He Hb];
    [simpl; lia | simpl; lia | lia | exact Hs |].
  destruct (Hex He) as [_ Hrev]. rewrite horner_value in Hrev.
  rewrite Z.mul_0_l, Z.add_0_r in Hrev. fold (revnum fuel (Z.abs x)) in Hrev.
  rewrite Hs. simpl. rewrite He, Hrev in *. simpl in Hb.
  set (sign := if x <? 0 then -1 else 1).
  assert (Hsign : sign * revnum fuel (Z.abs x) = Z.sgn x * revnum fuel (Z.abs x)).
  { unfold sign. destruct (Z.ltb_spec x 0) as [Hlt|Hge].
    - rewrite Z.sgn_neg by exact Hlt. reflexivity.
    - destruct (Z.eq_dec x 0) as [->|Hnz].
      + assert (E0 : revnum fuel (Z.abs 0) = 0).
        { unfold revnum. simpl. rewrite digits_nonpos by lia. reflexivity. }
        rewrite E0. reflexivity.
      + rewrite Z.sgn_pos by lia. reflexivity. }
  assert (Rs : Int32.in_range (sign * revnum fuel (Z.abs x))).
  { unfold Int32.in_range, Int32.INT_MIN, Int32.INT_MAX, sign. destruct (x <? 0); lia. }
  unfold Int32.mul. rewrite (wrap_exact _ Rs), (proj2 (in_rangeb_spec _) Rs), Hsign.
  split; [reflexivity | lia].
Qed.
End ReverseNineDigits.

(** X23: an [int] of at most nine digits is reversed without overflow: the
    call returns the digits of [|x|] read backwards with the sign of [x],
    again a number of at most nine digits, and the reversal of [-x] is the
    negated reversal of [x]. *)
Theorem reverseInt_nine_digits (fuel : nat) (x : Z) :
  (10 <= fuel)%nat -> (- 10 ^ 9 < x < 10 ^ 9)%Z ->
  E06.no_overflow fuel x /\
  exists y, E06.reverseInt fuel x = Some y /\
            y = (Z.sgn x * E06.value (rev (E06.digits fuel (Z.abs x))))%Z /\
            (- 10 ^ 9 < y < 10 ^ 9)%Z /\
            E06.reverseInt fuel (- x) = Some (- y)%Z.
Proof.
  intros Hf Hx.
  destruct (reverseInt_run_nine fuel x Hf Hx) as [Hrun Hb].
  destruct (reverseInt_run_nine fuel (- x) Hf ltac:(lia)) as [Hrun' _].
  unfold E06.no_overflow, E06.reverseInt. rewrite Hrun, Hrun'. simpl.
  split; [reflexivity|]. eexists. split; [reflexivity|].
  split; [reflexivity|]. split.
  - fold (revnum fuel (Z.abs x)). destruct (Z.sgn_spec x) as [[_ ->] | [[_ ->] | [_ ->]]]; lia.
  - rewrite Z.abs_opp, Z.sgn_opp. f_equal. unfold revnum. lia.
Qed.

Lemma reverseInt_nine_digits_witness :
  E06.no_overflow 10 (-120) /\
  exists y, E06.reverseInt 10 (-120) = Some y /\
            y = (Z.sgn (-120) * E06.value (rev (E06.digits 10 (Z.abs (-120)))))%Z /\
            (- 10 ^ 9 < y < 10 ^ 9)%Z /\
            E06.reverseInt 10 (- (-120)) = Some (- y)%Z.
Proof. apply (reverseInt_nine_digits 10 (-120)); lia. Defined.

(** ** H04: sqrt_newton at the edge of its domain *)

From Stdlib Require Floats.PrimFloat.

(** [double] is the IEEE 754 binary64 format, with the operations of the
    primitive floats. *)
Module H04.
Import PrimFloat.
Local Open Scope float_scope.

(** [guess = (guess + x / guess) / 2.0;] *)
Definition step (x guess : float) : float := (guess + x / guess) / 2.

Definition sqrt_newton (x : float) (iterations : Z) : float :=
  if x <? 0 then -1
  else foldl (fun guess _ => step x guess) (x / 2) (seq 0 (Z.to_nat iterations)).
End H04.

Section SqrtNewton.
Import PrimFloat.
Local Open Scope float_scope.

Lemma nan_stays (x : float) (l : list nat) :
  H04.step x nan = nan ->
  foldl (fun guess _ => H04.step x guess) nan l = nan.
Proof.
  intros Hx. induction l as [|i l IH]; [reflexivity|]. simpl. rewrite Hx. exact IH.
Qed.

Lemma first_nan (x : float) (iterations : Z) :
  (x <? 0) = false -> H04.step x (x / 2) = nan -> H04.step x nan = nan ->
  (1 <= iterations)%Z -> H04.sqrt_newton x iterations = nan.
Proof.
  intros Hneg H1 Hn Hit. unfold H04.sqrt_newton. rewrite Hneg.
  destruct (Z.to_nat iterations) as [|k] eqn:E; [lia|].
  cbn [seq foldl]. rewrite H1. apply nan_stays. exact Hn.
Qed.

(** X24: with at least one iteration [sqrt_newton] is not a number at
    zero, the least argument it admits: the first step divides [0] by the
    guess [0].  It is not a number at minus zero, at infinity and at a
    not-a-number either, and [-1] at minus infinity. *)
Theorem sqrt_newton_edges (iterations : Z) :
  (1 <= iterations)%Z ->
  H04.sqrt_newton 0 iterations = nan /\
  H04.sqrt_newton (-0) iterations = nan /\
  H04.sqrt_newton infinity iterations = nan /\
  H04.sqrt_newton nan iterations = nan /\
  H04.sqrt_newton neg_infinity iterations = -1.
Proof.
  intros Hit.
  split; [apply first_nan; [reflexivity.. | exact Hit]|].
  split; [apply first_nan; [reflexivity.. | exact Hit]|].
  split; [apply first_nan; [reflexivity.. | exact Hit]|].
  split; [apply first_nan; [reflexivity.. | exact Hit]|].
  reflexivity.
Qed.

Lemma sqrt_newton_edges_witness :
  H04.sqrt_newton 0 3 = nan /\
  H04.sqrt_newton (-0) 3 = nan /\
  H04.sqrt_newton infinity 3 = nan /\
  H04.sqrt_newton nan 3 = nan /\
  H04.sqrt_newton neg_infinity 3 = -1.
Proof. apply (sqrt_newton_edges 3). lia. Defined.
End SqrtNewton.
